(** * Ren-C evaluator core: traps, error objects, parameter lists, objects

    A shallow embedding of the parts of the interpreter core that the
    specification makes promises about, one module per source file:

    - [Trap]    : src/core/c-error.c, [Push_Trap_Helper], [Fail_Core],
                  [Trapped_Helper_Halted], [Stack_Depth];
    - [Errors]  : src/core/c-error.c, [Find_Error_For_Code],
                  [Make_Error_Object_Throws], [Exit_Status_From_Value];
    - [Func]    : src/core/c-function.c, [Make_Paramlist_Managed],
                  [Make_Function];
    - [Object]  : src/core/t-object.c, [Same_Object], [Equal_Object],
                  [CT_Object] and the LENGTH? / TAIL? actions.

    The release build is modelled: [assert] and [#if !defined(NDEBUG)]
    blocks do nothing.  A C routine that leaves through [fail] (a longjmp)
    is a function into a result type with a constructor for the failure. *)

From Stdlib Require Import ZArith List Bool Lia.
From stdpp Require Import base decidable list sets strings.

Local Open Scope Z_scope.
#[local] Set Warnings "-clear-no-such-hyp".

(** ** Machine integers *)

(** [REBCNT] is an unsigned 32-bit integer, [REBINT] a signed one. *)
Definition REBCNT_of (z : Z) : Z := z mod 2 ^ 32.

Definition REBINT_of (z : Z) : Z := (z + 2 ^ 31) mod 2 ^ 32 - 2 ^ 31.

(** ** Symbols and words *)

(** Symbol numbers ([REBCNT] indices of the symbol table); [SYM_0] is no
    symbol. *)
Definition REBSYM := nat.
Definition SYM_0 : REBSYM := 0%nat.

(** The word datatypes that [ANY_WORD] accepts. *)
Inductive word_kind :=
| REB_WORD | REB_SET_WORD | REB_GET_WORD | REB_LIT_WORD
| REB_REFINEMENT | REB_ISSUE.

(** ** c-error.c: the trap stack *)

Module Trap.

(** Addresses of call chunks, series nodes and guarded cells. *)
Definition addr := nat.
Definition NULL : addr := 0%nat.

(** The one thing the trap code reads in an error frame is its number. *)
Record ERROR_FRAME := { ERR_NUM : Z }.

(** A series that is used as a stack of pointers: the guard stacks.  The
    entries at and above [tail] are stale. *)
Record REBSER := { tail : nat; data : list addr }.

(** [struct Reb_State]: what [Push_Trap_Helper] writes. *)
#[local] Unset Elimination Schemes.
Inductive REBOL_STATE := Build_STATE {
  dsp : Z;
  dsf : addr;
  series_guard_tail : nat;
  value_guard_tail : nat;
  gc_disable : Z;
  manuals_tail : nat;
  error_frame : option ERROR_FRAME;
  last_state : option REBOL_STATE }.
#[local] Set Elimination Schemes.

(** The task globals that the trap code touches.  The call stack is the
    chain of chunks reached from [CS_Top] through [prior]: [CS] lists it
    from the top, so the prior of an entry is the next one and the prior of
    the last one is [NULL].  [GC_Manuals] holds the entries below its
    tail.  [series_pool] is the set of series nodes that are allocated. *)
Record Task := {
  DSP : Z;
  DSF : addr;
  CS : list addr;
  GC_Series_Guard : REBSER;
  GC_Value_Guard : REBSER;
  GC_Disabled : Z;
  GC_Manuals : list addr;
  series_pool : list addr;
  Saved_State : option REBOL_STATE;
  TASK_THROWN_ARG : option Z }.

Definition CS_Top (t : Task) : addr := hd NULL (CS t).

Definition set_tail (n : nat) (s : REBSER) : REBSER :=
  {| tail := n; data := data s |}.

Definition with_error_frame (f : ERROR_FRAME) (s : REBOL_STATE) : REBOL_STATE :=
  Build_STATE (dsp s) (dsf s) (series_guard_tail s) (value_guard_tail s)
    (gc_disable s) (manuals_tail s) (Some f) (last_state s).

(** *** Push_Trap_Helper (c-error.c:36) *)
Definition Push_Trap_Helper (t : Task) : Task :=
  let s :=
    {| dsp := DSP t;
       dsf := DSF t;
       series_guard_tail := tail (GC_Series_Guard t);
       value_guard_tail := tail (GC_Value_Guard t);
       gc_disable := GC_Disabled t;
       manuals_tail := length (GC_Manuals t);
       last_state := Saved_State t;
       error_frame := None |} in
  {| DSP := DSP t; DSF := DSF t; CS := CS t;
     GC_Series_Guard := GC_Series_Guard t;
     GC_Value_Guard := GC_Value_Guard t;
     GC_Disabled := GC_Disabled t;
     GC_Manuals := GC_Manuals t;
     series_pool := series_pool t;
     Saved_State := Some s;
     TASK_THROWN_ARG := TASK_THROWN_ARG t |}.

(** *** Fail_Core (c-error.c:171)

    With no saved state the routine panics; otherwise it stores the frame
    in the innermost state, trashes the thrown argument and jumps. *)
Inductive jump :=
| PANIC (f : ERROR_FRAME)
| LONG_JUMP (t : Task).

Definition Fail_Core (frame : ERROR_FRAME) (t : Task) : jump :=
  match Saved_State t with
  | None => PANIC frame
  | Some s =>
      LONG_JUMP
        {| DSP := DSP t; DSF := DSF t; CS := CS t;
           GC_Series_Guard := GC_Series_Guard t;
           GC_Value_Guard := GC_Value_Guard t;
           GC_Disabled := GC_Disabled t;
           GC_Manuals := GC_Manuals t;
           series_pool := series_pool t;
           Saved_State := Some (with_error_frame frame s);
           TASK_THROWN_ARG := None |}
  end.

(** Modelled from the spec: [Free_Series] (the series allocator is not
    among the sources).  A manual series "must be explicitly freed", and the
    caller's comment says that "freeing the series will update the tail":
    the node leaves [GC_Manuals], the last entry taking its place when it is
    not the last one itself, and goes back to the allocator. *)
Definition Free_Series (s : addr) (t : Task) : Task :=
  let m := GC_Manuals t in
  let m' :=
    match last m with
    | Some l =>
        if decide (l = s) then removelast m
        else removelast (map (fun x => if decide (x = s) then l else x) m)
    | None => m
    end in
  {| DSP := DSP t; DSF := DSF t; CS := CS t;
     GC_Series_Guard := GC_Series_Guard t;
     GC_Value_Guard := GC_Value_Guard t;
     GC_Disabled := GC_Disabled t;
     GC_Manuals := m';
     series_pool := filter (fun x => x <> s) (series_pool t);
     Saved_State := Saved_State t;
     TASK_THROWN_ARG := TASK_THROWN_ARG t |}.

(** The loop of c-error.c:108: free the last manual series until the tail
    is the saved one.  Every round lowers the tail by one, and with an empty
    list the C code would index [data] at -1: the tail bounds the number
    of rounds. *)
Fixpoint free_manuals (rounds : nat) (target : nat) (t : Task) : option Task :=
  if decide (length (GC_Manuals t) = target) then Some t
  else
    match rounds with
    | O => None
    | S k =>
        match last (GC_Manuals t) with
        | None => None
        | Some s => free_manuals k target (Free_Series s t)
        end
    end.

(** The loop of c-error.c:95.  [call] starts as [CS_Top]; a chunk that is
    not the saved frame is freed ([Free_Call] makes its prior the top) and
    the walk goes on with its prior.  Running off the chain with a saved
    frame that is not [NULL] would read the prior of [NULL]. *)
Fixpoint free_calls (target : addr) (cs : list addr) : option (list addr) :=
  match cs with
  | [] => if decide (NULL = target) then Some [] else None
  | call :: prior =>
      if decide (call = target) then Some cs else free_calls target prior
  end.

Section Halt.

(** The number of the halt error comes from the generated error table. *)
Variable RE_HALT : Z.

(** *** Trapped_Helper_Halted (c-error.c:64)

    [DS_DROP_TO] (a macro of the data stack header) brings [DSP] back to
    its argument. *)
Definition Trapped_Helper_Halted (state : REBOL_STATE) (t : Task)
  : option (bool * Task) :=
  match error_frame state with
  | None => None
  | Some frame =>
      let halted := Z.eqb (ERR_NUM frame) RE_HALT in
      match free_calls (dsf state) (CS t) with
      | None => None
      | Some cs =>
          let t1 :=
            {| DSP := dsp state; DSF := dsf state; CS := cs;
               GC_Series_Guard := GC_Series_Guard t;
               GC_Value_Guard := GC_Value_Guard t;
               GC_Disabled := GC_Disabled t;
               GC_Manuals := GC_Manuals t;
               series_pool := series_pool t;
               Saved_State := Saved_State t;
               TASK_THROWN_ARG := TASK_THROWN_ARG t |} in
          match free_manuals (length (GC_Manuals t1)) (manuals_tail state) t1 with
          | None => None
          | Some t2 =>
              Some (halted,
                {| DSP := DSP t2; DSF := DSF t2; CS := CS t2;
                   GC_Series_Guard :=
                     set_tail (series_guard_tail state) (GC_Series_Guard t2);
                   GC_Value_Guard :=
                     set_tail (value_guard_tail state) (GC_Value_Guard t2);
                   GC_Disabled := gc_disable state;
                   GC_Manuals := GC_Manuals t2;
                   series_pool := series_pool t2;
                   Saved_State := last_state state;
                   TASK_THROWN_ARG := TASK_THROWN_ARG t2 |})
          end
      end
  end.

(** A [fail] under a trap: [Fail_Core] jumps to the setjmp of the innermost
    saved state, whose scope runs [Trapped_Helper_Halted] on that state. *)
Definition fail (frame : ERROR_FRAME) (t : Task) : option (bool * Task) :=
  match Fail_Core frame t with
  | PANIC _ => None
  | LONG_JUMP t' =>
      match Saved_State t' with
      | None => None
      | Some s => Trapped_Helper_Halted s t'
      end
  end.

End Halt.

(** *** Stack_Depth (c-error.c:268): the frames from [DSF] down. *)
Fixpoint frames_from (call : addr) (cs : list addr) : list addr :=
  match cs with
  | [] => []
  | c :: prior => if decide (c = call) then cs else frames_from call prior
  end.

Definition Stack_Depth (t : Task) : nat :=
  if decide (DSF t = NULL) then 0%nat else length (frames_from (DSF t) (CS t)).

(** *** What runs between the push and the failure

    Modelled from the spec: the allocation of a manual series, the push of
    a call frame and the guard pushes (their routines are not among the
    sources).  The allocator hands out a node that is not in use, which an
    operation carries as its argument; a push of a call frame may make the
    new frame the running one. *)
Inductive op :=
| Make_Series (s : addr)
| Make_Call (c : addr) (running : bool)
| PUSH_GUARD_SERIES (s : addr)
| PUSH_GUARD_VALUE (v : addr)
| DS_PUSH.

Definition push_guard (x : addr) (g : REBSER) : REBSER :=
  {| tail := S (tail g); data := take (tail g) (data g) ++ [x] |}.

Definition step (o : op) (t : Task) : option Task :=
  match o with
  | Make_Series s =>
      if decide (s ∈ series_pool t) then None
      else Some
        {| DSP := DSP t; DSF := DSF t; CS := CS t;
           GC_Series_Guard := GC_Series_Guard t;
           GC_Value_Guard := GC_Value_Guard t;
           GC_Disabled := GC_Disabled t;
           GC_Manuals := GC_Manuals t ++ [s];
           series_pool := s :: series_pool t;
           Saved_State := Saved_State t;
           TASK_THROWN_ARG := TASK_THROWN_ARG t |}
  | Make_Call c running =>
      if decide (c = NULL ∨ c ∈ CS t) then None
      else Some
        {| DSP := DSP t; DSF := if running then c else DSF t; CS := c :: CS t;
           GC_Series_Guard := GC_Series_Guard t;
           GC_Value_Guard := GC_Value_Guard t;
           GC_Disabled := GC_Disabled t;
           GC_Manuals := GC_Manuals t;
           series_pool := series_pool t;
           Saved_State := Saved_State t;
           TASK_THROWN_ARG := TASK_THROWN_ARG t |}
  | PUSH_GUARD_SERIES s =>
      Some
        {| DSP := DSP t; DSF := DSF t; CS := CS t;
           GC_Series_Guard := push_guard s (GC_Series_Guard t);
           GC_Value_Guard := GC_Value_Guard t;
           GC_Disabled := GC_Disabled t;
           GC_Manuals := GC_Manuals t;
           series_pool := series_pool t;
           Saved_State := Saved_State t;
           TASK_THROWN_ARG := TASK_THROWN_ARG t |}
  | PUSH_GUARD_VALUE v =>
      Some
        {| DSP := DSP t; DSF := DSF t; CS := CS t;
           GC_Series_Guard := GC_Series_Guard t;
           GC_Value_Guard := push_guard v (GC_Value_Guard t);
           GC_Disabled := GC_Disabled t;
           GC_Manuals := GC_Manuals t;
           series_pool := series_pool t;
           Saved_State := Saved_State t;
           TASK_THROWN_ARG := TASK_THROWN_ARG t |}
  | DS_PUSH =>
      Some
        {| DSP := DSP t + 1; DSF := DSF t; CS := CS t;
           GC_Series_Guard := GC_Series_Guard t;
           GC_Value_Guard := GC_Value_Guard t;
           GC_Disabled := GC_Disabled t;
           GC_Manuals := GC_Manuals t;
           series_pool := series_pool t;
           Saved_State := Saved_State t;
           TASK_THROWN_ARG := TASK_THROWN_ARG t |}
  end.

Fixpoint run (ops : list op) (t : Task) : option Task :=
  match ops with
  | [] => Some t
  | o :: rest =>
      match step o t with
      | None => None
      | Some t' => run rest t'
      end
  end.

(** The series and the call frames that a run allocates. *)
Definition made_series (ops : list op) : list addr :=
  omap (fun o => match o with Make_Series s => Some s | _ => None end) ops.

Definition made_calls (ops : list op) : list addr :=
  omap (fun o => match o with Make_Call c _ => Some c | _ => None end) ops.

(** The running frame is [NULL] or on the call stack, no chunk of the
    stack is at [NULL], and the manual series are allocated ones. *)
Record stack_ok (t : Task) : Prop := {
  dsf_on_stack : DSF t = NULL ∨ DSF t ∈ CS t;
  null_not_on_stack : NULL ∉ CS t;
  manuals_in_pool : ∀ s, s ∈ GC_Manuals t → s ∈ series_pool t }.

(** A task in the middle of a call, and the run of scenario E with a call
    and two guards on top: three manual series are made under the trap. *)
Definition busy_task : Task :=
  {| DSP := 4; DSF := 7%nat; CS := [7; 3]%nat;
     GC_Series_Guard := {| tail := 1; data := [10]%nat |};
     GC_Value_Guard := {| tail := 0; data := [] |};
     GC_Disabled := 0;
     GC_Manuals := [10]%nat;
     series_pool := [10; 11]%nat;
     Saved_State := None;
     TASK_THROWN_ARG := None |}.

Definition scenario_E : list op :=
  [Make_Series 20; Make_Call 8 true; Make_Series 21; PUSH_GUARD_SERIES 21;
   DS_PUSH; Make_Series 22; PUSH_GUARD_VALUE 5]%nat.

Definition before_fail : Task :=
  default busy_task (run scenario_E (Push_Trap_Helper busy_task)).

(** The task after the trapped jump of error 300 (1 being the number of
    the halt), and a second trap that is pushed on top of the run, with a
    run and the failure of its own. *)
Definition after_fail : Task :=
  match fail 1 {| ERR_NUM := 300 |} before_fail with
  | Some (_, t) => t
  | None => busy_task
  end.

Definition inner_ops : list op :=
  [Make_Call 9 false; Make_Series 30; PUSH_GUARD_VALUE 6; Make_Call 12 true]%nat.

Definition before_inner_fail : Task :=
  default busy_task (run inner_ops (Push_Trap_Helper before_fail)).

Definition after_inner_fail : Task :=
  match fail 1 {| ERR_NUM := 1 |} before_inner_fail with
  | Some (_, t) => t
  | None => busy_task
  end.

End Trap.

(** ** c-error.c: error objects *)

Module Errors.

(** A value cell that is not marked as thrown: the kind with the member of
    the payload union that goes with it.  [OTHER k] stands for a cell of any
    other datatype, [k] being its kind number.  A frame is the pair of a
    keylist (what matters of a key is its symbol) and a list of values, slot
    0 being the reserved one. *)
#[local] Unset Elimination Schemes.
Inductive REBVAL :=
| END
| UNSET
| NONE
| INTEGER (i : Z)
| STRING (s : string)
| BLOCK (items : list REBVAL)
| ANY_WORD (k : word_kind) (sym : REBSYM)
| OBJECT (frame : REBSER)
| ERROR (frame : REBSER)
| OTHER (k : nat)
with REBSER :=
| Frame (keylist : list REBSYM) (values : list REBVAL).
#[local] Set Elimination Schemes.

Definition WORD (sym : REBSYM) : REBVAL := ANY_WORD REB_WORD sym.

Definition FRM_KEYLIST (f : REBSER) : list REBSYM :=
  match f with Frame k _ => k end.

Definition FRM_VALUES (f : REBSER) : list REBVAL :=
  match f with Frame _ v => v end.

Definition SERIES_TAIL (f : REBSER) : Z := Z.of_nat (length (FRM_VALUES f)).

(** A read at the tail finds the terminator. *)
Definition FRM_VALUE (f : REBSER) (n : nat) : REBVAL := nth n (FRM_VALUES f) END.

Definition FRM_KEY (f : REBSER) (n : nat) : REBSYM := nth n (FRM_KEYLIST f) 0%nat.

Definition set_value (n : nat) (v : REBVAL) (f : REBSER) : REBSER :=
  Frame (FRM_KEYLIST f) (<[n := v]> (FRM_VALUES f)).

Definition IS_NONE (v : REBVAL) : bool := match v with NONE => true | _ => false end.
Definition IS_UNSET (v : REBVAL) : bool := match v with UNSET => true | _ => false end.
Definition IS_INTEGER (v : REBVAL) : bool := match v with INTEGER _ => true | _ => false end.
Definition IS_STRING (v : REBVAL) : bool := match v with STRING _ => true | _ => false end.
Definition IS_BLOCK (v : REBVAL) : bool := match v with BLOCK _ => true | _ => false end.
Definition IS_OBJECT (v : REBVAL) : bool := match v with OBJECT _ => true | _ => false end.
Definition IS_ERROR (v : REBVAL) : bool := match v with ERROR _ => true | _ => false end.
Definition IS_WORD (v : REBVAL) : bool :=
  match v with ANY_WORD REB_WORD _ => true | _ => false end.

(** The fields of [ERROR_OBJ], the struct that [ERR_VALUES] lays over the
    values of an error frame. *)
Definition ERR_CODE : nat := 1.
Definition ERR_TYPE : nat := 2.
Definition ERR_ID : nat := 3.
Definition ERR_MESSAGE : nat := 4.

(** The user error number, "RE_USER (1000)" in the source. *)
Definition RE_USER : Z := 1000.

(** What the C code is compiled against and booted with: the error catalog
    and the error template of the system object, the generated numbers and
    symbols, the symbol comparison, what a read of the payload through
    another member of the union yields, and the evaluator. *)
Inductive do_result :=
| DO_DONE (out : REBVAL) (frame : REBSER)
| DO_THROWN (out : REBVAL)
| DO_FAILED (error : REBSER).

Class Boot := {
  categories : REBSER;
  ROOT_ERROBJ : REBSER;
  RE_INVALID_ERROR : Z;
  SYM_TYPE : REBSYM;
  SAME_SYM : REBSYM -> REBSYM -> bool;
  union_sym : REBVAL -> REBSYM;
  union_int32 : REBVAL -> Z;
  Make_Object : REBSER -> list REBVAL -> REBSER;
  DO_ARRAY_THROWS : REBSER -> REBVAL -> do_result }.

Section WithBoot.
Context `{B : Boot}.

(** [VAL_INT32]: the integer of the cell as an [int]; a 64-bit integer is
    cut to its low 32 bits. *)
Definition VAL_INT32 (v : REBVAL) : Z :=
  match v with
  | INTEGER i => REBINT_of i
  | _ => union_int32 v
  end.

Definition VAL_WORD_SYM (v : REBVAL) : REBSYM :=
  match v with
  | ANY_WORD _ sym => sym
  | _ => union_sym v
  end.

(** *** Find_Error_For_Code (c-error.c:310)

    The result is the message pointer with the two output cells as the call
    leaves them. *)
Definition Find_Error_For_Code (id_out type_out : REBVAL) (code : Z)
  : option REBVAL * REBVAL * REBVAL :=
  let not_found := (None, id_out, type_out) in
  let n := code / 100 in
  if REBCNT_of (n + 1) >? SERIES_TAIL categories then not_found
  else
    match FRM_VALUE categories (Z.to_nat (n + 1)) with
    | OBJECT category =>
        let n := code mod 100 in
        if REBCNT_of (n + 3) >? SERIES_TAIL category then not_found
        else if negb (IS_INTEGER (FRM_VALUE category 1)) then not_found
        else if negb (IS_STRING (FRM_VALUE category 2)) then not_found
        else
          let message := FRM_VALUE category (Z.to_nat (n + 3)) in
          (Some message,
           WORD (FRM_KEY category (Z.to_nat (code mod 100 + 3))),
           WORD (FRM_KEY categories (Z.to_nat (code / 100 + 1))))
    | _ => not_found
    end.


(** Modelled from the spec: [Find_Word_Index] and [Find_Word_Value] (the
    frame routines are not among the sources), the "linear lookup by symbol
    against the keylist" that skips slot 0; the index is 0 and the value
    NULL when no key has the symbol. *)
Fixpoint find_key (sym : REBSYM) (keys : list REBSYM) (n : nat) : nat :=
  match keys with
  | [] => 0
  | k :: rest => if SAME_SYM k sym then n else find_key sym rest (S n)
  end.

Definition Find_Word_Index (f : REBSER) (sym : REBSYM) : nat :=
  find_key sym (tl (FRM_KEYLIST f)) 1.

Definition Find_Word_Value (f : REBSER) (sym : REBSYM) : option REBVAL :=
  match Find_Word_Index f sym with
  | O => None
  | n => Some (FRM_VALUE f n)
  end.

(** Modelled from the spec: [Merge_Frames], which "unions base and overlay
    fields; overlay's values win on symbol collision; the merged frame's
    self-slot is freshly assigned".  The fresh slot 0 is a frame cell. *)
Definition REB_FRAME : nat := 0.

Definition merged_value (overlay : REBSER) (key : REBSYM) (v : REBVAL) : REBVAL :=
  match Find_Word_Value overlay key with
  | Some w => w
  | None => v
  end.

Fixpoint merge_base (overlay : REBSER) (keys : list REBSYM) (vals : list REBVAL)
  : list REBVAL :=
  match keys, vals with
  | k :: keys', v :: vals' => merged_value overlay k v :: merge_base overlay keys' vals'
  | _, _ => []
  end.

Fixpoint merge_new (base : REBSER) (keys : list REBSYM) (vals : list REBVAL)
  : list (REBSYM * REBVAL) :=
  match keys, vals with
  | k :: keys', v :: vals' =>
      match Find_Word_Index base k with
      | O => (k, v) :: merge_new base keys' vals'
      | _ => merge_new base keys' vals'
      end
  | _, _ => []
  end.

Definition Merge_Frames (base overlay : REBSER) : REBSER :=
  let added := merge_new base (tl (FRM_KEYLIST overlay)) (tl (FRM_VALUES overlay)) in
  Frame
    (FRM_KEY base 0 :: tl (FRM_KEYLIST base) ++ map fst added)
    (OTHER REB_FRAME
       :: merge_base overlay (tl (FRM_KEYLIST base)) (tl (FRM_VALUES base))
       ++ map snd added).

(** How a call of the routine ends: with TRUE or FALSE and the output cell,
    or in a [fail], of [Error(num, arg)] or of an error that the evaluation
    of the block raised. *)
Inductive failure :=
| Error (num : Z) (arg : REBVAL)
| Raised (error : REBSER).

Inductive outcome :=
| Returns_TRUE (out : REBVAL)
| Returns_FALSE (out : REBVAL)
| Fails (f : failure).

(** Lines 573-729: the reconciliation of code, type, id and message.  The
    code that line 667 fills in is a sum of [REBCNT]s. *)
Definition reconcile (arg : REBVAL) (frame : REBSER) : failure + REBSER :=
  let invalid : failure + REBSER := inl (Error RE_INVALID_ERROR arg) in
  let code := FRM_VALUE frame ERR_CODE in
  if IS_INTEGER code then
    if VAL_INT32 code <? RE_USER then
      if negb (IS_NONE (FRM_VALUE frame ERR_MESSAGE)) then invalid
      else
        match Find_Error_For_Code END END (REBCNT_of (VAL_INT32 code)) with
        | (None, _, _) => invalid
        | (Some message, id, type) =>
            let frame := set_value ERR_MESSAGE message frame in
            if negb (IS_NONE (FRM_VALUE frame ERR_ID))
               && (negb (IS_WORD (FRM_VALUE frame ERR_ID))
                   || negb (SAME_SYM (VAL_WORD_SYM (FRM_VALUE frame ERR_ID))
                                     (VAL_WORD_SYM id)))
            then invalid
            else
              let frame := set_value ERR_ID id frame in
              if negb (IS_NONE (FRM_VALUE frame ERR_TYPE))
                 && (negb (IS_WORD (FRM_VALUE frame ERR_ID))
                     || negb (SAME_SYM (VAL_WORD_SYM (FRM_VALUE frame ERR_TYPE))
                                       (VAL_WORD_SYM type)))
              then invalid
              else inr (set_value ERR_TYPE type frame)
        end
    else inr frame
  else if IS_WORD (FRM_VALUE frame ERR_TYPE) && IS_WORD (FRM_VALUE frame ERR_ID) then
    match Find_Word_Value categories (VAL_WORD_SYM (FRM_VALUE frame ERR_TYPE)) with
    | Some category =>
        let cat_frame :=
          match category with
          | OBJECT f | ERROR f => f
          | _ => Frame [] []
          end in
        let code := REBCNT_of (VAL_INT32 (FRM_VALUE cat_frame 1)) in
        match Find_Word_Value cat_frame (VAL_WORD_SYM (FRM_VALUE frame ERR_ID)) with
        | Some message =>
            if negb (IS_NONE (FRM_VALUE frame ERR_MESSAGE)) then invalid
            else
              let frame := set_value ERR_MESSAGE message frame in
              inr (set_value ERR_CODE
                     (INTEGER
                        (REBCNT_of
                           (code
                            + Z.of_nat (Find_Word_Index frame
                                          (VAL_WORD_SYM (FRM_VALUE frame ERR_ID)))
                            - Z.of_nat (Find_Word_Index frame SYM_TYPE)
                            - 1)))
                     frame)
        | None => invalid
        end
    | None => inr (set_value ERR_CODE (INTEGER RE_USER) frame)
    end
  else
    let checked : failure + REBSER :=
      if IS_NONE code then inr (set_value ERR_CODE (INTEGER RE_USER) frame)
      else if IS_INTEGER code then
        if negb (VAL_INT32 code =? RE_USER) then invalid else inr frame
      else invalid in
    match checked with
    | inl f => inl f
    | inr frame =>
        let id := FRM_VALUE frame ERR_ID in
        let type := FRM_VALUE frame ERR_TYPE in
        let message := FRM_VALUE frame ERR_MESSAGE in
        if negb (IS_WORD id || IS_NONE id)
           || negb (IS_WORD type || IS_NONE type)
           || negb (IS_BLOCK message || IS_STRING message || IS_NONE message)
        then invalid
        else inr frame
    end.

(** [Val_Init_Error] and the return of line 741. *)
Definition finish (arg : REBVAL) (frame : REBSER) : outcome :=
  match reconcile arg frame with
  | inl f => Fails f
  | inr frame' => Returns_FALSE (ERROR frame')
  end.

(** *** Make_Error_Object_Throws (c-error.c:466)

    [Copy_Array_Shallow] and [Copy_Sequence_At_Position] give copies with
    the contents of their arguments. *)
Definition Make_Error_Object_Throws (arg : REBVAL) : outcome :=
  let root_frame := ROOT_ERROBJ in
  match arg with
  | ERROR f | OBJECT f => finish arg (Merge_Frames root_frame f)
  | BLOCK items =>
      let frame := Make_Object root_frame items in
      match DO_ARRAY_THROWS frame arg with
      | DO_THROWN evaluated => Returns_TRUE evaluated
      | DO_FAILED e => Fails (Raised e)
      | DO_DONE _ frame' => finish arg frame'
      end
  | STRING s => finish arg (set_value ERR_MESSAGE (STRING s) root_frame)
  | _ => Fails (Error RE_INVALID_ERROR arg)
  end.

(** *** Exit_Status_From_Value (c-error.c:1255)

    [VAL_ERR_NUM] is [VAL_INT32] of the code field of the error's frame. *)
Definition VAL_ERR_NUM (v : REBVAL) : Z :=
  match v with
  | ERROR f | OBJECT f => VAL_INT32 (FRM_VALUE f ERR_CODE)
  | _ => union_int32 v
  end.

Definition Exit_Status_From_Value (value : REBVAL) : Z :=
  if IS_INTEGER value then VAL_INT32 value
  else if IS_UNSET value || IS_NONE value then 0
  else if IS_ERROR value then VAL_ERR_NUM value
  else 1.

End WithBoot.

(** *** A booted system to run the routines on

    A catalog of the shape that [Find_Error_For_Code] reads (a frame of
    category objects, each with its code, its type string and its messages
    in order), the error template with the defaults that the comment of
    c-error.c:539 gives, symbols compared by number, and an evaluator that
    leaves the frame as it finds it. *)
Module Example.
Local Open Scope nat_scope.

Definition SYM_SELF : REBSYM := 1.
Definition SYM_CODE : REBSYM := 2.
Definition SYM_TYPE : REBSYM := 3.
Definition SYM_ID : REBSYM := 4.
Definition SYM_MESSAGE : REBSYM := 5.
Definition SYM_NEAR : REBSYM := 6.
Definition SYM_WHERE : REBSYM := 7.
Definition SYM_USER : REBSYM := 8.
Definition SYM_SPECIAL : REBSYM := 20.
Definition SYM_NULL : REBSYM := 21.
Definition SYM_HALT : REBSYM := 22.
Definition SYM_INTERNAL : REBSYM := 30.
Definition SYM_MISC : REBSYM := 31.
Definition SYM_SYNTAX : REBSYM := 40.
Definition SYM_INVALID : REBSYM := 41.
Definition SYM_SCRIPT : REBSYM := 50.
Definition SYM_NO_VALUE : REBSYM := 51.
Definition SYM_NEED_VALUE : REBSYM := 52.
Definition SYM_ARG1 : REBSYM := 60.

Definition category (sym : REBSYM) (code : Z) (type : string)
    (messages : list (REBSYM * REBVAL)) : REBVAL :=
  OBJECT
    (Frame (SYM_SELF :: SYM_CODE :: SYM_TYPE :: map fst messages)
           (OTHER REB_FRAME :: INTEGER code :: STRING type :: map snd messages)).

Definition errors : REBSER :=
  Frame [SYM_SELF; SYM_SPECIAL; SYM_INTERNAL; SYM_SYNTAX; SYM_SCRIPT]
    [OTHER REB_FRAME;
     category SYM_SPECIAL 0%Z "special"
       [(SYM_NULL, STRING "invalid error code zero");
        (SYM_HALT, BLOCK [STRING "halted by user or script"])];
     category SYM_INTERNAL 100%Z "internal"
       [(SYM_MISC, STRING "RE_MISC error (if actually happens, add to %errors.r)")];
     category SYM_SYNTAX 200%Z "syntax error"
       [(SYM_INVALID, BLOCK [STRING "invalid"; ANY_WORD REB_GET_WORD SYM_ARG1])];
     category SYM_SCRIPT 300%Z "script error"
       [(SYM_NO_VALUE, BLOCK [ANY_WORD REB_GET_WORD SYM_ARG1; STRING "has no value"]);
        (SYM_NEED_VALUE, BLOCK [ANY_WORD REB_GET_WORD SYM_ARG1; STRING "needs a value"])]].

Definition template : REBSER :=
  Frame [SYM_SELF; SYM_CODE; SYM_TYPE; SYM_ID; SYM_MESSAGE; SYM_NEAR; SYM_WHERE]
    [OTHER REB_FRAME; NONE; WORD SYM_USER; WORD SYM_MESSAGE; NONE; NONE; NONE].

#[export] Instance boot : Boot := {|
  categories := errors;
  ROOT_ERROBJ := template;
  RE_INVALID_ERROR := 329%Z;
  Errors.SYM_TYPE := SYM_TYPE;
  SAME_SYM := Nat.eqb;
  union_sym := fun _ => 0%nat;
  union_int32 := fun _ => 0%Z;
  Make_Object := fun root _ => root;
  DO_ARRAY_THROWS := fun frame _ => DO_DONE UNSET frame |}.

(** The same system with an evaluator that throws 7 out of every block. *)
Definition throwing : Boot := {|
  categories := errors;
  ROOT_ERROBJ := template;
  RE_INVALID_ERROR := 329%Z;
  Errors.SYM_TYPE := SYM_TYPE;
  SAME_SYM := Nat.eqb;
  union_sym := fun _ => 0%nat;
  union_int32 := fun _ => 0%Z;
  Make_Object := fun root _ => root;
  DO_ARRAY_THROWS := fun _ _ => DO_THROWN (INTEGER 7) |}.

(** The same system with an evaluator that does the assignments of a
    block of set-words and values to the fields of the frame, throws nothing
    and raises nothing. *)
Definition set_field (sym : REBSYM) (v : REBVAL) (frame : REBSER) : REBSER :=
  match list_find (fun key => key = sym) (FRM_KEYLIST frame) with
  | Some (n, _) => set_value n v frame
  | None => frame
  end.

Fixpoint assign_fields (frame : REBSER) (items : list REBVAL) : REBSER :=
  match items with
  | ANY_WORD REB_SET_WORD sym :: v :: rest => assign_fields (set_field sym v frame) rest
  | _ => frame
  end.

Definition assigning : Boot := {|
  categories := errors;
  ROOT_ERROBJ := template;
  RE_INVALID_ERROR := 329%Z;
  Errors.SYM_TYPE := SYM_TYPE;
  SAME_SYM := Nat.eqb;
  union_sym := fun _ => 0%nat;
  union_int32 := fun _ => 0%Z;
  Make_Object := fun root _ => root;
  DO_ARRAY_THROWS := fun frame arg =>
    match arg with
    | BLOCK items => DO_DONE UNSET (assign_fields frame items)
    | _ => DO_DONE UNSET frame
    end |}.

(** The block [code: 300 message: "mine"]. *)
Definition own_message : REBVAL :=
  BLOCK [ANY_WORD REB_SET_WORD SYM_CODE; INTEGER 300%Z;
         ANY_WORD REB_SET_WORD SYM_MESSAGE; STRING "mine"].

(** An object that claims error 300 with its id, and with a type that is
    not a word but the set-word [script:]; the same with the set-word in the
    id field instead. *)
Definition forged_type : REBVAL :=
  OBJECT
    (Frame [SYM_SELF; SYM_CODE; SYM_TYPE; SYM_ID]
       [OTHER REB_FRAME; INTEGER 300%Z; ANY_WORD REB_SET_WORD SYM_SCRIPT;
        WORD SYM_NO_VALUE]).

Definition forged_id : REBVAL :=
  OBJECT
    (Frame [SYM_SELF; SYM_CODE; SYM_TYPE; SYM_ID]
       [OTHER REB_FRAME; INTEGER 300%Z; WORD SYM_SCRIPT;
        ANY_WORD REB_SET_WORD SYM_NO_VALUE]).

End Example.

End Errors.

(** ** c-function.c: parameter lists and function values *)

Module Func.

(** The string datatypes that [ANY_BINSTR] accepts. *)
Inductive binstr_kind :=
| REB_BINARY | REB_STRING | REB_FILE | REB_EMAIL | REB_URL | REB_TAG.

(** The option bits of a typeset cell that the parameter scan sets. *)
Record typeset_exts := {
  EXT_TYPESET_EVALUATE : bool;
  EXT_TYPESET_QUOTE : bool;
  EXT_TYPESET_REFINEMENT : bool;
  EXT_TYPESET_HIDDEN : bool }.

Definition no_exts : typeset_exts := Build_typeset_exts false false false false.

(** The two datatypes that [Make_Function] makes. *)
Inductive func_kind := REB_FUNCTION | REB_CLOSURE.

(** Value cells.  A block is an array with an index; [TRASH] is the
    reserved head cell of a fresh keylist and [ANY_FUNCTION] the function
    cell that ends up there (it points back at the list it is stored in);
    [OTHER k] is a cell of any other datatype. *)
#[local] Unset Elimination Schemes.
Inductive REBVAL :=
| END
| TRASH
| ANY_FUNCTION (k : func_kind)
| ANY_BINSTR (k : binstr_kind) (s : string)
| BLOCK (array : list REBVAL) (index : nat)
| ANY_WORD (k : word_kind) (sym : REBSYM)
| TYPESET (sym : REBSYM) (bits : Z) (exts : typeset_exts)
| OTHER (k : nat).
#[local] Set Elimination Schemes.

Definition VAL_ARRAY_HEAD (v : REBVAL) : list REBVAL :=
  match v with BLOCK a _ => a | _ => [] end.

Definition VAL_ARRAY_AT (v : REBVAL) : list REBVAL :=
  match v with BLOCK a i => drop i a | _ => [] end.

Definition VAL_LEN_AT (v : REBVAL) : nat := length (VAL_ARRAY_AT v).

Definition IS_BLOCK (v : REBVAL) : bool := match v with BLOCK _ _ => true | _ => false end.

Definition VAL_TYPESET_SYM (v : REBVAL) : REBSYM :=
  match v with TYPESET sym _ _ => sym | _ => SYM_0 end.

Definition VAL_SET_EXT (set : typeset_exts -> typeset_exts) (v : REBVAL) : REBVAL :=
  match v with TYPESET sym bits e => TYPESET sym bits (set e) | _ => v end.

Definition set_EVALUATE (e : typeset_exts) : typeset_exts :=
  Build_typeset_exts true (EXT_TYPESET_QUOTE e) (EXT_TYPESET_REFINEMENT e) (EXT_TYPESET_HIDDEN e).
Definition set_QUOTE (e : typeset_exts) : typeset_exts :=
  Build_typeset_exts (EXT_TYPESET_EVALUATE e) true (EXT_TYPESET_REFINEMENT e) (EXT_TYPESET_HIDDEN e).
Definition set_REFINEMENT (e : typeset_exts) : typeset_exts :=
  Build_typeset_exts (EXT_TYPESET_EVALUATE e) (EXT_TYPESET_QUOTE e) true (EXT_TYPESET_HIDDEN e).
Definition set_HIDDEN (e : typeset_exts) : typeset_exts :=
  Build_typeset_exts (EXT_TYPESET_EVALUATE e) (EXT_TYPESET_QUOTE e) (EXT_TYPESET_REFINEMENT e) true.

Definition set_TYPESET_BITS (bits : Z) (v : REBVAL) : REBVAL :=
  match v with TYPESET sym _ e => TYPESET sym bits e | _ => v end.

Definition ALL_64 : Z := 2 ^ 64 - 1.

(** The parameters that a spec declares, in order: the kind and the symbol
    of every word of the array. *)
Definition spec_words (spec : list REBVAL) : list (word_kind * REBSYM) :=
  omap (fun v => match v with ANY_WORD k sym => Some (k, sym) | _ => None end) spec.

(** The class bits of a parameter that is declared by a word of each kind
    (an issue declares none). *)
Definition param_class (k : word_kind) : typeset_exts :=
  match k with
  | REB_WORD => set_EVALUATE no_exts
  | REB_GET_WORD => set_QUOTE no_exts
  | REB_LIT_WORD => set_EVALUATE (set_QUOTE no_exts)
  | REB_REFINEMENT => set_REFINEMENT no_exts
  | REB_SET_WORD => set_HIDDEN no_exts
  | REB_ISSUE => no_exts
  end.

(** What identifies the entry of a parameter in a list: the symbol and the
    class bits of the typeset. *)
Definition param_key (v : REBVAL) : option (REBSYM * typeset_exts) :=
  match v with TYPESET sym _ e => Some (sym, e) | _ => None end.

Definition declared_key (w : word_kind * REBSYM) : option (REBSYM * typeset_exts) :=
  Some (w.2, param_class w.1).

(** How the makers leave through [fail]. *)
Inductive failure :=
| Error_Bad_Func_Def (spec body : REBVAL)
| Error_RE_BAD_FUNC_DEF (item : REBVAL)
| Error_Duplicate (item : REBVAL)
| Error_Typeset (item : REBVAL).

(** What the file is compiled against and booted with: the canon form of
    a symbol, the symbols of the generated table, the bits of the two kinds
    that a refinement accepts, the conversion of a type block into typeset
    bits (which fails on what is not a type), the comparison of strings and
    the tags of the root block. *)
Class Boot := {
  SYMBOL_TO_CANON : REBSYM -> REBSYM;
  SYM_RETURN : REBSYM;
  SYM_CATCH : REBSYM;
  SYM_THROW : REBSYM;
  refinement_bits : Z;
  Make_Typeset : list REBVAL -> option Z;
  Compare_String_Vals : REBVAL -> REBVAL -> bool -> Z;
  ROOT_TRANSPARENT_TAG : REBVAL;
  ROOT_INFIX_TAG : REBVAL;
  ROOT_LOCAL_TAG : REBVAL }.

Section WithBoot.
Context `{B : Boot}.

Definition SAME_SYM (s1 s2 : REBSYM) : bool :=
  bool_decide (s1 = s2) || bool_decide (SYMBOL_TO_CANON s1 = SYMBOL_TO_CANON s2).

Definition VAL_TYPESET_CANON (v : REBVAL) : REBSYM :=
  SYMBOL_TO_CANON (VAL_TYPESET_SYM v).

(** The key that the collector makes for a word: a typeset of all types
    under the symbol of the word. *)
Definition key_cell (w : word_kind * REBSYM) : REBVAL := TYPESET w.2 ALL_64 no_exts.

(** Modelled from the spec: [Collect_Keylist_Managed] (the binding
    collector is not among the sources), which "builds a deduplicated
    symbol-tagged keylist from a list of word-bearing elements" and "fails
    on duplicate symbols if the dup policy forbids them".  With [BIND_ALL]
    every word of the array itself gets a key, a typeset of all types under
    the word's symbol, and with [BIND_NO_DUP] a second word of the same
    canon symbol is the failure. *)
Fixpoint collect_keys (seen : list REBSYM) (items : list REBVAL)
  : failure + list REBVAL :=
  match items with
  | [] => inr []
  | ANY_WORD k sym :: rest =>
      if bool_decide (SYMBOL_TO_CANON sym ∈ seen) then inl (Error_Duplicate (ANY_WORD k sym))
      else
        match collect_keys (SYMBOL_TO_CANON sym :: seen) rest with
        | inl f => inl f
        | inr keys => inr (key_cell (k, sym) :: keys)
        end
  | _ :: rest => collect_keys seen rest
  end.

Definition Collect_Keylist_Managed (items : list REBVAL) : failure + list REBVAL :=
  match collect_keys [] items with
  | inl f => inl f
  | inr keys => inr (TRASH :: keys)
  end.

(** The state of the scan of [Make_Paramlist_Managed]: the parameter list,
    the index that the [typeset] pointer is at, and the [bubble] cell. *)
Record scan := {
  paramlist : list REBVAL;
  typeset : nat;
  bubble : REBVAL }.

Definition at_typeset (s : scan) : REBVAL := nth (typeset s) (paramlist s) END.

Definition NOT_END (v : REBVAL) : bool := match v with END => false | _ => true end.

(** The legacy block before the first parameter: only the words [catch]
    and [throw] pass. *)
Definition attribute_ok (attribute : REBVAL) : bool :=
  match attribute with
  | ANY_WORD REB_WORD sym =>
      bool_decide (sym = SYM_CATCH) || bool_decide (sym = SYM_THROW)
  | _ => false
  end.

(** One round of the loop of c-function.c:167. *)
Definition scan_item (opt_sym_last : REBSYM) (item : REBVAL) (s : scan)
  : failure + scan :=
  match item with
  | ANY_BINSTR _ _ => inr s
  | BLOCK _ _ =>
      if negb (bool_decide (typeset s = 0%nat)) then
        match Make_Typeset (VAL_ARRAY_HEAD item) with
        | None => inl (Error_Typeset item)
        | Some bits =>
            inr {| paramlist := alter (set_TYPESET_BITS bits) (typeset s) (paramlist s);
                   typeset := typeset s;
                   bubble := bubble s |}
        end
      else if forallb attribute_ok (VAL_ARRAY_AT item) then inr s
      else inl (Error_RE_BAD_FUNC_DEF item)
  | ANY_WORD k _ =>
      let typeset := S (typeset s) in
      let flagged : failure + list REBVAL :=
        match k with
        | REB_WORD =>
            inr (alter (VAL_SET_EXT set_EVALUATE) typeset (paramlist s))
        | REB_GET_WORD =>
            inr (alter (VAL_SET_EXT set_QUOTE) typeset (paramlist s))
        | REB_LIT_WORD =>
            inr (alter (VAL_SET_EXT set_EVALUATE) typeset
                   (alter (VAL_SET_EXT set_QUOTE) typeset (paramlist s)))
        | REB_REFINEMENT =>
            inr (alter (set_TYPESET_BITS refinement_bits) typeset
                   (alter (VAL_SET_EXT set_REFINEMENT) typeset (paramlist s)))
        | REB_SET_WORD =>
            inr (alter (VAL_SET_EXT set_HIDDEN) typeset (paramlist s))
        | REB_ISSUE => inl (Error_RE_BAD_FUNC_DEF item)
        end in
      match flagged with
      | inl f => inl f
      | inr params =>
          let cell := nth typeset params END in
          if bool_decide (VAL_TYPESET_CANON cell = opt_sym_last) then
            inr {| paramlist := params; typeset := typeset; bubble := cell |}
          else if NOT_END (bubble s) then
            inr {| paramlist := <[(typeset - 1)%nat := cell]> params;
                   typeset := typeset;
                   bubble := bubble s |}
          else inr {| paramlist := params; typeset := typeset; bubble := bubble s |}
      end
  | _ => inl (Error_RE_BAD_FUNC_DEF item)
  end.

Fixpoint scan_spec (opt_sym_last : REBSYM) (items : list REBVAL) (s : scan)
  : failure + scan :=
  match items with
  | [] => inr s
  | item :: rest =>
      match scan_item opt_sym_last item s with
      | inl f => inl f
      | inr s' => scan_spec opt_sym_last rest s'
      end
  end.

(** *** Make_Paramlist_Managed (c-function.c:131) *)
Definition Make_Paramlist_Managed (spec : list REBVAL) (opt_sym_last : REBSYM)
  : failure + list REBVAL :=
  match Collect_Keylist_Managed spec with
  | inl f => inl f
  | inr keylist =>
      match scan_spec opt_sym_last spec
              {| paramlist := keylist; typeset := 0; bubble := END |} with
      | inl f => inl f
      | inr s =>
          if negb (bool_decide (opt_sym_last = SYM_0)) then
            inr (<[typeset s := bubble s]> (paramlist s))
          else inr (paramlist s)
      end
  end.

(** The state of the scan after the words [pre], with the words [rest] to
    come: either nothing is held in the bubble and the entries of [pre] are
    in place, or the bubble holds the entry of the requested word and the
    entries of the other words have closed the gap, one stale slot being
    left in front of the keys that are still untouched. *)
Inductive scanned (opt : REBSYM) (pre rest : list (word_kind * REBSYM))
    (s : scan) : Prop :=
| scanned_plain h P :
    bubble s = END →
    typeset s = length P →
    paramlist s = h :: P ++ (key_cell <$> rest) →
    param_key <$> P = declared_key <$> pre →
    (∀ w, w ∈ pre → SYMBOL_TO_CANON w.2 ≠ opt) →
    scanned opt pre rest s
| scanned_bubbled h P x before b after :
    pre = before ++ b :: after →
    SYMBOL_TO_CANON b.2 = opt →
    param_key (bubble s) = declared_key b →
    typeset s = S (length P) →
    paramlist s = h :: P ++ x :: (key_cell <$> rest) →
    param_key <$> P = declared_key <$> (before ++ after) →
    scanned opt pre rest s.

(** The function cell that [Make_Function] writes to [out]. *)
Record function := {
  VAL_TYPE : func_kind;
  VAL_FUNC_SPEC : list REBVAL;
  VAL_FUNC_PARAMLIST : list REBVAL;
  VAL_FUNC_BODY : list REBVAL;
  EXT_FUNC_INFIX : bool;
  EXT_FUNC_HAS_RETURN : bool }.

Definition VAL_WORD_SYM (v : REBVAL) : REBSYM :=
  match v with ANY_WORD _ sym => sym | _ => SYM_0 end.

Definition ROOT_RETURN_SET_WORD : REBVAL := ANY_WORD REB_SET_WORD SYM_RETURN.
Definition ROOT_RETURN_BLOCK : list REBVAL := [ROOT_RETURN_SET_WORD].
Definition EMPTY_ARRAY : list REBVAL := [].

(** [Copy_Array_At_Deep_Managed]: a copy of the array from the index on. *)
Definition Copy_Array_At_Deep_Managed (array : list REBVAL) (index : nat)
  : list REBVAL := drop index array.

(** The locals of the scan of the spec by the generators FUNC and CLOS
    (c-function.c:561), with the spec of [out] once it has been assigned. *)
Record generator := {
  out_spec : option (list REBVAL);
  has_return : bool;
  convert_local : bool;
  func_infix : bool }.

(** The loop of c-function.c:565 over the array of the spec, from its head.
    [done] holds the items before [item], last first: the loop writes to the
    items of the caller's array ([VAL_SET_TYPE_BITS]), and a copy that is
    taken in the middle of the scan sees the items as they are then. *)
Fixpoint scan_generator (spec_index : nat) (done rest : list REBVAL)
    (g : generator) : failure + (list REBVAL * generator) :=
  match rest with
  | [] => inr (rev done, g)
  | item :: rest' =>
      match item with
      | ANY_WORD REB_SET_WORD _ => scan_generator spec_index (item :: done) rest' g
      | ANY_BINSTR REB_TAG _ =>
          if Compare_String_Vals item ROOT_TRANSPARENT_TAG true =? 0 then
            scan_generator spec_index (item :: done) rest'
              {| out_spec :=
                   Some (Copy_Array_At_Deep_Managed (rev done ++ item :: rest') spec_index);
                 has_return := false;
                 convert_local := convert_local g;
                 func_infix := func_infix g |}
          else if Compare_String_Vals item ROOT_INFIX_TAG true =? 0 then
            scan_generator spec_index (item :: done) rest'
              {| out_spec := out_spec g; has_return := has_return g;
                 convert_local := convert_local g; func_infix := true |}
          else if Compare_String_Vals item ROOT_LOCAL_TAG true =? 0 then
            scan_generator spec_index (item :: done) rest'
              {| out_spec := out_spec g; has_return := has_return g;
                 convert_local := true; func_infix := func_infix g |}
          else inl (Error_RE_BAD_FUNC_DEF item)
      | ANY_WORD k sym =>
          let converted : failure + (REBVAL * bool) :=
            if convert_local g then
              match k with
              | REB_WORD => inr (ANY_WORD REB_SET_WORD sym, true)
              | REB_REFINEMENT => inr (item, false)
              | _ => inl (Error_RE_BAD_FUNC_DEF item)
              end
            else inr (item, false) in
          match converted with
          | inl f => inl f
          | inr (item', convert) =>
              if SAME_SYM (VAL_WORD_SYM item') SYM_RETURN then
                scan_generator spec_index (item' :: done) rest'
                  {| out_spec :=
                       Some (Copy_Array_At_Deep_Managed
                               (rev done ++ item' :: rest') spec_index);
                     has_return := false;
                     convert_local := convert;
                     func_infix := func_infix g |}
              else
                scan_generator spec_index (item' :: done) rest'
                  {| out_spec := out_spec g; has_return := has_return g;
                     convert_local := convert; func_infix := func_infix g |}
          end
      | _ => scan_generator spec_index (item :: done) rest' g
      end
  end.

(** Lines 538-734: the spec that the function gets, and whether it still
    has a definitional return. *)
Definition function_spec (spec : REBVAL) (has_return_arg : bool)
  : failure + (list REBVAL * generator) :=
  match spec with
  | BLOCK array index =>
      if negb has_return_arg then
        inr (if bool_decide (VAL_LEN_AT spec = 0%nat) then EMPTY_ARRAY
             else Copy_Array_At_Deep_Managed array index,
             {| out_spec := None; has_return := false;
                convert_local := false; func_infix := false |})
      else
        match scan_generator index [] array
                {| out_spec := None; has_return := true;
                   convert_local := false; func_infix := false |} with
        | inl f => inl f
        | inr (array', g) =>
            if has_return g then
              inr (if bool_decide (length array' = 0%nat) then ROOT_RETURN_BLOCK
                   else Copy_Array_At_Deep_Managed array' index ++ [ROOT_RETURN_SET_WORD],
                   g)
            else inr (default [] (out_spec g), g)
        end
  | _ => inr ([], {| out_spec := None; has_return := has_return_arg;
                     convert_local := false; func_infix := false |})
  end.

(** *** Make_Function (c-function.c:526)

    The relative binding of the body ([Bind_Relative_Deep]) changes no
    item of it. *)
Definition Make_Function (type : func_kind) (spec body : REBVAL)
    (has_return_arg : bool) : failure + function :=
  if negb (IS_BLOCK spec) || negb (IS_BLOCK body) then
    inl (Error_Bad_Func_Def spec body)
  else
    match function_spec spec has_return_arg with
    | inl f => inl f
    | inr (func_spec, g) =>
        match Make_Paramlist_Managed func_spec
                (if has_return g then SYM_RETURN else SYM_0) with
        | inl f => inl f
        | inr params =>
            inr {| VAL_TYPE := type;
                   VAL_FUNC_SPEC := func_spec;
                   VAL_FUNC_PARAMLIST := <[0%nat := ANY_FUNCTION type]> params;
                   VAL_FUNC_BODY :=
                     if bool_decide (VAL_LEN_AT body = 0%nat) then EMPTY_ARRAY
                     else Copy_Array_At_Deep_Managed (VAL_ARRAY_HEAD body)
                            (match body with BLOCK _ i => i | _ => 0%nat end);
                   EXT_FUNC_INFIX := func_infix g;
                   EXT_FUNC_HAS_RETURN := has_return g |}
        end
    end.

(** The items of a spec that make the generators give up the definitional
    return (c-function.c:589 and 692): the tag that compares equal to
    <transparent>, and a word of the symbol of [return] that is no set-word. *)
Definition cancels_return (item : REBVAL) : bool :=
  match item with
  | ANY_WORD REB_SET_WORD _ => false
  | ANY_BINSTR REB_TAG _ => Compare_String_Vals item ROOT_TRANSPARENT_TAG true =? 0
  | ANY_WORD _ sym => SAME_SYM sym SYM_RETURN
  | _ => false
  end.

(** The tag that sets [EXT_FUNC_INFIX] (c-function.c:622): it compares
    equal to <infix> and not to <transparent>. *)
Definition asks_infix (item : REBVAL) : bool :=
  match item with
  | ANY_BINSTR REB_TAG _ =>
      negb (Compare_String_Vals item ROOT_TRANSPARENT_TAG true =? 0)
      && (Compare_String_Vals item ROOT_INFIX_TAG true =? 0)
  | _ => false
  end.

End WithBoot.

(** The class bits of a cell ([VAL_GET_EXT]); the cells of a parameter list
    after slot 0 are typesets. *)
Definition VAL_EXTS (v : REBVAL) : typeset_exts :=
  match v with TYPESET _ _ e => e | _ => no_exts end.

(** The kind of the word that [List_Func_Words] makes for a typeset
    (c-function.c:74-87); the assert of the last case is no code in the
    release build. *)
Definition listed_kind (e : typeset_exts) : word_kind :=
  if EXT_TYPESET_REFINEMENT e then REB_REFINEMENT
  else if EXT_TYPESET_QUOTE e then
    if EXT_TYPESET_EVALUATE e then REB_LIT_WORD else REB_GET_WORD
  else REB_WORD.

(** The loop of c-function.c:65 over the typesets, up to the terminator. *)
Fixpoint list_words (typesets : list REBVAL) : list REBVAL :=
  match typesets with
  | [] => []
  | END :: _ => []
  | typeset :: rest =>
      if EXT_TYPESET_HIDDEN (VAL_EXTS typeset) then list_words rest
      else ANY_WORD (listed_kind (VAL_EXTS typeset)) (VAL_TYPESET_SYM typeset)
             :: list_words rest
  end.

(** *** List_Func_Words (c-function.c:60)

    [VAL_FUNC_PARAMS_HEAD] is the parameter list after slot 0. *)
Definition List_Func_Words (func : function) : list REBVAL :=
  list_words (tl (VAL_FUNC_PARAMLIST func)).

(** [VAL_RESET_HEADER (value, REB_TYPESET)] on the copy of a typeset: the
    header of a typeset with no option bit set. *)
Definition VAL_RESET_HEADER (v : REBVAL) : REBVAL :=
  match v with TYPESET sym bits _ => TYPESET sym bits no_exts | _ => v end.

(** The loop of c-function.c:107. *)
Fixpoint list_typesets (typesets : list REBVAL) : list REBVAL :=
  match typesets with
  | [] => []
  | END :: _ => []
  | typeset :: rest => VAL_RESET_HEADER typeset :: list_typesets rest
  end.

(** *** List_Func_Typesets (c-function.c:102) *)
Definition List_Func_Typesets (func : function) : list REBVAL :=
  list_typesets (tl (VAL_FUNC_PARAMLIST func)).

(** The items that the scan of [Make_Paramlist_Managed] has a case for: a
    string of any kind, a block, and a word of the five kinds that declare a
    parameter. *)
Definition declares (item : REBVAL) : bool :=
  match item with
  | ANY_BINSTR _ _ | BLOCK _ _ => true
  | ANY_WORD REB_ISSUE _ => false
  | ANY_WORD _ _ => true
  | _ => false
  end.

(** The words of a spec that are no set-words, as words. *)
Definition visible_words (spec : list REBVAL) : list REBVAL :=
  omap (fun v => match v with
                 | ANY_WORD REB_SET_WORD _ => None
                 | ANY_WORD k sym => Some (ANY_WORD k sym)
                 | _ => None
                 end) spec.

(** *** A booted system to run the makers on

    Symbols that are their own canon form, a type block that stands for
    the bits of its length, and the three tags of the generators. *)
Module Example.
Local Open Scope nat_scope.

Definition SYM_RETURN : REBSYM := 1.
Definition SYM_CATCH : REBSYM := 2.
Definition SYM_THROW : REBSYM := 3.
Definition SYM_INTEGER_X : REBSYM := 4.
Definition SYM_A : REBSYM := 10.
Definition SYM_B : REBSYM := 11.
Definition SYM_REF : REBSYM := 12.

#[export] Instance boot : Boot := {|
  SYMBOL_TO_CANON := fun sym => sym;
  Func.SYM_RETURN := SYM_RETURN;
  Func.SYM_CATCH := SYM_CATCH;
  Func.SYM_THROW := SYM_THROW;
  refinement_bits := 5%Z;
  Make_Typeset := fun types => Some (Z.of_nat (length types));
  Compare_String_Vals := fun a b _ =>
    match a, b with
    | ANY_BINSTR _ s1, ANY_BINSTR _ s2 => if String.eqb s1 s2 then 0%Z else 1%Z
    | _, _ => 1%Z
    end;
  ROOT_TRANSPARENT_TAG := ANY_BINSTR REB_TAG "transparent";
  ROOT_INFIX_TAG := ANY_BINSTR REB_TAG "infix";
  ROOT_LOCAL_TAG := ANY_BINSTR REB_TAG "local" |}.

(** The spec [a "doc" return: [integer!] /ref b]. *)
Definition spec : list REBVAL :=
  [ANY_WORD REB_WORD SYM_A;
   ANY_BINSTR REB_STRING "doc";
   ANY_WORD REB_SET_WORD SYM_RETURN;
   BLOCK [ANY_WORD REB_WORD SYM_INTEGER_X] 0;
   ANY_WORD REB_REFINEMENT SYM_REF;
   ANY_WORD REB_WORD SYM_B].

Definition bubbled : list REBVAL :=
  match Make_Paramlist_Managed spec SYM_RETURN with
  | inr params => params
  | inl _ => []
  end.

Definition SYM_C : REBSYM := 13.
Definition SYM_LOCAL : REBSYM := 14.

(** The spec [a 'b "doc" local: /ref :c]. *)
Definition plain_spec : list REBVAL :=
  [ANY_WORD REB_WORD SYM_A;
   ANY_WORD REB_LIT_WORD SYM_B;
   ANY_BINSTR REB_STRING "doc";
   ANY_WORD REB_SET_WORD SYM_LOCAL;
   ANY_WORD REB_REFINEMENT SYM_REF;
   ANY_WORD REB_GET_WORD SYM_C].

Definition plain_params : list REBVAL :=
  match Make_Paramlist_Managed plain_spec SYM_0 with
  | inr params => params
  | inl _ => []
  end.

(** The function that MAKE FUNCTION! makes of that spec, read from its
    second item on, and the one that FUNC makes of the spec [a b]. *)
Definition made_plain : failure + function :=
  Make_Function REB_FUNCTION (BLOCK plain_spec 1) (BLOCK [] 0) false.

Definition made_with_return : failure + function :=
  Make_Function REB_FUNCTION
    (BLOCK [ANY_WORD REB_WORD SYM_A; ANY_WORD REB_WORD SYM_B] 0) (BLOCK [] 0) true.

(** The function that FUNC makes of [<infix> a /return], read from its
    second item on. *)
Definition made_infix : failure + function :=
  Make_Function REB_FUNCTION
    (BLOCK [ANY_BINSTR REB_TAG "infix"; ANY_WORD REB_WORD SYM_A;
            ANY_WORD REB_REFINEMENT SYM_RETURN] 1) (BLOCK [] 0) true.

End Example.

End Func.

(** ** t-object.c: comparison and reflection of objects *)

Module Object.

(** The datatypes that the object hooks serve. *)
Inductive obj_kind := REB_OBJECT | REB_MODULE | REB_ERROR | REB_TASK | REB_PORT.

#[global] Instance obj_kind_eq_dec : EqDecision obj_kind.
Proof. solve_decision. Defined.

Section Cells.

(** The cells of a frame and of its word series, the terminator that a
    series ends with, and the general comparison [Cmp_Value] of two cells
    (zero when they compare equal), which is not part of this file. *)
Variable cell : Type.
Variable END_VALUE : cell.
Variable Cmp_Value : cell -> cell -> bool -> Z.

(** A series of cells; its [tail] field is a [REBCNT]. *)
Definition tail (s : list cell) : Z := REBCNT_of (Z.of_nat (length s)).

Definition BLK_SKIP (s : list cell) (n : nat) : cell := nth n s END_VALUE.

(** A frame: the node it lives at, its values and its word series. *)
Record REBSER := {
  node : nat;
  values : list cell;
  FRM_WORD_SERIES : list cell }.

(** An object cell: the datatype and the pointer to the frame. *)
Record REBVAL := {
  VAL_TYPE : obj_kind;
  VAL_OBJ_FRAME : REBSER }.

(** [f1 == f2] on frame pointers. *)
Definition same_node (f1 f2 : REBSER) : bool := bool_decide (node f1 = node f2).

(** *** Same_Object (t-object.c:33) *)
Definition Same_Object (val arg : REBVAL) : bool :=
  bool_decide (VAL_TYPE arg = VAL_TYPE val)
  && same_node (VAL_OBJ_FRAME val) (VAL_OBJ_FRAME arg).

(** The loop of t-object.c:64, from [n] up to the bound. *)
Definition entries_equal (f1 f2 : REBSER) (bound : Z) : bool :=
  forallb
    (fun n =>
       (Cmp_Value (BLK_SKIP (FRM_WORD_SERIES f1) n) (BLK_SKIP (FRM_WORD_SERIES f2) n) false =? 0)
       && (Cmp_Value (BLK_SKIP (values f1) n) (BLK_SKIP (values f2) n) false =? 0))
    (seq 1 (Z.to_nat (bound - 1))).

(** *** Equal_Object (t-object.c:44) *)
Definition Equal_Object (val arg : REBVAL) : bool :=
  if negb (bool_decide (VAL_TYPE arg = VAL_TYPE val)) then false
  else
    let f1 := VAL_OBJ_FRAME val in
    let f2 := VAL_OBJ_FRAME arg in
    if same_node f1 f2 then true
    else if negb (tail (values f1) =? tail (values f2)) then false
    else
      let w1 := FRM_WORD_SERIES f1 in
      let w2 := FRM_WORD_SERIES f2 in
      if negb (tail w1 =? tail w2) then false
      else entries_equal f1 f2 (REBINT_of (tail (values f1))).

(** *** CT_Object (t-object.c:200) *)
Definition CT_Object (a b : REBVAL) (mode : Z) : Z :=
  if mode <? 0 then -1
  else if mode =? 3 then Z.b2z (Same_Object a b)
  else Z.b2z (Equal_Object a b).

(** *** The LENGTH? and TAIL? cases of REBTYPE(Object) (t-object.c:438, 507)

    The action ends with the cell written to [D_OUT], or in the trap for an
    action that the datatype of the value does not have. *)
Inductive action := A_LENGTHQ | A_TAILQ.

Inductive result :=
| R_OUT_INTEGER (i : Z)
| R_OUT_LOGIC (b : bool)
| Trap_Action (type : obj_kind) (a : action).

Definition IS_OBJECT (v : REBVAL) : bool := bool_decide (VAL_TYPE v = REB_OBJECT).

Definition T_Object (value : REBVAL) (a : action) : result :=
  match a with
  | A_LENGTHQ =>
      if IS_OBJECT value then
        R_OUT_INTEGER (REBCNT_of (tail (values (VAL_OBJ_FRAME value)) - 1))
      else Trap_Action (VAL_TYPE value) a
  | A_TAILQ =>
      if IS_OBJECT value then
        R_OUT_LOGIC (tail (values (VAL_OBJ_FRAME value)) <=? 1)
      else Trap_Action (VAL_TYPE value) a
  end.

(** The same object cell over a frame whose slot 0 holds other cells. *)
Definition poke_self (self word : cell) (v : REBVAL) : REBVAL :=
  {| VAL_TYPE := VAL_TYPE v;
     VAL_OBJ_FRAME :=
       {| node := node (VAL_OBJ_FRAME v);
          values := <[0%nat := self]> (values (VAL_OBJ_FRAME v));
          FRM_WORD_SERIES := <[0%nat := word]> (FRM_WORD_SERIES (VAL_OBJ_FRAME v)) |} |}.

End Cells.

Arguments poke_self {cell} _ _ _.
Arguments node {cell} _.
Arguments values {cell} _.
Arguments FRM_WORD_SERIES {cell} _.
Arguments VAL_TYPE {cell} _.
Arguments VAL_OBJ_FRAME {cell} _.
Arguments Build_REBSER {cell} _ _ _.
Arguments Build_REBVAL {cell} _ _.
Arguments tail {cell} _.
Arguments BLK_SKIP {cell} _ _ _.
Arguments same_node {cell} _ _.
Arguments Same_Object {cell} _ _.
Arguments entries_equal {cell} _ _ _ _ _.
Arguments Equal_Object {cell} _ _ _ _.
Arguments CT_Object {cell} _ _ _ _ _.
Arguments IS_OBJECT {cell} _.
Arguments T_Object {cell} _ _.

(** An object and an error over the one frame at node 5. *)
Module Example.

Definition frame : REBSER nat :=
  {| node := 5%nat; values := [0; 7; 8]%nat; FRM_WORD_SERIES := [0; 1; 2]%nat |}.

Definition an_object : REBVAL nat := {| VAL_TYPE := REB_OBJECT; VAL_OBJ_FRAME := frame |}.

Definition an_error : REBVAL nat := {| VAL_TYPE := REB_ERROR; VAL_OBJ_FRAME := frame |}.

Definition Cmp (a b : nat) (case : bool) : Z := Z.of_nat a - Z.of_nat b.

End Example.

End Object.

(** ** c-error.c: the thrown argument *)

Module Thrown.

(** A cell with its thrown bit; [TRASH] is what [SET_TRASH_SAFE] leaves in
    a cell.  The cells that the two routines are handed live in [cells], a
    pointer being an index; [TASK_THROWN_ARG] is the cell of the task. *)
Inductive content := TRASH | HOLDS (v : Z).

Record REBVAL := { THROWN : bool; holds : content }.

Record Task := { cells : list REBVAL; TASK_THROWN_ARG : REBVAL }.

Definition IS_TRASH (v : REBVAL) : bool :=
  match holds v with TRASH => true | HOLDS _ => false end.

Definition VAL_SET_OPT_THROWN (v : REBVAL) : REBVAL :=
  {| THROWN := true; holds := holds v |}.

Definition VAL_CLR_OPT_THROWN (v : REBVAL) : REBVAL :=
  {| THROWN := false; holds := holds v |}.

Definition trash : REBVAL := {| THROWN := false; holds := TRASH |}.

(** *** Convert_Name_To_Thrown_Debug (c-error.c:126)

    The result is [None] when an assertion fails or a pointer is wild. *)
Definition Convert_Name_To_Thrown_Debug (name arg : nat) (t : Task) : option Task :=
  match cells t !! name with
  | None => None
  | Some n =>
      if THROWN n then None
      else
        let cells1 := <[name := VAL_SET_OPT_THROWN n]> (cells t) in
        if negb (IS_TRASH (TASK_THROWN_ARG t)) then None
        else
          match cells1 !! arg with
          | None => None
          | Some a =>
              if IS_TRASH a then None
              else Some {| cells := cells1; TASK_THROWN_ARG := a |}
          end
  end.

(** *** Catch_Thrown_Debug (c-error.c:147) *)
Definition Catch_Thrown_Debug (out thrown : nat) (t : Task) : option Task :=
  match cells t !! thrown with
  | None => None
  | Some th =>
      if negb (THROWN th) then None
      else
        let cells1 := <[thrown := VAL_CLR_OPT_THROWN th]> (cells t) in
        if IS_TRASH (TASK_THROWN_ARG t) then None
        else if decide (out < length cells1)%nat then
          Some {| cells := <[out := TASK_THROWN_ARG t]> cells1;
                  TASK_THROWN_ARG := trash |}
        else None
  end.

(** Three cells, a name at 0 and an argument at 1, and nothing thrown. *)
Definition quiet : Task :=
  {| cells := [ {| THROWN := false; holds := HOLDS 10 |};
                {| THROWN := false; holds := HOLDS 42 |};
                {| THROWN := false; holds := HOLDS 0 |} ];
     TASK_THROWN_ARG := trash |}.

Definition thrown_task : Task :=
  default quiet (Convert_Name_To_Thrown_Debug 0 1 quiet).

End Thrown.

(** ** c-error.c: the backtrace *)

Module Backtrace.

(** A call frame, of which the backtrace reads the symbol of the label; the
    chain of the frames from [DSF] through [PRIOR_DSF] is a list. *)
Record Reb_Call := { DSF_LABEL : REBSYM }.

(** *** Stack_Depth (c-error.c:268) *)
Fixpoint Stack_Depth_from (count : Z) (call : list Reb_Call) : Z :=
  match call with
  | [] => count
  | _ :: prior => Stack_Depth_from (REBCNT_of (count + 1)) prior
  end.

Definition Stack_Depth (DSF : list Reb_Call) : Z := Stack_Depth_from 0 DSF.

(** The loop of c-error.c:297: [start] is tested and then decremented. *)
Fixpoint backtrace_words (start : Z) (call : list Reb_Call) : list REBSYM :=
  match call with
  | [] => []
  | c :: prior =>
      if start <=? 0 then DSF_LABEL c :: backtrace_words (REBINT_of (start - 1)) prior
      else backtrace_words (REBINT_of (start - 1)) prior
  end.

(** *** Make_Backtrace (c-error.c:286)

    The block is made with room for [depth - start] cells, a [REBCNT]; the
    result is that capacity and the symbols of the words of the block. *)
Definition Make_Backtrace (start : Z) (DSF : list Reb_Call) : Z * list REBSYM :=
  let depth := Stack_Depth DSF in
  (REBCNT_of (depth - start), backtrace_words start DSF).

Definition three_deep : list Reb_Call :=
  [ {| DSF_LABEL := 7%nat |}; {| DSF_LABEL := 8%nat |}; {| DSF_LABEL := 9%nat |} ].

End Backtrace.

(** ** c-error.c: errors made from a code *)

Module ErrorCore.
Import Errors.

(** The two fields of [ERROR_OBJ] after the message. *)
Definition ERR_NEAREST : nat := 5.
Definition ERR_WHERE : nat := 6.

(** How a call of [Make_Error_Core] ends: in the panic of the early boot,
    with the frame, or undefined (a read through the NULL message of a code
    that is not in the catalog, a [va_arg] past the arguments). *)
Inductive made :=
| Panic_Core (code : Z)
| Made (frame : REBSER)
| Undefined.

(** The get-words of a template, in order. *)
Definition get_words (temp : list REBVAL) : list REBSYM :=
  omap (fun v => match v with ANY_WORD REB_GET_WORD sym => Some sym | _ => None end) temp.

(** The loop of c-error.c:809 that counts the get-words of the template. *)
Fixpoint count_get_words (expected_args : Z) (temp : list REBVAL) : Z :=
  match temp with
  | [] => expected_args
  | ANY_WORD REB_GET_WORD _ :: rest => count_get_words (REBCNT_of (expected_args + 1)) rest
  | _ :: rest => count_get_words expected_args rest
  end.

(** The loop of c-error.c:874: every get-word of the template takes the
    next of the variadic arguments, a NULL among them giving none. *)
Fixpoint fill_args (temp : list REBVAL) (args : list (option REBVAL))
  : option (list (REBSYM * REBVAL)) :=
  match temp with
  | [] => Some []
  | ANY_WORD REB_GET_WORD sym :: rest =>
      match args with
      | [] => None
      | arg :: args' =>
          match fill_args rest args' with
          | None => None
          | Some filled => Some ((sym, default NONE arg) :: filled)
          end
      end
  | _ :: rest => fill_args rest args
  end.

Section WithBoot.
Context `{B : Boot}.

(** *** Make_Error_Core (c-error.c:747)

    The release build (NDEBUG), where the asserts are no code and a NULL
    argument is filled with none.
    [booted] is [PG_Boot_Phase >= BOOT_ERRORS]; [DSF] is the running frame,
    when there is one, as the chain of the call frames and its [DSF_WHERE]
    cell.  The new keys go to the keylist at the tail of the values of the
    template, the two tails being one in a frame. *)
Definition Make_Error_Core (booted : bool) (code : Z)
    (args : list (option REBVAL))
    (DSF : option (list Backtrace.Reb_Call * REBVAL)) : made :=
  if negb booted then Panic_Core code
  else
    let root_frame := ROOT_ERROBJ in
    match Find_Error_For_Code END END code with
    | (None, _, _) => Undefined
    | (Some message, id, type) =>
        let expected_args :=
          match message with
          | BLOCK items => count_get_words 0 items
          | _ => 0
          end in
        let copied : option REBSER :=
          if expected_args =? 0 then Some root_frame
          else
            match message with
            | BLOCK items =>
                match fill_args items args with
                | None => None
                | Some filled =>
                    Some (Frame
                            (take (length (FRM_VALUES root_frame)) (FRM_KEYLIST root_frame)
                             ++ map fst filled)
                            (FRM_VALUES root_frame ++ map snd filled))
                end
            | _ => None
            end in
        match copied with
        | None => Undefined
        | Some frame =>
            let frame := set_value ERR_CODE (INTEGER code) frame in
            let frame := set_value ERR_MESSAGE message frame in
            let frame := set_value ERR_ID id frame in
            let frame := set_value ERR_TYPE type frame in
            match DSF with
            | None => Made frame
            | Some (calls, nearest) =>
                let frame :=
                  set_value ERR_WHERE
                    (BLOCK (WORD <$> (Backtrace.Make_Backtrace 0 calls).2)) frame in
                Made (set_value ERR_NEAREST nearest frame)
            end
        end
    end.

End WithBoot.

(** Objects that ask for error 300 of the example catalog and for the
    user error 1000. *)
Module Example.


Definition asks_1000 : REBSER :=
  Frame [Errors.Example.SYM_SELF; Errors.Example.SYM_CODE;
         Errors.Example.SYM_TYPE; Errors.Example.SYM_MESSAGE]
    [OTHER REB_FRAME; INTEGER 1000; WORD Errors.Example.SYM_SCRIPT;
     STRING "mine"].

End Example.

End ErrorCore.

(** ** c-error.c: the security policies *)

Module Security.

(** The cells that a policy is made of: a tuple of flag bytes, a word, a
    string of any kind (a file or a URL), a block, an object (the node of
    its frame) and cells of the other datatypes. *)
#[local] Unset Elimination Schemes.
Inductive REBVAL :=
| TUPLE (tuple : list Z)
| WORD (sym : REBSYM)
| ANY_BINSTR (series : string)
| BLOCK (head : list REBVAL)
| OBJECT (frame : nat)
| OTHER (k : nat).
#[local] Set Elimination Schemes.

(** How [Security_Policy] ends: with the flags of a tuple, in [fail] with
    the error of a code and an argument, or undefined (the series of a name
    that is no string is read). *)
Inductive policy_result :=
| Flags (tuple : list Z)
| fail_Error (errcode : Z) (arg : REBVAL)
| Undefined.

(** How the scan of a detailed block ends: at the terminator with the
    flags found, if any, or at the [error] label with the cell that
    [policy] points at. *)
Inductive scanned :=
| Scanned (flags : option (list Z))
| Bad (policy : REBVAL)
| Unsound.

(** The tail of the series of a string is a [REBCNT]. *)
Definition VAL_TAIL (series : string) : Z := REBCNT_of (Z.of_nat (String.length series)).

(** The entries of a well-formed detailed block, and the block of them. *)
Definition detailed (entries : list (REBVAL * list Z)) : list REBVAL :=
  flat_map (fun e : REBVAL * list Z => [e.1; TUPLE e.2]) entries.

Definition is_default (e : REBVAL * list Z) : bool :=
  match e.1 with WORD _ => true | _ => false end.

Definition is_key (e : REBVAL * list Z) : bool :=
  match e.1 with WORD _ | ANY_BINSTR _ => true | _ => false end.

Section Policies.

(** What the routine is run against: the cell of system/state/policies,
    the lookup of a word in a frame, the match of a path against the head of
    another, and the two error codes. *)
Variable policies : REBVAL.
Variable Find_Word_Value : nat -> REBSYM -> option REBVAL.
Variable Match_Sub_Path : string -> string -> bool.
Variables RE_SECURITY_ERROR RE_SECURITY : Z.

(** The loop of c-error.c:1378, two cells at a time; the cell after the
    last one is the terminator, which is no tuple. *)
Fixpoint scan_policies (name : option REBVAL) (items : list REBVAL) (len : Z)
    (flags : option (list Z)) : scanned :=
  match items with
  | [] => Scanned flags
  | policy :: rest =>
      match rest with
      | TUPLE tuple :: rest' =>
          match policy with
          | WORD _ =>
              scan_policies name rest' len (if len =? 0 then Some tuple else flags)
          | ANY_BINSTR series =>
              match name with
              | None => Bad policy
              | Some (ANY_BINSTR name_series) =>
                  if Match_Sub_Path series name_series then
                    if VAL_TAIL name_series >=? len then
                      scan_policies name rest' (VAL_TAIL name_series) (Some tuple)
                    else scan_policies name rest' len flags
                  else scan_policies name rest' len flags
              | Some _ => Unsound
              end
          | _ => Bad policy
          end
      | _ => Bad policy
      end
  end.

(** *** Security_Policy (c-error.c:1323) *)
Definition Security_Policy (sym : REBSYM) (name : option REBVAL) : policy_result :=
  match policies with
  | OBJECT frame =>
      match Find_Word_Value frame sym with
      | None => fail_Error RE_SECURITY_ERROR (WORD sym)
      | Some (TUPLE tuple) => Flags tuple
      | Some (BLOCK head) =>
          match scan_policies name head 0 None with
          | Scanned (Some tuple) => Flags tuple
          | Scanned None => fail_Error RE_SECURITY (default (WORD sym) name)
          | Bad policy => fail_Error RE_SECURITY_ERROR policy
          | Unsound => Undefined
          end
      | Some policy => fail_Error RE_SECURITY_ERROR policy
      end
  | _ => fail_Error RE_SECURITY_ERROR policies
  end.

(** The entries whose string matches a name. *)
Definition matches (name_series : string) (e : REBVAL * list Z) : bool :=
  match e.1 with ANY_BINSTR series => Match_Sub_Path series name_series | _ => false end.

End Policies.

(** Policies for the class [file]: the home directory is allowed, the
    root asks to throw, and everything else asks. *)
Module Example.

Definition SYM_FILE : REBSYM := 1%nat.
Definition SYM_DEFAULT : REBSYM := 2%nat.

Definition file_entries : list (REBVAL * list Z) :=
  [(WORD SYM_DEFAULT, [1; 1; 1]);
   (ANY_BINSTR "/home/", [0; 0; 0]);
   (ANY_BINSTR "/", [2; 2; 2])].

Definition Find_Word_Value (frame : nat) (sym : REBSYM) : option REBVAL :=
  if Nat.eqb sym SYM_FILE then Some (BLOCK (detailed file_entries)) else None.

Definition Match_Sub_Path (series name_series : string) : bool :=
  String.prefix series name_series.

End Example.

End Security.

(** * Properties *)

(** ** Machine integers *)

Lemma REBINT_of_small z : - 2 ^ 31 <= z < 2 ^ 31 -> REBINT_of z = z.
Proof.
  intros H. unfold REBINT_of.
  rewrite Z.mod_small; lia.
Qed.

Lemma REBCNT_of_small z : 0 <= z < 2 ^ 32 -> REBCNT_of z = z.
Proof. intros H. unfold REBCNT_of. rewrite Z.mod_small; lia. Qed.

Lemma REBCNT_of_range z : 0 <= REBCNT_of z < 2 ^ 32.
Proof. unfold REBCNT_of. apply Z.mod_pos_bound. lia. Qed.

(** ** The trap stack *)

Section TrapFacts.
Import Trap.

(** What a run of allocations and pushes does to the rollback lists. *)
Record ran (ops : list op) (t t2 : Task) : Prop := {
  ran_saved : Saved_State t2 = Saved_State t;
  ran_calls : CS t2 = rev (made_calls ops) ++ CS t;
  ran_manuals : GC_Manuals t2 = GC_Manuals t ++ made_series ops;
  ran_pool : ∀ s, s ∈ series_pool t2 ↔ s ∈ made_series ops ∨ s ∈ series_pool t;
  ran_calls_fresh : ∀ c, c ∈ made_calls ops → c ≠ NULL ∧ c ∉ CS t;
  ran_series_fresh : ∀ s, s ∈ made_series ops → s ∉ series_pool t }.

Lemma run_ran ops : ∀ t t2, run ops t = Some t2 → ran ops t t2.
Proof.
  induction ops as [|o ops IH]; intros t t2 Hrun; simpl in Hrun.
  - injection Hrun as <-. split; simpl; try done.
    + by rewrite app_nil_r.
    + intros s. split; [by right | intros [H|H]; [inversion H | done]].
    + intros c H. inversion H.
    + intros s H. inversion H.
  - destruct (step o t) as [t1|] eqn:Hstep; [|done].
    destruct (IH _ _ Hrun) as [Hs Hc Hm Hp Hcf Hsf].
    destruct o as [s|c r| s | v |]; simpl in Hstep.
    + destruct (decide (s ∈ series_pool t)) as [|Hfresh]; [done|].
      injection Hstep as <-. simpl in *.
      split; simpl; try done.
      * by rewrite Hm, <- app_assoc.
      * intros x. rewrite Hp. set_solver.
      * intros x Hx. rewrite elem_of_cons in Hx. destruct Hx as [->|Hx]; [done|].
        specialize (Hsf x Hx). set_solver.
    + destruct (decide (c = NULL ∨ c ∈ CS t)) as [|Hfresh]; [done|].
      injection Hstep as <-. simpl in *.
      split; simpl; try done.
      * by rewrite Hc, <- app_assoc.
      * intros x Hx. rewrite elem_of_cons in Hx. destruct Hx as [->|Hx].
        -- split; [intros ->|intros Hin]; apply Hfresh; auto.
        -- specialize (Hcf x Hx). set_solver.
    + injection Hstep as <-. by split.
    + injection Hstep as <-. by split.
    + injection Hstep as <-. by split.
Qed.

Lemma free_calls_skip target new cs :
  target ∉ new → free_calls target (new ++ cs) = free_calls target cs.
Proof.
  induction new as [|c new IH]; intros Hn; simpl; [done|].
  destruct (decide (c = target)) as [->|]; [set_solver|].
  apply IH. set_solver.
Qed.

Lemma free_calls_found target cs :
  target ∈ cs → free_calls target cs = Some (frames_from target cs).
Proof.
  induction cs as [|c cs IH]; intros Hin; [inversion Hin|]. simpl.
  destruct (decide (c = target)); [done|].
  apply IH. set_solver.
Qed.

Lemma free_calls_null cs : NULL ∉ cs → free_calls NULL cs = Some [].
Proof.
  induction cs as [|c cs IH]; intros Hn; simpl; [done|].
  destruct (decide (c = NULL)) as [->|]; [set_solver|].
  apply IH. set_solver.
Qed.

Lemma frames_from_head target cs :
  target ∈ cs → hd NULL (frames_from target cs) = target.
Proof.
  induction cs as [|c cs IH]; intros Hin; [inversion Hin|]. simpl.
  destruct (decide (c = target)); [done|].
  apply IH. set_solver.
Qed.

Lemma frames_from_idem target cs :
  frames_from target (frames_from target cs) = frames_from target cs.
Proof.
  induction cs as [|c cs IH]; simpl; [done|].
  destruct (decide (c = target)) as [Heq|Hne]; [|done].
  simpl. by rewrite decide_True.
Qed.

Lemma frames_from_subseteq target cs c : c ∈ frames_from target cs → c ∈ cs.
Proof.
  induction cs as [|c' cs IH]; simpl; [done|].
  destruct (decide (c' = target)); [done|].
  intros H. right. by apply IH.
Qed.

(** The loop over the manual series frees exactly what was added above
    the saved tail. *)
Lemma free_manuals_added new : ∀ t m0 rounds,
  GC_Manuals t = m0 ++ new →
  (length new <= rounds)%nat →
  ∃ t',
    free_manuals rounds (length m0) t = Some t'
    ∧ GC_Manuals t' = m0
    ∧ (∀ s, s ∈ series_pool t' ↔ s ∈ series_pool t ∧ s ∉ new)
    ∧ DSP t' = DSP t ∧ DSF t' = DSF t ∧ CS t' = CS t
    ∧ GC_Series_Guard t' = GC_Series_Guard t
    ∧ GC_Value_Guard t' = GC_Value_Guard t
    ∧ GC_Disabled t' = GC_Disabled t
    ∧ Saved_State t' = Saved_State t.
Proof.
  induction new as [|s new IH] using rev_ind; intros t m0 rounds Hm Hr.
  - rewrite app_nil_r in Hm. exists t.
    assert (free_manuals rounds (length m0) t = Some t) as ->.
    { destruct rounds; simpl; rewrite decide_True; by rewrite ?Hm. }
    repeat split; try done; set_solver.
  - rewrite length_app in Hr. simpl in Hr.
    destruct rounds as [|k]; [lia|]. simpl.
    rewrite decide_False by (rewrite Hm, !length_app; simpl; lia).
    assert (last (GC_Manuals t) = Some s) as Hlast.
    { by rewrite Hm, app_assoc, last_snoc. }
    rewrite Hlast.
    destruct (IH (Free_Series s t) m0 k) as (t' & Hf & Hm' & Hp & Hrest).
    { unfold Free_Series. simpl. rewrite Hlast, decide_True by done.
      by rewrite Hm, app_assoc, removelast_last. }
    { lia. }
    exists t'. split; [done|]. split; [done|]. split; [|exact Hrest].
    intros x. rewrite Hp. unfold Free_Series. simpl.
    rewrite list_elem_of_filter. set_solver.
Qed.

(** C1. Whatever manual series are allocated and whatever call frames,
    guards and data-stack cells are pushed between a [Push_Trap_Helper] and
    a [fail], the trapped jump ends in [Trapped_Helper_Halted] returning,
    with the manual series, the running frame and the top of the call
    stack, the stack depth, the data stack pointer, both guard tails, the
    GC-disabled flag and the saved state as they were at the push; the call
    frames and the manual series of the run are freed. *)
Theorem trap_rollback (RE_HALT : Z) (t t2 : Task) (ops : list op)
    (frame : ERROR_FRAME) :
  stack_ok t →
  run ops (Push_Trap_Helper t) = Some t2 →
  ∃ t3,
    fail RE_HALT frame t2 = Some (Z.eqb (ERR_NUM frame) RE_HALT, t3)
    ∧ length (GC_Manuals t3) = length (GC_Manuals t)
    ∧ GC_Manuals t3 = GC_Manuals t
    ∧ DSF t3 = DSF t
    ∧ CS_Top t3 = DSF t
    ∧ Stack_Depth t3 = Stack_Depth t
    ∧ DSP t3 = DSP t
    ∧ tail (GC_Series_Guard t3) = tail (GC_Series_Guard t)
    ∧ tail (GC_Value_Guard t3) = tail (GC_Value_Guard t)
    ∧ GC_Disabled t3 = GC_Disabled t
    ∧ Saved_State t3 = Saved_State t
    ∧ (∀ c, c ∈ made_calls ops → c ∉ CS t3)
    ∧ (∀ s, s ∈ made_series ops → (s ∉ series_pool t3) ∧ (s ∉ GC_Manuals t3)).
Proof.
  intros [Hdsf Hnull Hpool] Hrun.
  destruct (run_ran _ _ _ Hrun) as [Hs Hc Hm Hp Hcf Hsf]. simpl in *.
  (* the walk down the call stack stops at the saved frame *)
  assert (DSF t ∉ rev (made_calls ops)) as Hnew.
  { intros Hin. rewrite list_elem_of_In, <- in_rev, <- list_elem_of_In in Hin.
    destruct (Hcf _ Hin) as [Hn Hc']. destruct Hdsf; done. }
  assert (∃ cs, free_calls (DSF t) (CS t2) = Some cs
                ∧ hd NULL cs = DSF t
                ∧ (DSF t ≠ NULL → cs = frames_from (DSF t) (CS t))
                ∧ (∀ c, c ∈ cs → c ∈ CS t)) as (cs & Hfc & Hhd & Hfrom & Hsub).
  { rewrite Hc, free_calls_skip by done.
    destruct (decide (DSF t ∈ CS t)) as [Hin|Hout].
    - exists (frames_from (DSF t) (CS t)). rewrite free_calls_found by done.
      repeat split; [by apply frames_from_head | apply frames_from_subseteq].
    - destruct Hdsf as [Hd|]; [|done]. rewrite Hd.
      exists []. rewrite free_calls_null by done.
      repeat split; [done | intros c H; inversion H]. }
  (* the manual series above the saved tail go *)
  pose (t1 := {| DSP := DSP t; DSF := DSF t; CS := cs;
                 GC_Series_Guard := GC_Series_Guard t2;
                 GC_Value_Guard := GC_Value_Guard t2;
                 GC_Disabled := GC_Disabled t2;
                 GC_Manuals := GC_Manuals t2;
                 series_pool := series_pool t2;
                 Saved_State :=
                   Some (with_error_frame frame
                     {| dsp := DSP t; dsf := DSF t;
                        series_guard_tail := tail (GC_Series_Guard t);
                        value_guard_tail := tail (GC_Value_Guard t);
                        gc_disable := GC_Disabled t;
                        manuals_tail := length (GC_Manuals t);
                        error_frame := None;
                        last_state := Saved_State t |});
                 TASK_THROWN_ARG := None |}).
  destruct (free_manuals_added (made_series ops) t1 (GC_Manuals t)
              (length (GC_Manuals t1)))
    as (t' & Hfm & Hm' & Hp' & HDSP & HDSF & HCS & _ & _ & _ & _).
  { exact Hm. }
  { simpl. rewrite Hm, length_app. lia. }
  eexists. split.
  { unfold fail, Fail_Core. rewrite Hs. simpl.
    unfold Trapped_Helper_Halted. simpl. rewrite Hfc. fold t1.
    change (GC_Manuals t1) with (GC_Manuals t2) in Hfm.
    rewrite Hfm. reflexivity. }
  simpl. rewrite Hm', HDSP, HDSF, HCS. simpl.
  repeat split; try done.
  - unfold Stack_Depth. simpl.
    destruct (decide (DSF t = NULL)) as [|Hne]; [done|].
    by rewrite (Hfrom Hne), frames_from_idem.
  - intros c Hin Hc3.
    destruct (Hcf _ Hin) as [_ Hno]. apply Hno, Hsub, Hc3.
  - rewrite Hp'. intros [_ Hno]. by apply Hno.
  - intros Hin. apply (Hsf _ H), Hpool, Hin.
Qed.

Lemma trap_rollback_witness :
  ∃ t3,
    fail 1 {| ERR_NUM := 300 |} before_fail = Some (Z.eqb 300 1, t3)
    ∧ length (GC_Manuals t3) = length (GC_Manuals busy_task)
    ∧ GC_Manuals t3 = GC_Manuals busy_task
    ∧ DSF t3 = DSF busy_task
    ∧ CS_Top t3 = DSF busy_task
    ∧ Stack_Depth t3 = Stack_Depth busy_task
    ∧ DSP t3 = DSP busy_task
    ∧ tail (GC_Series_Guard t3) = tail (GC_Series_Guard busy_task)
    ∧ tail (GC_Value_Guard t3) = tail (GC_Value_Guard busy_task)
    ∧ GC_Disabled t3 = GC_Disabled busy_task
    ∧ Saved_State t3 = Saved_State busy_task
    ∧ (∀ c, c ∈ made_calls scenario_E → c ∉ CS t3)
    ∧ (∀ s, s ∈ made_series scenario_E →
            (s ∉ series_pool t3) ∧ (s ∉ GC_Manuals t3)).
Proof.
  apply (trap_rollback 1 busy_task before_fail scenario_E {| ERR_NUM := 300 |}).
  - split; simpl.
    + right. apply list_elem_of_here.
    + intros H. apply elem_of_cons in H as [H|H]; [discriminate|].
      apply elem_of_cons in H as [H|H]; [discriminate|]. inversion H.
    + intros s H. apply elem_of_cons. by left; apply list_elem_of_singleton in H.
  - reflexivity.
Defined.

End TrapFacts.

(** ** Error objects *)

Section ErrorFacts.
Import Errors.

Example find_error_300 :
  @Find_Error_For_Code Example.boot END END 300
  = (Some (BLOCK [ANY_WORD REB_GET_WORD Example.SYM_ARG1; STRING "has no value"]),
     WORD Example.SYM_NO_VALUE, WORD Example.SYM_SCRIPT).
Proof. reflexivity. Qed.

Example find_error_303 :
  @Find_Error_For_Code Example.boot NONE UNSET 303 = (None, NONE, UNSET).
Proof. reflexivity. Qed.

Example make_error_oops :
  @Make_Error_Object_Throws Example.boot (STRING "oops")
  = Returns_FALSE
      (ERROR (Frame (FRM_KEYLIST Example.template)
                [OTHER REB_FRAME; INTEGER 1000; WORD Example.SYM_USER;
                 WORD Example.SYM_MESSAGE; STRING "oops"; NONE; NONE])).
Proof. reflexivity. Qed.

Lemma nth_END_beyond (l : list REBVAL) n :
  (length l <= n)%nat → nth n l END = END.
Proof. intros H. by apply nth_overflow. Qed.

Lemma FRM_VALUE_set_value_eq n v f :
  (n < length (FRM_VALUES f))%nat → FRM_VALUE (set_value n v f) n = v.
Proof.
  intros H. unfold FRM_VALUE, set_value. simpl.
  apply nth_lookup_Some with (d := END). by apply list_lookup_insert_eq.
Qed.

Lemma FRM_VALUE_set_value_ne n m v f :
  n ≠ m → FRM_VALUE (set_value n v f) m = FRM_VALUE f m.
Proof.
  intros H. unfold FRM_VALUE, set_value. simpl.
  rewrite !nth_lookup. by rewrite list_lookup_insert_ne.
Qed.

Lemma length_set_value n v f :
  length (FRM_VALUES (set_value n v f)) = length (FRM_VALUES f).
Proof. unfold set_value. simpl. apply length_insert. Qed.

Section WithBoot.
Context `{B : Boot}.


End WithBoot.



(** The offset that is exactly at the tail of its category passes the test
    of c-error.c:345: the terminator of the category is the message. *)
Example find_error_at_tail :
  @Find_Error_For_Code Example.boot NONE UNSET 302 = (Some END, WORD 0%nat, WORD Example.SYM_SCRIPT).
Proof. reflexivity. Qed.

Section WithBoot.
Context `{B : Boot}.

(** C7. With the error template at its defaults (no code, no message, a
    word for the type and a word for the id) and no category of the catalog
    under the default type, the error made from the string "oops" has that
    string as its message, the default type and id, and the code
    [RE_USER]. *)
Theorem make_error_from_string (user message : REBSYM) :
  FRM_VALUE ROOT_ERROBJ ERR_CODE = NONE →
  FRM_VALUE ROOT_ERROBJ ERR_TYPE = WORD user →
  FRM_VALUE ROOT_ERROBJ ERR_ID = WORD message →
  FRM_VALUE ROOT_ERROBJ ERR_MESSAGE = NONE →
  Find_Word_Value categories user = None →
  ∃ frame,
    Make_Error_Object_Throws (STRING "oops") = Returns_FALSE (ERROR frame)
    ∧ FRM_VALUE frame ERR_MESSAGE = STRING "oops"
    ∧ FRM_VALUE frame ERR_TYPE = WORD user
    ∧ FRM_VALUE frame ERR_ID = WORD message
    ∧ FRM_VALUE frame ERR_CODE = INTEGER RE_USER.
Proof.
  intros Hcode Htype Hid Hmsg Hcat.
  assert (4 < length (FRM_VALUES ROOT_ERROBJ))%nat as Hlen.
  { destruct (decide (4 < length (FRM_VALUES ROOT_ERROBJ))%nat) as [|Hshort]; [done|].
    unfold FRM_VALUE, ERR_MESSAGE in Hmsg. rewrite nth_END_beyond in Hmsg; [done | lia]. }
  eexists. split.
  - unfold Make_Error_Object_Throws, finish, reconcile.
    rewrite (FRM_VALUE_set_value_ne ERR_MESSAGE ERR_CODE) by done.
    rewrite Hcode. cbn [IS_INTEGER].
    rewrite (FRM_VALUE_set_value_ne ERR_MESSAGE ERR_TYPE) by done.
    rewrite (FRM_VALUE_set_value_ne ERR_MESSAGE ERR_ID) by done.
    rewrite Htype, Hid. cbn [IS_WORD WORD andb VAL_WORD_SYM].
    rewrite Hcat. reflexivity.
  - unfold ERR_CODE, ERR_MESSAGE, ERR_TYPE, ERR_ID in *.
    repeat split.
    + rewrite FRM_VALUE_set_value_ne by done.
      by rewrite FRM_VALUE_set_value_eq by lia.
    + by rewrite !FRM_VALUE_set_value_ne by done.
    + by rewrite !FRM_VALUE_set_value_ne by done.
    + by rewrite FRM_VALUE_set_value_eq by (rewrite length_set_value; lia).
Qed.

(** C8. The exit status of a value: the integer cut to an [int], 0 for
    unset and none, for an error the code field of its frame read as an
    [int] (the integer of the field cut to 32 bits), and 1 for everything
    else. *)
Theorem exit_status_from_value (value : REBVAL) :
  Exit_Status_From_Value value =
  match value with
  | INTEGER i => REBINT_of i
  | UNSET | NONE => 0
  | ERROR frame =>
      match FRM_VALUE frame ERR_CODE with
      | INTEGER code => REBINT_of code
      | code => VAL_INT32 code
      end
  | _ => 1
  end.
Proof.
  destruct value as [| | | | | | | |frame|]; try done.
  unfold Exit_Status_From_Value, VAL_ERR_NUM, VAL_INT32. simpl.
  by destruct (FRM_VALUE frame ERR_CODE).
Qed.

(** What passes the reconciliation is the frame it was handed, with an
    integer in its code field and nothing but the code, the type, the id and
    the message written to. *)
Lemma reconcile_completed (arg : REBVAL) (frame frame' : REBSER) :
  reconcile arg frame = inr frame' →
  IS_INTEGER (FRM_VALUE frame' ERR_CODE) = true
  ∧ FRM_KEYLIST frame' = FRM_KEYLIST frame
  ∧ length (FRM_VALUES frame') = length (FRM_VALUES frame)
  ∧ (∀ n, n ≠ ERR_CODE → n ≠ ERR_TYPE → n ≠ ERR_ID → n ≠ ERR_MESSAGE →
          FRM_VALUE frame' n = FRM_VALUE frame n).
Proof.
  assert (∀ v, IS_NONE v = true → v ≠ END) as Hnone by (by intros []).
  assert (∀ v, IS_WORD v = true → v ≠ END) as Hword by (by intros []).
  assert (∀ n, FRM_VALUE frame n ≠ END → (n < length (FRM_VALUES frame))%nat) as Hin.
  { intros n Hn. destruct (decide (n < length (FRM_VALUES frame))%nat); [done|].
    destruct Hn. apply nth_END_beyond. lia. }
  unfold reconcile.
  destruct (IS_INTEGER (FRM_VALUE frame ERR_CODE)) eqn:Hint.
  - destruct (VAL_INT32 (FRM_VALUE frame ERR_CODE) <? RE_USER); [|by intros [= <-]].
    destruct (negb (IS_NONE (FRM_VALUE frame ERR_MESSAGE))); [done|].
    destruct (Find_Error_For_Code _ _ _) as [[[message|] id] type]; [|done].
    destruct (_ && _); [done|]. destruct (_ && _); [done|].
    intros [= <-]. split_and!.
    + by rewrite !FRM_VALUE_set_value_ne by done.
    + done.
    + by rewrite !length_set_value.
    + intros n H1 H2 H3 H4. by rewrite !FRM_VALUE_set_value_ne by done.
  - destruct (IS_WORD (FRM_VALUE frame ERR_TYPE)) eqn:Htype; simpl.
    + assert (1 < length (FRM_VALUES frame))%nat as Hlen.
      { apply Hword, Hin in Htype. unfold ERR_TYPE in Htype. lia. }
      destruct (IS_WORD (FRM_VALUE frame ERR_ID)); simpl.
      * destruct (Find_Word_Value categories _) as [category|].
        -- destruct (Find_Word_Value _ _) as [message|]; [|done].
           destruct (negb _); [done|].
           intros [= <-]. split_and!.
           ++ by rewrite FRM_VALUE_set_value_eq by (by rewrite length_set_value).
           ++ done.
           ++ by rewrite !length_set_value.
           ++ intros n H1 H2 H3 H4. by rewrite !FRM_VALUE_set_value_ne by done.
        -- intros [= <-]. split_and!.
           ++ by rewrite FRM_VALUE_set_value_eq.
           ++ done.
           ++ by rewrite length_set_value.
           ++ intros n H1 H2 H3 H4. by rewrite FRM_VALUE_set_value_ne by done.
      * destruct (IS_NONE (FRM_VALUE frame ERR_CODE)); [|done].
        destruct (_ || _); [done|].
        intros [= <-]. split_and!.
        -- by rewrite FRM_VALUE_set_value_eq.
        -- done.
        -- by rewrite length_set_value.
        -- intros n H1 H2 H3 H4. by rewrite FRM_VALUE_set_value_ne by done.
    + destruct (IS_NONE (FRM_VALUE frame ERR_CODE)) eqn:Hcode; [|done].
      assert (1 < length (FRM_VALUES frame))%nat as Hlen.
      { apply Hnone, Hin in Hcode. unfold ERR_CODE in Hcode. lia. }
      destruct (_ || _); [done|].
      intros [= <-]. split_and!.
      * by rewrite FRM_VALUE_set_value_eq.
      * done.
      * by rewrite length_set_value.
      * intros n H1 H2 H3 H4. by rewrite FRM_VALUE_set_value_ne by done.
Qed.

(** C5, as the code has it.  A block whose evaluation throws makes the
    routine return TRUE with the thrown value in the output cell, and that
    is the only way to TRUE: the thrown value is never turned into an error.
    A call that returns FALSE has written a completed error: the error cell
    of the frame that was built from the argument (the merge of an object or
    error with the template, the frame that the evaluation of a block left,
    the template with the string as its message), in which the
    reconciliation has written to nothing but the code, the type, the id and
    the message, and whose code field holds an integer.  Every other call
    leaves through [fail]. *)
Theorem make_error_throws (arg : REBVAL) :
  (∀ items evaluated,
     arg = BLOCK items →
     DO_ARRAY_THROWS (Make_Object ROOT_ERROBJ items) arg = DO_THROWN evaluated →
     Make_Error_Object_Throws arg = Returns_TRUE evaluated)
  ∧ (∀ out,
       Make_Error_Object_Throws arg = Returns_TRUE out →
       ∃ items,
         arg = BLOCK items
         ∧ DO_ARRAY_THROWS (Make_Object ROOT_ERROBJ items) arg = DO_THROWN out)
  ∧ (∀ out,
       Make_Error_Object_Throws arg = Returns_FALSE out →
       ∃ built frame,
         out = ERROR frame
         ∧ ((∃ f, (arg = ERROR f ∨ arg = OBJECT f)
                  ∧ built = Merge_Frames ROOT_ERROBJ f)
            ∨ (∃ items evaluated,
                 arg = BLOCK items
                 ∧ DO_ARRAY_THROWS (Make_Object ROOT_ERROBJ items) arg
                   = DO_DONE evaluated built)
            ∨ (∃ s, arg = STRING s
                    ∧ built = set_value ERR_MESSAGE (STRING s) ROOT_ERROBJ))
         ∧ IS_INTEGER (FRM_VALUE frame ERR_CODE) = true
         ∧ FRM_KEYLIST frame = FRM_KEYLIST built
         ∧ length (FRM_VALUES frame) = length (FRM_VALUES built)
         ∧ (∀ n, n ≠ ERR_CODE → n ≠ ERR_TYPE → n ≠ ERR_ID → n ≠ ERR_MESSAGE →
                 FRM_VALUE frame n = FRM_VALUE built n))
  ∧ ((∀ out, Make_Error_Object_Throws arg ≠ Returns_TRUE out) →
     (∀ out, Make_Error_Object_Throws arg ≠ Returns_FALSE out) →
     ∃ f, Make_Error_Object_Throws arg = Fails f).
Proof.
  assert (∀ built out, finish arg built = Returns_FALSE out →
            ∃ frame, out = ERROR frame
                     ∧ IS_INTEGER (FRM_VALUE frame ERR_CODE) = true
                     ∧ FRM_KEYLIST frame = FRM_KEYLIST built
                     ∧ length (FRM_VALUES frame) = length (FRM_VALUES built)
                     ∧ (∀ n, n ≠ ERR_CODE → n ≠ ERR_TYPE → n ≠ ERR_ID →
                             n ≠ ERR_MESSAGE →
                             FRM_VALUE frame n = FRM_VALUE built n)) as Hfin.
  { intros built out. unfold finish.
    destruct (reconcile arg built) as [|f] eqn:Hrec; [done|].
    intros [= <-]. exists f. split; [done|]. by apply (reconcile_completed arg). }
  assert (∀ frame out, finish arg frame ≠ Returns_TRUE out) as Hnot.
  { intros frame out. unfold finish. by destruct (reconcile arg frame). }
  split; [|split; [|split]].
  - intros items evaluated -> Hdo. simpl. by rewrite Hdo.
  - intros out. destruct arg as [| | | | |items| | | |]; simpl; try done;
      try (by intros H; apply Hnot in H).
    destruct (DO_ARRAY_THROWS _ _) eqn:Hdo; try done.
    + by intros H; apply Hnot in H.
    + intros [= <-]. by exists items.
  - intros out. destruct arg as [| | | |s|items| |f|f|]; simpl; try done.
    + intros H. apply Hfin in H as (frame & -> & H).
      eexists _, frame. split; [done|]. split; [|exact H].
      right. right. by exists s.
    + destruct (DO_ARRAY_THROWS _ _) as [evaluated built| |] eqn:Hdo; try done.
      intros H. apply Hfin in H as (frame & -> & H).
      exists built, frame. split; [done|]. split; [|exact H].
      right. left. by exists items, evaluated.
    + intros H. apply Hfin in H as (frame & -> & H).
      eexists _, frame. split; [done|]. split; [|exact H].
      left. exists f. split; [by right | done].
    + intros H. apply Hfin in H as (frame & -> & H).
      eexists _, frame. split; [done|]. split; [|exact H].
      left. exists f. split; [by left | done].
  - intros Htrue Hfalse.
    destruct (Make_Error_Object_Throws arg) as [out|out|f]; [| |by exists f].
    + by destruct (Htrue out).
    + by destruct (Hfalse out).
Qed.

End WithBoot.

Lemma make_error_throws_witness :
  @Make_Error_Object_Throws Example.throwing (BLOCK [WORD Example.SYM_HALT])
  = Returns_TRUE (INTEGER 7)
  ∧ (∃ items,
       BLOCK [WORD Example.SYM_HALT] = BLOCK items
       ∧ @DO_ARRAY_THROWS Example.throwing
           (@Make_Object Example.throwing (@ROOT_ERROBJ Example.throwing) items)
           (BLOCK [WORD Example.SYM_HALT])
         = DO_THROWN (INTEGER 7))
  ∧ ∃ built frame,
      ERROR
        (Frame (FRM_KEYLIST Example.template)
           [OTHER REB_FRAME; INTEGER 1000; WORD Example.SYM_USER;
            WORD Example.SYM_MESSAGE; STRING "oops"; NONE; NONE])
      = ERROR frame
      ∧ ((∃ f, (STRING "oops" = ERROR f ∨ STRING "oops" = OBJECT f)
               ∧ built = @Merge_Frames Example.boot Example.template f)
         ∨ (∃ items evaluated,
              STRING "oops" = BLOCK items
              ∧ @DO_ARRAY_THROWS Example.boot
                  (@Make_Object Example.boot Example.template items) (STRING "oops")
                = DO_DONE evaluated built)
         ∨ (∃ s, STRING "oops" = STRING s
                 ∧ built = set_value ERR_MESSAGE (STRING s) Example.template))
      ∧ IS_INTEGER (FRM_VALUE frame ERR_CODE) = true
      ∧ FRM_KEYLIST frame = FRM_KEYLIST built
      ∧ length (FRM_VALUES frame) = length (FRM_VALUES built)
      ∧ (∀ n, n ≠ ERR_CODE → n ≠ ERR_TYPE → n ≠ ERR_ID → n ≠ ERR_MESSAGE →
              FRM_VALUE frame n = FRM_VALUE built n).
Proof.
  split; [|split].
  - apply (proj1 (@make_error_throws Example.throwing (BLOCK [WORD Example.SYM_HALT]))
             [WORD Example.SYM_HALT] (INTEGER 7));
      reflexivity.
  - apply (proj1 (proj2 (@make_error_throws Example.throwing
                           (BLOCK [WORD Example.SYM_HALT])))
             (INTEGER 7)).
    reflexivity.
  - apply (proj1 (proj2 (proj2 (@make_error_throws Example.boot (STRING "oops"))))).
    reflexivity.
Defined.

(** C5, the claim as it is written, fails on the block
    [code: 300 message: "mine"]: its evaluation throws nothing and raises
    nothing, and the routine does not return FALSE with an error, it fails
    with the invalid-error diagnosis on the block, because an error below
    [RE_USER] may not bring a message of its own. *)
Lemma make_error_block_fails :
  (∃ evaluated frame,
     @DO_ARRAY_THROWS Example.assigning
       (@Make_Object Example.assigning (@ROOT_ERROBJ Example.assigning)
          [ANY_WORD REB_SET_WORD Example.SYM_CODE; INTEGER 300;
           ANY_WORD REB_SET_WORD Example.SYM_MESSAGE; STRING "mine"])
       Example.own_message
     = DO_DONE evaluated frame)
  ∧ @Make_Error_Object_Throws Example.assigning Example.own_message
    = Fails (Error 329 Example.own_message)
  ∧ (∀ out, @Make_Error_Object_Throws Example.assigning Example.own_message
            ≠ Returns_FALSE out)
  ∧ (∀ out, @Make_Error_Object_Throws Example.assigning Example.own_message
            ≠ Returns_TRUE out).
Proof. split; [by eexists _, _|]. by repeat split. Qed.

(** C2, at an object that forges the type of error 300.  The type field
    holds the set-word [script:], not the word that the catalog has, and the
    error is made all the same: the test of c-error.c:612 looks at the id
    field, which was just overwritten with the word of the catalog.  The
    same set-word in the id field is refused by the test of line 600. *)
Theorem forged_type_accepted :
  @Make_Error_Object_Throws Example.boot Example.forged_type
  = Returns_FALSE
      (ERROR
         (Frame (FRM_KEYLIST Example.template)
            [OTHER REB_FRAME; INTEGER 300; WORD Example.SYM_SCRIPT;
             WORD Example.SYM_NO_VALUE;
             BLOCK [ANY_WORD REB_GET_WORD Example.SYM_ARG1; STRING "has no value"];
             NONE; NONE]))
  ∧ IS_WORD (ANY_WORD REB_SET_WORD Example.SYM_SCRIPT) = false
  ∧ @Make_Error_Object_Throws Example.boot Example.forged_id
    = Fails (Error 329 Example.forged_id).
Proof. by repeat split. Qed.

Lemma make_error_from_string_witness :
  ∃ frame,
    @Make_Error_Object_Throws Example.boot (STRING "oops")
    = Returns_FALSE (ERROR frame)
    ∧ FRM_VALUE frame ERR_MESSAGE = STRING "oops"
    ∧ FRM_VALUE frame ERR_TYPE = WORD Example.SYM_USER
    ∧ FRM_VALUE frame ERR_ID = WORD Example.SYM_MESSAGE
    ∧ FRM_VALUE frame ERR_CODE = INTEGER RE_USER.
Proof.
  apply (@make_error_from_string Example.boot Example.SYM_USER Example.SYM_MESSAGE);
    reflexivity.
Defined.

End ErrorFacts.

(** ** Parameter lists *)

Section FuncFacts.
Import Func.
Context `{B : Boot}.

Implicit Types (w : word_kind * REBSYM) (s : scan).

Lemma collect_keys_words items : ∀ seen keys,
  collect_keys seen items = inr keys →
  keys = key_cell <$> spec_words items
  ∧ NoDup ((λ w, SYMBOL_TO_CANON w.2) <$> spec_words items)
  ∧ (∀ w, w ∈ spec_words items → SYMBOL_TO_CANON w.2 ∉ seen).
Proof.
  induction items as [|item items IH]; intros seen keys Hc; simpl in Hc.
  - injection Hc as <-. repeat split; [constructor | intros w Hw; inversion Hw].
  - destruct item as [| | |k str|a i|k sym|sym bits e|k]; simpl; try by apply IH.
    destruct (bool_decide (SYMBOL_TO_CANON sym ∈ seen)) eqn:Hseen; [done|].
    apply bool_decide_eq_false in Hseen.
    destruct (collect_keys _ items) as [|keys'] eqn:Hrest; [done|].
    injection Hc as <-.
    destruct (IH _ _ Hrest) as (-> & Hnd & Hfresh).
    repeat split.
    + constructor; [|done].
      intros Hin. apply list_elem_of_fmap in Hin as (w & Hw1 & Hw2).
      apply (Hfresh w Hw2). rewrite <- Hw1. by left.
    + intros w Hw. apply elem_of_cons in Hw as [->|Hw]; [done|].
      intros Hin. apply (Hfresh w Hw). by right.
Qed.

Lemma param_key_set_bits bits v : param_key (set_TYPESET_BITS bits v) = param_key v.
Proof. by destruct v. Qed.

Lemma alter_middle {A} (f : A → A) (l1 : list A) x l2 :
  list_alter f (length l1) (l1 ++ x :: l2) = l1 ++ f x :: l2.
Proof. induction l1 as [|y l1 IH]; simpl; [done|]. by rewrite IH. Qed.

Lemma insert_middle {A} (l1 : list A) x y l2 :
  list_insert (length l1) y (l1 ++ x :: l2) = l1 ++ y :: l2.
Proof. induction l1 as [|z l1 IH]; simpl; [done|]. f_equal. exact IH. Qed.

(** A type block after a parameter touches the type bits of one slot. *)
Lemma scanned_block opt pre rest s bits :
  typeset s ≠ 0%nat →
  scanned opt pre rest s →
  scanned opt pre rest
    {| paramlist := alter (set_TYPESET_BITS bits) (typeset s) (paramlist s);
       typeset := typeset s;
       bubble := bubble s |}.
Proof.
  intros Hk [h P Hb Ht Hp HP Hpre | h P x before b after Hpre Hopt Hb Ht Hp HP].
  - destruct P as [|p P _] using rev_ind; [done|].
    rewrite length_app in Ht. simpl in Ht.
    apply (scanned_plain _ _ _ _ h (P ++ [set_TYPESET_BITS bits p])); simpl; try done.
    + rewrite length_app. simpl. lia.
    + rewrite Hp, Ht. replace (length P + 1)%nat with (S (length P)) by lia.
      simpl. rewrite <- !app_assoc. simpl. f_equal. apply alter_middle.
    + rewrite <- HP, !fmap_app. simpl. by rewrite param_key_set_bits.
  - apply (scanned_bubbled _ _ _ _ h P (set_TYPESET_BITS bits x) before b after);
      simpl; try done.
    rewrite Hp, Ht. simpl. f_equal. apply alter_middle.
Qed.

(** A word takes the next key; its entry goes into the bubble, closes the
    gap behind the bubble, or stays where it is. *)
Lemma scanned_word opt pre k sym rest s s' :
  (∀ w, w ∈ pre → SYMBOL_TO_CANON w.2 ≠ SYMBOL_TO_CANON sym) →
  scan_item opt (ANY_WORD k sym) s = inr s' →
  scanned opt pre ((k, sym) :: rest) s →
  scanned opt (pre ++ [(k, sym)]) rest s'.
Proof.
  intros Hfresh Hitem Hs.
  assert (∃ h Q, paramlist s = h :: Q ++ key_cell (k, sym) :: (key_cell <$> rest)
                 ∧ length Q = typeset s) as (h & Q & Hp & HQ).
  { destruct Hs as [h P Hb Ht Hp HP Hpre | h P x before b after Hpre Hopt Hb Ht Hp HP].
    - by exists h, P.
    - exists h, (P ++ [x]). rewrite <- app_assoc, length_app. simpl. split; [done|lia]. }
  unfold scan_item in Hitem. rewrite Hp, <- HQ in Hitem.
  set (R := key_cell <$> rest) in *.
  assert (∃ c, param_key c = declared_key (k, sym)
               ∧ VAL_TYPESET_SYM c = sym
               ∧ NOT_END c = true
               ∧ (if bool_decide (VAL_TYPESET_CANON c = opt)
                  then inr {| paramlist := h :: Q ++ c :: R;
                              typeset := S (length Q); bubble := c |}
                  else if NOT_END (bubble s)
                  then inr {| paramlist :=
                                <[(S (length Q) - 1)%nat := c]> (h :: Q ++ c :: R);
                              typeset := S (length Q); bubble := bubble s |}
                  else inr {| paramlist := h :: Q ++ c :: R;
                              typeset := S (length Q); bubble := bubble s |})
                 = (inr s' : failure + scan)) as (c & Hkey & Hsym & Hend & Hres).
  { destruct k; simpl in Hitem; rewrite ?alter_middle in Hitem; try done;
      rewrite nth_middle in Hitem; eexists; (split; [|split; [|split; [|exact Hitem]]]);
      reflexivity. }
  clear Hitem. unfold VAL_TYPESET_CANON in Hres. rewrite Hsym in Hres.
  destruct Hs as [h' P Hb Ht Hp' HP Hpre | h' P x before b after Hpre Hopt Hb Ht Hp' HP].
  - (* nothing in the bubble yet *)
    assert (h' = h ∧ P = Q) as [-> ->].
    { rewrite Hp in Hp'. injection Hp' as -> Happ.
      apply app_inj_1 in Happ as [-> _]; [done | lia]. }
    rewrite Hb in Hres. simpl in Hres.
    destruct (bool_decide (SYMBOL_TO_CANON sym = opt)) eqn:Hopt.
    + apply bool_decide_eq_true in Hopt. injection Hres as <-.
      apply (scanned_bubbled _ _ _ _ h Q c pre (k, sym) []); simpl; try done.
      by rewrite app_nil_r.
    + apply bool_decide_eq_false in Hopt. injection Hres as <-.
      apply (scanned_plain _ _ _ _ h (Q ++ [c])); simpl; try done.
      * rewrite length_app. simpl. lia.
      * by rewrite <- app_assoc.
      * rewrite !fmap_app. simpl. by rewrite HP, Hkey.
      * intros w Hw. apply elem_of_app in Hw as [Hw|Hw]; [by apply Hpre|].
        apply list_elem_of_singleton in Hw as ->. done.
  - (* the bubble is taken *)
    assert (h' = h ∧ Q = P ++ [x]) as [-> ->].
    { rewrite Hp in Hp'. injection Hp' as -> Happ.
      assert (Q ++ key_cell (k, sym) :: R = (P ++ [x]) ++ key_cell (k, sym) :: R)
        as Heq by (by rewrite <- app_assoc).
      apply app_inj_1 in Heq as [-> _]; [done | rewrite length_app; simpl; lia]. }
    assert (NOT_END (bubble s) = true) as Hne.
    { destruct (bubble s); try done. }
    rewrite Hne in Hres.
    destruct (bool_decide (SYMBOL_TO_CANON sym = opt)) eqn:Hdup.
    + apply bool_decide_eq_true in Hdup. exfalso.
      apply (Hfresh b); [|congruence].
      rewrite Hpre. apply elem_of_app. right. by left.
    + injection Hres as <-.
      apply (scanned_bubbled _ _ _ _ h (P ++ [c]) c before b (after ++ [(k, sym)]));
        simpl; try done.
      * by rewrite Hpre, <- app_assoc.
      * rewrite !length_app. simpl. lia.
      * rewrite length_app. simpl.
        replace (length P + 1 - 0)%nat with (S (length P)) by lia.
        rewrite <- !app_assoc. simpl. f_equal.
        apply insert_middle.
      * rewrite app_assoc, !fmap_app. simpl. by rewrite <- fmap_app, HP, Hkey.
Qed.

Lemma scan_spec_scanned opt items : ∀ s s' pre,
  NoDup ((λ w, SYMBOL_TO_CANON w.2) <$> (pre ++ spec_words items)) →
  scan_spec opt items s = inr s' →
  scanned opt pre (spec_words items) s →
  scanned opt (pre ++ spec_words items) [] s'.
Proof.
  induction items as [|item items IH]; intros s s' pre Hnd Hscan Hs; simpl in *.
  - injection Hscan as <-. by rewrite app_nil_r.
  - destruct (scan_item opt item s) as [|s1] eqn:Hitem; [done|].
    destruct item as [| | |k str|a i|k sym|sym bits e|k]; try done.
    + (* a string *)
      injection Hitem as <-. by apply (IH s).
    + (* a block *)
      simpl in Hitem.
      destruct (bool_decide (typeset s = 0%nat)) eqn:Hzero; simpl in Hitem.
      * destruct (forallb attribute_ok (drop i a)); [|done].
        injection Hitem as <-. by apply (IH s).
      * apply bool_decide_eq_false in Hzero.
        destruct (Make_Typeset a) as [bits|]; [|done].
        injection Hitem as <-.
        eapply IH; [done | exact Hscan |]. by apply scanned_block.
    + (* a word *)
      simpl in Hnd.
      replace (pre ++ (k, sym) :: spec_words items)
        with ((pre ++ [(k, sym)]) ++ spec_words items) in * by (by rewrite <- app_assoc).
      apply (IH s1); [done..|].
      apply (scanned_word opt pre k sym _ s); [|done..].
      intros w Hw Heq.
      rewrite !fmap_app in Hnd. apply NoDup_app in Hnd as [Hnd _].
      apply NoDup_app in Hnd as (_ & Hdis & _).
      apply (Hdis (SYMBOL_TO_CANON w.2)).
      * by apply (list_elem_of_fmap_2 (λ w, SYMBOL_TO_CANON w.2)).
      * simpl. rewrite Heq. by left.
Qed.

(** C3. When the bubble symbol is requested and a declared parameter has
    it, the parameter list that comes out of a spec holds, after slot 0, the
    entries (symbol and class) of the other parameters in the order of their
    declaration and then, in the last slot, the entry of that parameter. *)
Theorem paramlist_bubble (spec : list REBVAL) (opt_sym_last : REBSYM)
    (params : list REBVAL) :
  opt_sym_last ≠ SYM_0 →
  (∃ w, w ∈ spec_words spec ∧ SYMBOL_TO_CANON w.2 = opt_sym_last) →
  Make_Paramlist_Managed spec opt_sym_last = inr params →
  ∃ before b after,
    spec_words spec = before ++ b :: after
    ∧ SYMBOL_TO_CANON b.2 = opt_sym_last
    ∧ (∀ w, w ∈ before ++ after → SYMBOL_TO_CANON w.2 ≠ opt_sym_last)
    ∧ param_key <$> tl params = declared_key <$> (before ++ after ++ [b])
    ∧ last params ≫= param_key = declared_key b.
Proof.
  intros Hopt (wb & Hwb & Hcanon) Hmake.
  unfold Make_Paramlist_Managed, Collect_Keylist_Managed in Hmake.
  destruct (collect_keys [] spec) as [|keys] eqn:Hkeys; [done|].
  destruct (collect_keys_words _ _ _ Hkeys) as (-> & Hnd & _).
  destruct (scan_spec _ _ _) as [|s] eqn:Hscan; [done|].
  rewrite bool_decide_false in Hmake by done. simpl in Hmake.
  injection Hmake as <-.
  assert (scanned opt_sym_last [] (spec_words spec)
            {| paramlist := TRASH :: (key_cell <$> spec_words spec);
               typeset := 0; bubble := END |}) as Hstart.
  { apply (scanned_plain _ _ _ _ TRASH []); try done. intros w Hw. inversion Hw. }
  apply (scan_spec_scanned _ _ _ _ [] Hnd Hscan) in Hstart. simpl in Hstart.
  destruct Hstart as [h P Hb Ht Hp HP Hpre | h P x before b after Hpre Hb Hkey Ht Hp HP].
  - by destruct (Hpre wb Hwb).
  - exists before, b, after. split; [done|]. split; [done|].
    assert (NoDup ((λ w, SYMBOL_TO_CANON w.2) <$> before ++ b :: after)) as Hnd'
      by (by rewrite <- Hpre).
    split.
    { intros w Hw Hdup.
      rewrite fmap_app, fmap_cons in Hnd'.
      apply NoDup_app in Hnd' as (_ & Hdis & Hnd').
      apply NoDup_cons in Hnd' as [Hnotin _].
      apply elem_of_app in Hw as [Hw|Hw].
      - apply (Hdis (SYMBOL_TO_CANON w.2)).
        + by apply (list_elem_of_fmap_2 (λ w, SYMBOL_TO_CANON w.2)).
        + rewrite Hdup, <- Hb. by left.
      - apply Hnotin. rewrite Hb, <- Hdup.
        by apply (list_elem_of_fmap_2 (λ w, SYMBOL_TO_CANON w.2)). }
    rewrite Hp, Ht. simpl.
    pose proof (insert_middle P x (bubble s) []) as Hins. simpl in Hins.
    change (list_insert (length P) (bubble s) (P ++ [x]))
      with (<[length P := bubble s]> (P ++ [x])) in Hins.
    rewrite Hins. split.
    + rewrite app_assoc, !fmap_app. simpl. by rewrite HP, Hkey, fmap_app.
    + change (h :: P ++ [bubble s]) with ([h] ++ P ++ [bubble s]).
      rewrite app_assoc, last_snoc. simpl. done.
Qed.

End FuncFacts.

Lemma paramlist_bubble_witness :
  ∃ before b after,
    Func.spec_words Func.Example.spec = before ++ b :: after
    ∧ b.2 = Func.Example.SYM_RETURN
    ∧ (∀ w, w ∈ before ++ after → w.2 ≠ Func.Example.SYM_RETURN)
    ∧ Func.param_key <$> tl Func.Example.bubbled
      = Func.declared_key <$> (before ++ after ++ [b])
    ∧ last Func.Example.bubbled ≫= Func.param_key = Func.declared_key b.
Proof.
  apply (@paramlist_bubble Func.Example.boot Func.Example.spec
           Func.Example.SYM_RETURN Func.Example.bubbled).
  - discriminate.
  - exists (REB_SET_WORD, Func.Example.SYM_RETURN). split; [|reflexivity].
    apply list_elem_of_further, list_elem_of_here.
  - reflexivity.
Defined.

Example bubbled_example :
  Func.param_key <$> tl Func.Example.bubbled
  = [Some (Func.Example.SYM_A, Func.param_class REB_WORD);
     Some (Func.Example.SYM_REF, Func.param_class REB_REFINEMENT);
     Some (Func.Example.SYM_B, Func.param_class REB_WORD);
     Some (Func.Example.SYM_RETURN, Func.param_class REB_SET_WORD)].
Proof. reflexivity. Qed.

Section MakeFunction.
Import Func.
Context `{B : Boot}.

(** C4, on the code.  For the spec [return: [integer!]] the generator keeps
    its definitional return: the set-word passes the scan untouched, a second
    [return:] is appended to the copy of the spec, and the collector of the
    keys then meets the symbol twice, so that the maker fails. *)
Theorem make_function_return_spec (type : func_kind) (integer_x : REBSYM)
    (body : list REBVAL) (index : nat) :
  let spec :=
    BLOCK [ANY_WORD REB_SET_WORD SYM_RETURN;
           BLOCK [ANY_WORD REB_WORD integer_x] 0] 0 in
  function_spec spec true
  = inr ([ANY_WORD REB_SET_WORD SYM_RETURN;
          BLOCK [ANY_WORD REB_WORD integer_x] 0;
          ANY_WORD REB_SET_WORD SYM_RETURN],
         {| out_spec := None; has_return := true;
            convert_local := false; func_infix := false |})
  ∧ Make_Function type spec (BLOCK body index) true
    = inl (Error_Duplicate (ANY_WORD REB_SET_WORD SYM_RETURN)).
Proof.
  split; [reflexivity|].
  unfold Make_Function. simpl.
  unfold Make_Paramlist_Managed, Collect_Keylist_Managed. simpl.
  rewrite bool_decide_true by apply list_elem_of_here. reflexivity.
Qed.

End MakeFunction.

(** ** Objects *)

Section ObjectFacts.
Import Object.
Context {cell : Type} (END_VALUE : cell) (Cmp_Value : cell → cell → bool → Z).

Implicit Types (val arg : REBVAL cell) (f : REBSER cell).

Lemma tail_range (s : list cell) : 0 <= tail s < 2 ^ 32.
Proof. apply REBCNT_of_range. Qed.

(** The loop compares the entries from 1 up to the bound. *)
Lemma entries_equal_iff f1 f2 bound :
  entries_equal END_VALUE Cmp_Value f1 f2 bound = true ↔
  ∀ n : nat, (1 <= n)%nat → Z.of_nat n < bound →
    Cmp_Value (BLK_SKIP END_VALUE (FRM_WORD_SERIES f1) n)
              (BLK_SKIP END_VALUE (FRM_WORD_SERIES f2) n) false = 0
    ∧ Cmp_Value (BLK_SKIP END_VALUE (values f1) n)
                (BLK_SKIP END_VALUE (values f2) n) false = 0.
Proof.
  unfold entries_equal. rewrite forallb_forall. split.
  - intros H n Hn Hb.
    specialize (H n). rewrite andb_true_iff, !Z.eqb_eq in H. apply H.
    apply in_seq. lia.
  - intros H n Hin. apply in_seq in Hin.
    rewrite andb_true_iff, !Z.eqb_eq. apply H; lia.
Qed.

Lemma BLK_SKIP_poke (s : list cell) (x : cell) (n : nat) :
  (1 <= n)%nat → BLK_SKIP END_VALUE (<[0%nat := x]> s) n = BLK_SKIP END_VALUE s n.
Proof.
  intros Hn. unfold BLK_SKIP. rewrite !nth_lookup.
  by rewrite list_lookup_insert_ne by lia.
Qed.

Lemma tail_poke (s : list cell) (x : cell) : tail (<[0%nat := x]> s) = tail s.
Proof. unfold tail. by rewrite length_insert. Qed.

Lemma Equal_Object_iff val arg :
  tail (values (VAL_OBJ_FRAME val)) < 2 ^ 31 →
  Equal_Object END_VALUE Cmp_Value val arg = true ↔
  VAL_TYPE arg = VAL_TYPE val
  ∧ (node (VAL_OBJ_FRAME val) = node (VAL_OBJ_FRAME arg)
     ∨ (tail (values (VAL_OBJ_FRAME val)) = tail (values (VAL_OBJ_FRAME arg))
        ∧ tail (FRM_WORD_SERIES (VAL_OBJ_FRAME val))
          = tail (FRM_WORD_SERIES (VAL_OBJ_FRAME arg))
        ∧ ∀ n : nat, (1 <= n)%nat →
            Z.of_nat n < tail (values (VAL_OBJ_FRAME val)) →
            Cmp_Value (BLK_SKIP END_VALUE (FRM_WORD_SERIES (VAL_OBJ_FRAME val)) n)
                      (BLK_SKIP END_VALUE (FRM_WORD_SERIES (VAL_OBJ_FRAME arg)) n)
                      false = 0
            ∧ Cmp_Value (BLK_SKIP END_VALUE (values (VAL_OBJ_FRAME val)) n)
                        (BLK_SKIP END_VALUE (values (VAL_OBJ_FRAME arg)) n)
                        false = 0)).
Proof.
  intros Hsmall.
  pose proof (tail_range (values (VAL_OBJ_FRAME val))) as Hrange.
  unfold Equal_Object, same_node.
  rewrite REBINT_of_small by lia.
  destruct (decide (VAL_TYPE arg = VAL_TYPE val)) as [Hty|Hty].
  2:{ rewrite (bool_decide_false (VAL_TYPE arg = VAL_TYPE val)) by done. simpl.
      split; [done | by intros [? _]]. }
  rewrite (bool_decide_true (VAL_TYPE arg = VAL_TYPE val)) by done. simpl.
  destruct (decide (node (VAL_OBJ_FRAME val) = node (VAL_OBJ_FRAME arg))) as [Hn|Hn].
  { rewrite bool_decide_true by done. split; [by auto | done]. }
  rewrite bool_decide_false by done.
  destruct (Z.eqb_spec (tail (values (VAL_OBJ_FRAME val)))
                       (tail (values (VAL_OBJ_FRAME arg)))) as [Ht|Ht]; simpl.
  2:{ split; [done | intros [_ [?|[? _]]]; done]. }
  destruct (Z.eqb_spec (tail (FRM_WORD_SERIES (VAL_OBJ_FRAME val)))
                       (tail (FRM_WORD_SERIES (VAL_OBJ_FRAME arg)))) as [Hw|Hw]; simpl.
  2:{ split; [done | intros [_ [?|(_ & ? & _)]]; done]. }
  rewrite entries_equal_iff. split.
  - intros H. split; [done|]. right. split; [done|]. split; [done | exact H].
  - intros [_ [?|(_ & _ & H)]]; done.
Qed.

Lemma entries_equal_poke f1 f2 bound (x1 w1 x2 w2 : cell) :
  entries_equal END_VALUE Cmp_Value
    {| node := node f1; values := <[0%nat := x1]> (values f1);
       FRM_WORD_SERIES := <[0%nat := w1]> (FRM_WORD_SERIES f1) |}
    {| node := node f2; values := <[0%nat := x2]> (values f2);
       FRM_WORD_SERIES := <[0%nat := w2]> (FRM_WORD_SERIES f2) |} bound
  = entries_equal END_VALUE Cmp_Value f1 f2 bound.
Proof.
  apply eq_true_iff_eq. rewrite !entries_equal_iff. simpl.
  split; intros H n Hn Hb; specialize (H n Hn Hb);
    by rewrite !BLK_SKIP_poke in * by done.
Qed.

(** C9, as the code has it.  With a frame tail that fits a [REBINT], two
    cells are equal exactly when they have the same datatype and either
    share their frame or have frames and word series of equal tails whose
    words and values from index 1 on compare equal pair by pair; what slot 0
    of either series holds changes nothing; the modes from 0 on other than 3
    answer with that equality; and mode 3 answers 1 exactly when the
    datatypes are the same and the frame pointers are. *)
Theorem object_equality val arg :
  tail (values (VAL_OBJ_FRAME val)) < 2 ^ 31 →
  (Equal_Object END_VALUE Cmp_Value val arg = true ↔
   VAL_TYPE arg = VAL_TYPE val
   ∧ (node (VAL_OBJ_FRAME val) = node (VAL_OBJ_FRAME arg)
      ∨ (tail (values (VAL_OBJ_FRAME val)) = tail (values (VAL_OBJ_FRAME arg))
         ∧ tail (FRM_WORD_SERIES (VAL_OBJ_FRAME val))
           = tail (FRM_WORD_SERIES (VAL_OBJ_FRAME arg))
         ∧ ∀ n : nat, (1 <= n)%nat →
             Z.of_nat n < tail (values (VAL_OBJ_FRAME val)) →
             Cmp_Value (BLK_SKIP END_VALUE (FRM_WORD_SERIES (VAL_OBJ_FRAME val)) n)
                       (BLK_SKIP END_VALUE (FRM_WORD_SERIES (VAL_OBJ_FRAME arg)) n)
                       false = 0
             ∧ Cmp_Value (BLK_SKIP END_VALUE (values (VAL_OBJ_FRAME val)) n)
                         (BLK_SKIP END_VALUE (values (VAL_OBJ_FRAME arg)) n)
                         false = 0)))
  ∧ (∀ self1 word1 self2 word2,
       Equal_Object END_VALUE Cmp_Value
         (poke_self self1 word1 val) (poke_self self2 word2 arg)
       = Equal_Object END_VALUE Cmp_Value val arg)
  ∧ (∀ mode, 0 <= mode → mode ≠ 3 →
       CT_Object END_VALUE Cmp_Value val arg mode
       = Z.b2z (Equal_Object END_VALUE Cmp_Value val arg))
  ∧ (CT_Object END_VALUE Cmp_Value val arg 3 = 1 ↔
     VAL_TYPE arg = VAL_TYPE val
     ∧ node (VAL_OBJ_FRAME val) = node (VAL_OBJ_FRAME arg)).
Proof.
  intros Hsmall. split; [by apply Equal_Object_iff|]. split; [|split].
  - intros self1 word1 self2 word2.
    unfold Equal_Object, poke_self, same_node. simpl.
    by rewrite !tail_poke, entries_equal_poke.
  - intros mode Hmode Hne. unfold CT_Object.
    destruct (Z.ltb_spec mode 0); [lia|].
    by destruct (Z.eqb_spec mode 3).
  - unfold CT_Object, Same_Object, same_node. simpl.
    destruct (decide (VAL_TYPE arg = VAL_TYPE val)) as [Hty|Hty].
    + rewrite (bool_decide_true (VAL_TYPE arg = VAL_TYPE val)) by done. simpl.
      destruct (decide (node (VAL_OBJ_FRAME val) = node (VAL_OBJ_FRAME arg))).
      * by rewrite bool_decide_true by done.
      * rewrite bool_decide_false by done. simpl. split; [done | by intros [_ ?]].
    + rewrite (bool_decide_false (VAL_TYPE arg = VAL_TYPE val)) by done. simpl.
      split; [done | by intros [? _]].
Qed.

(** C10. The frame of an object has its slot 0, and LENGTH? answers with
    the tail of the frame less that one slot, TAIL? with whether that count
    is zero. *)
Theorem object_length_tail (value : REBVAL cell) :
  IS_OBJECT value = true →
  1 <= tail (values (VAL_OBJ_FRAME value)) →
  T_Object value A_LENGTHQ
  = R_OUT_INTEGER (tail (values (VAL_OBJ_FRAME value)) - 1)
  ∧ T_Object value A_TAILQ
    = R_OUT_LOGIC (tail (values (VAL_OBJ_FRAME value)) - 1 =? 0)
  ∧ (tail (values (VAL_OBJ_FRAME value)) - 1 =? 0)
    = (tail (values (VAL_OBJ_FRAME value)) <=? 1).
Proof.
  intros Hobj Hself.
  pose proof (tail_range (values (VAL_OBJ_FRAME value))) as Hrange.
  assert ((tail (values (VAL_OBJ_FRAME value)) - 1 =? 0)
          = (tail (values (VAL_OBJ_FRAME value)) <=? 1)) as Heq.
  { destruct (Z.eqb_spec (tail (values (VAL_OBJ_FRAME value)) - 1) 0);
      destruct (Z.leb_spec (tail (values (VAL_OBJ_FRAME value))) 1); lia. }
  unfold T_Object. rewrite Hobj.
  rewrite REBCNT_of_small by lia. by rewrite Heq.
Qed.

End ObjectFacts.

(** C9, the claim as it is written, fails in mode 3 on an object and an
    error over one frame: the frame pointers are the same and the answer is
    0, because [Same_Object] compares the datatypes first. *)
Lemma same_object_checks_type :
  Object.node (Object.VAL_OBJ_FRAME Object.Example.an_object)
  = Object.node (Object.VAL_OBJ_FRAME Object.Example.an_error)
  ∧ Object.CT_Object 0%nat Object.Example.Cmp
      Object.Example.an_object Object.Example.an_error 3 = 0.
Proof. by split. Qed.

Lemma object_equality_witness :
  Object.Equal_Object 0%nat Object.Example.Cmp
    (Object.poke_self 1%nat 2%nat Object.Example.an_object)
    (Object.poke_self 3%nat 4%nat Object.Example.an_object)
  = Object.Equal_Object 0%nat Object.Example.Cmp
      Object.Example.an_object Object.Example.an_object.
Proof.
  apply (object_equality 0%nat Object.Example.Cmp
           Object.Example.an_object Object.Example.an_object).
  reflexivity.
Defined.

Lemma object_length_tail_witness :
  Object.T_Object Object.Example.an_object Object.A_LENGTHQ = Object.R_OUT_INTEGER 2
  ∧ Object.T_Object Object.Example.an_object Object.A_TAILQ = Object.R_OUT_LOGIC false.
Proof.
  destruct (object_length_tail Object.Example.an_object) as (H1 & H2 & _).
  - reflexivity.
  - discriminate.
  - split; [exact H1 | exact H2].
Defined.

(** * Further properties *)

(** ** The trap stack: what the unwinding needs and what it leaves alone *)

Section UnwindFacts.
Import Trap.

Lemma free_calls_split target cs cs' :
  free_calls target cs = Some cs' →
  ∃ freed, cs = freed ++ cs' ∧ (target ∉ freed) ∧ hd NULL cs' = target.
Proof.
  revert cs'. induction cs as [|c cs IH]; intros cs' H; simpl in H.
  - destruct (decide (NULL = target)) as [<- | ]; [|done].
    injection H as <-. exists []. repeat split. apply not_elem_of_nil.
  - destruct (decide (c = target)) as [-> | Hne].
    + injection H as <-. exists []. repeat split. apply not_elem_of_nil.
    + destruct (IH _ H) as (freed & -> & Hnot & Hhd).
      exists (c :: freed). repeat split; [|done].
      intros Hin. apply elem_of_cons in Hin as [?|?]; [by apply Hne|done].
Qed.

Lemma free_calls_defined target cs :
  target ∈ cs ∨ target = NULL → is_Some (free_calls target cs).
Proof.
  intros H. induction cs as [|c cs IH]; simpl.
  - destruct H as [H | ->]; [inversion H|]. by rewrite decide_True.
  - destruct (decide (c = target)) as [|Hne]; [done|].
    apply IH. destruct H as [H|H]; [|by right].
    apply elem_of_cons in H as [?|?]; [by destruct Hne | by left].
Qed.

Lemma free_calls_off_the_chain target cs :
  target ∉ cs → target ≠ NULL → free_calls target cs = None.
Proof.
  intros Hnot Hnull. induction cs as [|c cs IH]; simpl.
  - by rewrite decide_False.
  - rewrite decide_False by (intros ->; apply Hnot; by left).
    apply IH. intros Hin. apply Hnot. by right.
Qed.

Lemma length_Free_Series s t :
  length (GC_Manuals (Free_Series s t)) = pred (length (GC_Manuals t)).
Proof.
  unfold Free_Series. simpl.
  destruct (GC_Manuals t) as [|m ms _] using rev_ind; [done|].
  rewrite last_snoc.
  destruct (decide (m = s)).
  - rewrite removelast_last, length_app. simpl. lia.
  - rewrite map_app. simpl. rewrite removelast_last, length_map, length_app.
    simpl. lia.
Qed.

(** Below the saved tail the loop over the manual series cannot stop. *)
Lemma free_manuals_below rounds : ∀ target t,
  (length (GC_Manuals t) < target)%nat → free_manuals rounds target t = None.
Proof.
  induction rounds as [|k IH]; intros target t Hlt; simpl.
  - by rewrite decide_False by lia.
  - rewrite decide_False by lia.
    destruct (last (GC_Manuals t)) as [s|]; [|done].
    apply IH. rewrite length_Free_Series. lia.
Qed.

(** What a return of [Trapped_Helper_Halted] takes, and what it gives. *)
Lemma unwind_contract (RE_HALT : Z) (state : REBOL_STATE) (t : Task)
    (frame : ERROR_FRAME) :
  error_frame state = Some frame →
  dsf state ∈ CS t ∨ dsf state = NULL →
  (manuals_tail state <= length (GC_Manuals t))%nat →
  ∃ t' freed,
    Trapped_Helper_Halted RE_HALT state t
    = Some (Z.eqb (ERR_NUM frame) RE_HALT, t')
    ∧ CS t = freed ++ CS t' ∧ (dsf state ∉ freed) ∧ CS_Top t' = dsf state
    ∧ DSF t' = dsf state
    ∧ DSP t' = dsp state
    ∧ GC_Manuals t' = take (manuals_tail state) (GC_Manuals t)
    ∧ (∀ s, s ∈ series_pool t' ↔
            s ∈ series_pool t ∧ (s ∉ drop (manuals_tail state) (GC_Manuals t)))
    ∧ GC_Series_Guard t'
      = set_tail (series_guard_tail state) (GC_Series_Guard t)
    ∧ GC_Value_Guard t' = set_tail (value_guard_tail state) (GC_Value_Guard t)
    ∧ GC_Disabled t' = gc_disable state
    ∧ Saved_State t' = last_state state.
Proof.
  intros Herr Hdsf Hman.
  destruct (free_calls_defined _ _ Hdsf) as [cs Hcs].
  destruct (free_calls_split _ _ _ Hcs) as (freed & Hsplit & Hnot & Hhd).
  pose (t1 := {| DSP := dsp state; DSF := dsf state; CS := cs;
                 GC_Series_Guard := GC_Series_Guard t;
                 GC_Value_Guard := GC_Value_Guard t;
                 GC_Disabled := GC_Disabled t;
                 GC_Manuals := GC_Manuals t;
                 series_pool := series_pool t;
                 Saved_State := Saved_State t;
                 TASK_THROWN_ARG := TASK_THROWN_ARG t |}).
  destruct (free_manuals_added (drop (manuals_tail state) (GC_Manuals t)) t1
              (take (manuals_tail state) (GC_Manuals t))
              (length (GC_Manuals t)))
    as (t' & Hfm & Hm' & Hp' & HDSP & HDSF & HCS & HG1 & HG2 & _ & _).
  { simpl. by rewrite take_drop. }
  { rewrite length_drop. lia. }
  rewrite length_take, Nat.min_l in Hfm by done.
  eexists _, freed. split.
  { unfold Trapped_Helper_Halted. rewrite Herr, Hcs. fold t1.
    change (GC_Manuals t1) with (GC_Manuals t). rewrite Hfm. reflexivity. }
  simpl. rewrite Hm', HDSP, HDSF, HCS, HG1, HG2. simpl.
  split_and!; done.
Qed.

(** X1. [Trapped_Helper_Halted] comes back exactly when the state holds an
    error frame, the saved frame is [NULL] or still a chunk of the call
    stack, and the manual series have not dropped below the saved tail (the
    assertion of c-error.c:107); otherwise one of its loops runs off its
    list. *)
Theorem trapped_helper_defined (RE_HALT : Z) (state : REBOL_STATE) (t : Task) :
  Trapped_Helper_Halted RE_HALT state t = None ↔
  error_frame state = None
  ∨ ((dsf state ∉ CS t) ∧ dsf state ≠ NULL)
  ∨ (length (GC_Manuals t) < manuals_tail state)%nat.
Proof.
  split.
  - intros Hnone.
    destruct (error_frame state) as [frame|] eqn:Herr; [|by left].
    right.
    destruct (decide (dsf state ∈ CS t)) as [Hin|Hout].
    + right.
      destruct (decide (length (GC_Manuals t) < manuals_tail state)%nat); [done|].
      destruct (unwind_contract RE_HALT state t frame) as (t' & ? & Hret & _);
        [done | by left | lia | congruence].
    + destruct (decide (dsf state = NULL)) as [Hnull|]; [|by left].
      right.
      destruct (decide (length (GC_Manuals t) < manuals_tail state)%nat); [done|].
      destruct (unwind_contract RE_HALT state t frame) as (t' & ? & Hret & _);
        [done | by right | lia | congruence].
  - intros [Herr|[[Hout Hnull]|Hshort]]; unfold Trapped_Helper_Halted.
    + by rewrite Herr.
    + destruct (error_frame state); [|done].
      by rewrite free_calls_off_the_chain.
    + destruct (error_frame state); [|done].
      destruct (free_calls (dsf state) (CS t)); [|done].
      by rewrite free_manuals_below.
Qed.

Lemma first_split_unique (x : addr) (l1 l2 k1 k2 : list addr) :
  l1 ++ x :: l2 = k1 ++ x :: k2 → x ∉ l1 → x ∉ k1 → l1 = k1 ∧ l2 = k2.
Proof.
  revert k1. induction l1 as [|a l1 IH]; intros [|b k1] Heq H1 H2; simpl in *.
  - by injection Heq as ->.
  - injection Heq as -> _. destruct H2. by left.
  - injection Heq as -> _. destruct H1. by left.
  - injection Heq as -> Heq.
    destruct (IH k1 Heq) as [-> ->]; [|  |done].
    + intros ?. apply H1. by right.
    + intros ?. apply H2. by right.
Qed.

Lemma run_stack_ok ops : ∀ t t2, stack_ok t → run ops t = Some t2 → stack_ok t2.
Proof.
  induction ops as [|o ops IH]; intros t t2 Hok Hrun; simpl in Hrun.
  - by injection Hrun as <-.
  - destruct (step o t) as [t1|] eqn:Hstep; [|done].
    apply (IH t1); [|done]. destruct Hok as [Hdsf Hnull Hpool].
    destruct o as [s|c r|s|v|]; simpl in Hstep.
    + destruct (decide (s ∈ series_pool t)); [done|]. injection Hstep as <-.
      split; simpl; [done..|].
      intros x Hx. apply elem_of_app in Hx as [Hx|Hx].
      * right. by apply Hpool.
      * apply list_elem_of_singleton in Hx as ->. by left.
    + destruct (decide (c = NULL ∨ c ∈ CS t)) as [|Hfresh]; [done|].
      injection Hstep as <-. split; simpl; [| |done].
      * destruct r; [right; by left|]. destruct Hdsf as [Hd|Hd]; [by left|].
        right. by right.
      * intros Hin. apply elem_of_cons in Hin as [Hin|Hin]; [|done].
        apply Hfresh. by left.
    + by injection Hstep as <-.
    + by injection Hstep as <-.
    + by injection Hstep as <-.
Qed.

(** The running frame after a run is the one before it or a frame that the
    run pushed. *)
Lemma run_dsf ops : ∀ t t2,
  run ops t = Some t2 → DSF t2 = DSF t ∨ DSF t2 ∈ made_calls ops.
Proof.
  induction ops as [|o ops IH]; intros t t2 Hrun; simpl in Hrun.
  - injection Hrun as <-. by left.
  - destruct (step o t) as [t1|] eqn:Hstep; [|done].
    destruct (IH _ _ Hrun) as [Hd|Hd].
    + destruct o as [s|c r|s|v|]; simpl in Hstep.
      * destruct (decide (s ∈ series_pool t)); [done|]. injection Hstep as <-.
        by left.
      * destruct (decide (c = NULL ∨ c ∈ CS t)); [done|]. injection Hstep as <-.
        simpl in Hd. destruct r; [right; rewrite Hd; by left | by left].
      * injection Hstep as <-. by left.
      * injection Hstep as <-. by left.
      * injection Hstep as <-. by left.
    + right. destruct o as [s|c r|s|v|]; simpl; try done. by right.
Qed.

(** What the trapped jump of the innermost trap leaves of the task that
    the trap was pushed on. *)
Lemma fail_unwinds (RE_HALT : Z) (t t2 t3 : Task) (ops : list op)
    (frame : ERROR_FRAME) (halted : bool) :
  stack_ok t →
  run ops (Push_Trap_Helper t) = Some t2 →
  fail RE_HALT frame t2 = Some (halted, t3) →
  stack_ok t3
  ∧ (∃ pending, CS t = pending ++ CS t3 ∧ DSF t ∉ pending)
  ∧ (∀ s, s ∈ series_pool t3 ↔ s ∈ series_pool t)
  ∧ GC_Manuals t3 = GC_Manuals t
  ∧ DSF t3 = DSF t
  ∧ DSP t3 = DSP t
  ∧ Saved_State t3 = Saved_State t.
Proof.
  intros Hok Hrun Hfail.
  destruct (run_ran _ _ _ Hrun) as [Hs Hc Hm Hp Hcf Hsf]. simpl in *.
  destruct Hok as [Hdsf Hnull Hpool].
  unfold fail, Fail_Core in Hfail. rewrite Hs in Hfail. simpl in Hfail.
  match type of Hfail with
  | Trapped_Helper_Halted _ ?st ?tt = _ =>
      destruct (unwind_contract RE_HALT st tt frame)
        as (t' & freed & Hret & Hsplit & Hnot & Htop & HDSF & HDSP & Hman
            & Hpool' & _ & _ & _ & Hsaved)
  end.
  { done. }
  { simpl. rewrite Hc. destruct Hdsf as [->|Hin]; [by right|].
    left. apply elem_of_app. by right. }
  { simpl. rewrite Hm, length_app. lia. }
  rewrite Hret in Hfail. injection Hfail as _ <-. simpl in *.
  unfold CS_Top in Htop.
  rewrite Hm, take_app_length in Hman.
  rewrite Hm, drop_app_length in Hpool'.
  assert (∀ s, s ∈ series_pool t' ↔ s ∈ series_pool t) as Hsame.
  { intros s. rewrite Hpool', Hp. split.
    - intros [[?|?] ?]; done.
    - intros Hin. split; [by right|]. intros Hmade. by apply (Hsf s). }
  assert (∃ pending, CS t = pending ++ CS t' ∧ DSF t ∉ pending) as Hchain.
  { rewrite Hc in Hsplit.
    destruct Hdsf as [Hd|Hin].
    - exists (CS t). rewrite Hd in *. split; [|done].
      destruct (CS t') as [|c cs']; [by rewrite app_nil_r|].
      simpl in Htop. subst c. exfalso.
      assert (NULL ∈ rev (made_calls ops) ++ CS t) as Hin.
      { rewrite Hsplit. apply elem_of_app. right. by left. }
      apply elem_of_app in Hin as [Hin|Hin]; [|done].
      rewrite list_elem_of_In, <- in_rev, <- list_elem_of_In in Hin.
      by destruct (Hcf _ Hin).
    - apply list_elem_of_split_l in Hin as (p & q & Hpq & Hp').
      assert (DSF t ≠ NULL) as Hne.
      { intros Heq. apply Hnull. rewrite Hpq, <- Heq.
        apply elem_of_app. right. by left. }
      destruct (CS t') as [|c cs'] eqn:Hcs'; [done|]. simpl in Htop. subst c.
      rewrite Hpq, app_assoc in Hsplit.
      apply first_split_unique in Hsplit as [_ ->]; [|  |done].
      + exists p. by rewrite Hpq.
      + intros Hin. apply elem_of_app in Hin as [Hin|Hin]; [|done].
        rewrite list_elem_of_In, <- in_rev, <- list_elem_of_In in Hin.
        destruct (Hcf _ Hin) as [_ Hno]. apply Hno. rewrite Hpq.
        apply elem_of_app. right. by left. }
  split_and!; try done.
  destruct Hchain as (pending & Hpend & _).
  split.
  - rewrite HDSF. destruct Hdsf as [?|Hin]; [by left|]. right.
    destruct (decide (DSF t = NULL)) as [Heq|Hne].
    { exfalso. apply Hnull. by rewrite <- Heq. }
    destruct (CS t') as [|c cs']; [done|]. simpl in Htop. subst c. by left.
  - intros Hin. apply Hnull. rewrite Hpend. apply elem_of_app. by right.
  - intros s Hin. rewrite Hman in Hin. apply Hsame. by apply Hpool.
Qed.

(** X2. The trapped jump frees nothing that is older than the trap: the
    allocated series are those of the push, the call stack is the one of the
    push less the chunks that were pending above the running frame (all of
    it when the running frame was the top), and the task is well formed
    again. *)
Theorem unwind_keeps_older (RE_HALT : Z) (t t2 t3 : Task) (ops : list op)
    (frame : ERROR_FRAME) (halted : bool) :
  stack_ok t →
  run ops (Push_Trap_Helper t) = Some t2 →
  fail RE_HALT frame t2 = Some (halted, t3) →
  stack_ok t3
  ∧ (∃ pending, CS t = pending ++ CS t3 ∧ DSF t ∉ pending)
  ∧ (CS_Top t = DSF t → CS t3 = CS t)
  ∧ (∀ s, s ∈ series_pool t3 ↔ s ∈ series_pool t).
Proof.
  intros Hok Hrun Hfail.
  destruct (fail_unwinds _ _ _ _ _ _ _ Hok Hrun Hfail)
    as (Hok3 & (pending & Hchain & Hnot) & Hpool & _).
  split_and!; [done | by exists pending | | done].
  intros Htop. rewrite Hchain. unfold CS_Top in Htop. rewrite Hchain in Htop.
  destruct pending as [|c pending]; [done|]. simpl in Htop.
  destruct Hnot. rewrite <- Htop. by left.
Qed.

(** X3. Traps nest: when a second trap is pushed under the first and fails,
    and the failure is passed on to the first, the second jump comes back
    with the manual series, the running frame, the data stack pointer, the
    guard tails, the GC-disabled flag and the saved state of the first
    push. *)
Theorem nested_traps (RE_HALT : Z) (t t1 t2 t3 : Task) (ops1 ops2 : list op)
    (inner outer : ERROR_FRAME) (halted : bool) :
  stack_ok t →
  run ops1 (Push_Trap_Helper t) = Some t1 →
  run ops2 (Push_Trap_Helper t1) = Some t2 →
  fail RE_HALT inner t2 = Some (halted, t3) →
  ∃ t4,
    fail RE_HALT outer t3 = Some (Z.eqb (ERR_NUM outer) RE_HALT, t4)
    ∧ GC_Manuals t4 = GC_Manuals t
    ∧ DSF t4 = DSF t
    ∧ CS_Top t4 = DSF t
    ∧ DSP t4 = DSP t
    ∧ tail (GC_Series_Guard t4) = tail (GC_Series_Guard t)
    ∧ tail (GC_Value_Guard t4) = tail (GC_Value_Guard t)
    ∧ GC_Disabled t4 = GC_Disabled t
    ∧ Saved_State t4 = Saved_State t.
Proof.
  intros Hok Hrun1 Hrun2 Hfail.
  assert (stack_ok t1) as Hok1.
  { apply (run_stack_ok ops1 (Push_Trap_Helper t)); [|done]. by destruct Hok. }
  destruct (fail_unwinds _ _ _ _ _ _ _ Hok1 Hrun2 Hfail)
    as (Hok3 & (pending & Hchain & Hnot) & _ & Hman3 & HDSF3 & _ & Hsaved3).
  destruct (run_ran _ _ _ Hrun1) as [Hs Hc Hm _ Hcf _]. simpl in *.
  destruct Hok as [Hdsf Hnull Hpool].
  unfold fail, Fail_Core. rewrite Hsaved3, Hs. simpl.
  match goal with
  | |- ∃ _, Trapped_Helper_Halted _ ?st ?tt = _ ∧ _ =>
      destruct (unwind_contract RE_HALT st tt outer)
        as (t' & freed & Hret & _ & _ & Htop & HDSF & HDSP & Hman
            & _ & HG1 & HG2 & Hdis & Hsaved)
  end.
  { done. }
  { simpl. destruct Hdsf as [Hd|Hin]; [by right|]. left.
    (* the frame that ran at the first push is below the one of the second *)
    destruct Hok3 as [Hdsf3 _ _]. destruct Hok1 as [_ Hnull1 _].
    assert (DSF t ≠ NULL) as Hne by (by intros Heq; rewrite Heq in Hin).
    destruct (run_dsf _ _ _ Hrun1) as [Hsame|Hmade].
    - simpl in Hsame. rewrite HDSF3, Hsame in Hdsf3. by destruct Hdsf3.
    - assert (DSF t1 ≠ NULL) as Hne1 by (by destruct (Hcf _ Hmade)).
      rewrite HDSF3 in Hdsf3. destruct Hdsf3 as [?|Hin3]; [done|].
      apply list_elem_of_split_l in Hin3 as (p & q & Hpq & Hp).
      rewrite list_elem_of_In, in_rev, <- list_elem_of_In in Hmade.
      apply list_elem_of_split_l in Hmade as (a & b & Hab & Ha).
      rewrite Hpq, Hc, Hab, app_assoc, <- (app_assoc a) in Hchain.
      simpl in Hchain.
      apply first_split_unique in Hchain as [_ Hq]; [|done|].
      + rewrite Hpq, <- Hq. apply elem_of_app. right. right.
        apply elem_of_app. by right.
      + intros Hx. apply elem_of_app in Hx as [Hx|Hx]; [done|by apply Hp]. }
  { simpl. rewrite Hman3, Hm, length_app. lia. }
  exists t'. simpl in *. rewrite Hret. split; [done|].
  rewrite Hman, Hman3, Hm, take_app_length, HG1, HG2.
  by split_and!.
Qed.

End UnwindFacts.

Lemma unwind_keeps_older_witness :
  Trap.stack_ok Trap.after_fail
  ∧ (∃ pending, Trap.CS Trap.busy_task = pending ++ Trap.CS Trap.after_fail
                ∧ Trap.DSF Trap.busy_task ∉ pending)
  ∧ (Trap.CS_Top Trap.busy_task = Trap.DSF Trap.busy_task →
     Trap.CS Trap.after_fail = Trap.CS Trap.busy_task)
  ∧ (∀ s, s ∈ Trap.series_pool Trap.after_fail ↔ s ∈ Trap.series_pool Trap.busy_task).
Proof.
  apply (unwind_keeps_older 1 Trap.busy_task Trap.before_fail Trap.after_fail
           Trap.scenario_E {| Trap.ERR_NUM := 300 |} false).
  - split; simpl.
    + right. apply list_elem_of_here.
    + intros H. apply elem_of_cons in H as [H|H]; [discriminate|].
      apply elem_of_cons in H as [H|H]; [discriminate|]. inversion H.
    + intros s H. apply elem_of_cons. by left; apply list_elem_of_singleton in H.
  - vm_compute. reflexivity.
  - vm_compute. reflexivity.
Defined.

Lemma nested_traps_witness :
  ∃ t4,
    Trap.fail 1 {| Trap.ERR_NUM := 1 |} Trap.after_inner_fail = Some (true, t4)
    ∧ Trap.GC_Manuals t4 = Trap.GC_Manuals Trap.busy_task
    ∧ Trap.DSF t4 = Trap.DSF Trap.busy_task
    ∧ Trap.CS_Top t4 = Trap.DSF Trap.busy_task
    ∧ Trap.DSP t4 = Trap.DSP Trap.busy_task
    ∧ Trap.tail (Trap.GC_Series_Guard t4) = Trap.tail (Trap.GC_Series_Guard Trap.busy_task)
    ∧ Trap.tail (Trap.GC_Value_Guard t4) = Trap.tail (Trap.GC_Value_Guard Trap.busy_task)
    ∧ Trap.GC_Disabled t4 = Trap.GC_Disabled Trap.busy_task
    ∧ Trap.Saved_State t4 = Trap.Saved_State Trap.busy_task.
Proof.
  apply (nested_traps 1 Trap.busy_task Trap.before_fail Trap.before_inner_fail
           Trap.after_inner_fail Trap.scenario_E Trap.inner_ops
           {| Trap.ERR_NUM := 1 |} {| Trap.ERR_NUM := 1 |} true).
  - split; simpl.
    + right. apply list_elem_of_here.
    + intros H. apply elem_of_cons in H as [H|H]; [discriminate|].
      apply elem_of_cons in H as [H|H]; [discriminate|]. inversion H.
    + intros s H. apply elem_of_cons. by left; apply list_elem_of_singleton in H.
  - vm_compute. reflexivity.
  - vm_compute. reflexivity.
  - vm_compute. reflexivity.
Defined.

(** ** The thrown argument *)

Section ThrownFacts.
Import Thrown.

(** X4. A catch after a throw gives back what was thrown: the output cell
    holds the argument as it was handed over (also when the output cell is
    the thrown name itself), the cell of the task is trash again, the name
    has lost its thrown bit when it is not the output cell, and no other
    cell has changed. *)
Theorem catch_after_throw (name arg out : nat) (t t1 : Task) :
  Convert_Name_To_Thrown_Debug name arg t = Some t1 →
  (out < length (cells t))%nat →
  ∃ t2,
    Catch_Thrown_Debug out name t1 = Some t2
    ∧ cells t2 !! out = cells t1 !! arg
    ∧ (arg ≠ name → cells t1 !! arg = cells t !! arg)
    ∧ TASK_THROWN_ARG t2 = trash
    ∧ (out ≠ name → cells t2 !! name = cells t !! name)
    ∧ (∀ p, p ≠ out → p ≠ name → cells t2 !! p = cells t !! p).
Proof.
  unfold Convert_Name_To_Thrown_Debug. intros Hconv Hout.
  destruct (cells t !! name) as [n|] eqn:Hname; [|done].
  destruct (THROWN n) eqn:Hthrown; [done|].
  destruct (negb (IS_TRASH (TASK_THROWN_ARG t))); [done|].
  destruct (<[name:=VAL_SET_OPT_THROWN n]> (cells t) !! arg) as [a|] eqn:Harg; [|done].
  destruct (IS_TRASH a) eqn:Htrash; [done|].
  injection Hconv as <-.
  assert (name < length (cells t))%nat as Hlt by (by eapply lookup_lt_Some).
  unfold Catch_Thrown_Debug. simpl.
  rewrite list_lookup_insert_eq by done. simpl.
  rewrite Htrash.
  rewrite decide_True by (by rewrite !length_insert).
  eexists. split; [reflexivity|]. simpl. split_and!.
  - rewrite list_lookup_insert_eq by (by rewrite !length_insert). by rewrite Harg.
  - intros Hne. by rewrite list_lookup_insert_ne.
  - done.
  - intros Hne. rewrite list_lookup_insert_ne by done.
    rewrite list_lookup_insert_eq by (by rewrite length_insert).
    by destruct n; simpl in *; subst.
  - intros p Hp1 Hp2. by rewrite !list_lookup_insert_ne.
Qed.

End ThrownFacts.

Lemma catch_after_throw_witness :
  ∃ t2,
    Thrown.Catch_Thrown_Debug 0 0 Thrown.thrown_task = Some t2
    ∧ Thrown.cells t2 !! 0%nat = Thrown.cells Thrown.thrown_task !! 1%nat
    ∧ (1%nat ≠ 0%nat → Thrown.cells Thrown.thrown_task !! 1%nat = Thrown.cells Thrown.quiet !! 1%nat)
    ∧ Thrown.TASK_THROWN_ARG t2 = Thrown.trash
    ∧ (0%nat ≠ 0%nat → Thrown.cells t2 !! 0%nat = Thrown.cells Thrown.quiet !! 0%nat)
    ∧ (∀ p, p ≠ 0%nat → p ≠ 0%nat → Thrown.cells t2 !! p = Thrown.cells Thrown.quiet !! p).
Proof.
  apply (catch_after_throw 0 1 0 Thrown.quiet Thrown.thrown_task).
  - reflexivity.
  - simpl. lia.
Defined.

(** ** The backtrace *)

Section BacktraceFacts.
Import Backtrace.

Lemma Stack_Depth_from_length (call : list Reb_Call) : ∀ count,
  0 <= count → count + Z.of_nat (length call) < 2 ^ 32 →
  Stack_Depth_from count call = count + Z.of_nat (length call).
Proof.
  induction call as [|c prior IH]; intros count H0 Hlt; simpl.
  - lia.
  - cbn [length] in Hlt. rewrite REBCNT_of_small by lia.
    rewrite IH; lia.
Qed.

Lemma backtrace_words_all (call : list Reb_Call) : ∀ start,
  - 2 ^ 31 + Z.of_nat (length call) <= start <= 0 →
  backtrace_words start call = DSF_LABEL <$> call.
Proof.
  induction call as [|c prior IH]; intros start Hs; simpl; [done|].
  destruct (Z.leb_spec start 0); [|lia].
  cbn [length] in Hs. rewrite REBINT_of_small by lia.
  f_equal. apply IH. lia.
Qed.

Lemma backtrace_words_drop (call : list Reb_Call) : ∀ start : nat,
  Z.of_nat (length call) < 2 ^ 31 →
  (start <= length call)%nat →
  backtrace_words (Z.of_nat start) call = drop start (DSF_LABEL <$> call).
Proof.
  induction call as [|c prior IH]; intros start Hlen Hs; simpl.
  - by rewrite drop_nil.
  - cbn [length] in Hlen, Hs. destruct start as [|start].
    + simpl. rewrite REBINT_of_small by lia.
      f_equal. apply backtrace_words_all. lia.
    + destruct (Z.leb_spec (Z.of_nat (S start)) 0); [lia|].
      replace (Z.of_nat (S start) - 1) with (Z.of_nat start) by lia.
      rewrite REBINT_of_small by lia.
      simpl. apply IH; lia.
Qed.

(** X5. For a start within the depth of the stack, the backtrace is the
    labels of the frames from the running one outward without the first
    [start] of them, and the block was made with room for exactly these
    words. *)
Theorem backtrace_skips_start (start : nat) (DSF : list Reb_Call) :
  Z.of_nat (length DSF) < 2 ^ 31 →
  (start <= length DSF)%nat →
  Make_Backtrace (Z.of_nat start) DSF
  = (Z.of_nat (length DSF - start), drop start (DSF_LABEL <$> DSF))
  ∧ length (drop start (DSF_LABEL <$> DSF)) = (length DSF - start)%nat.
Proof.
  intros Hlen Hs. unfold Make_Backtrace, Stack_Depth.
  rewrite Stack_Depth_from_length by lia.
  rewrite REBCNT_of_small by lia.
  rewrite backtrace_words_drop by done.
  split.
  - f_equal. lia.
  - by rewrite length_drop, length_fmap.
Qed.

End BacktraceFacts.

Lemma backtrace_skips_start_witness :
  Backtrace.Make_Backtrace 1 Backtrace.three_deep = (2, [8; 9]%nat).
Proof.
  apply (backtrace_skips_start 1 Backtrace.three_deep).
  - simpl. lia.
  - simpl. lia.
Defined.

(** ** Errors made from a code *)

Section ErrorCoreFacts.
Import Errors ErrorCore.
Context `{B : Boot}.

Lemma count_get_words_length (temp : list REBVAL) : ∀ expected_args,
  0 <= expected_args →
  expected_args + Z.of_nat (length (get_words temp)) < 2 ^ 32 →
  count_get_words expected_args temp
  = expected_args + Z.of_nat (length (get_words temp)).
Proof.
  induction temp as [|v temp IH]; intros n H0 Hlt; simpl; [lia|].
  destruct v as [| | | | | |k sym| | |]; simpl in *; try (by apply IH).
  destruct k; simpl in *; try (by apply IH).
  rewrite REBCNT_of_small by lia. rewrite IH; lia.
Qed.

Lemma fill_args_zip (temp : list REBVAL) : ∀ args,
  (length (get_words temp) <= length args)%nat →
  ∃ filled,
    fill_args temp args = Some filled
    ∧ map fst filled = get_words temp
    ∧ map snd filled = map (default NONE) (take (length (get_words temp)) args).
Proof.
  induction temp as [|v temp IH]; intros args Hlen; simpl.
  - by exists [].
  - destruct v as [| | | | | |k sym| | |]; simpl in *; try (by apply IH).
    destruct k; simpl in *; try (by apply IH).
    destruct args as [|arg args]; simpl in *; [lia|].
    destruct (IH args) as (filled & -> & H1 & H2); [lia|].
    eexists. split; [done|]. simpl. by rewrite H1, H2.
Qed.

Lemma FRM_VALUES_set_value n v f :
  FRM_VALUES (set_value n v f) = <[n := v]> (FRM_VALUES f).
Proof. done. Qed.

(** The four writes of c-error.c:982-986 and the two of 989-994. *)
Lemma error_fields (frame : REBSER) (code : Z) (message id type : REBVAL)
    (DSF : option (list Backtrace.Reb_Call * REBVAL)) (n : nat) :
  (6 < n)%nat → (n <= length (FRM_VALUES frame))%nat →
  let frame1 :=
    set_value ERR_TYPE type
      (set_value ERR_ID id
         (set_value ERR_MESSAGE message
            (set_value ERR_CODE (INTEGER code) frame))) in
  let frame2 :=
    match DSF with
    | None => frame1
    | Some (calls, nearest) =>
        set_value ERR_NEAREST nearest
          (set_value ERR_WHERE
             (BLOCK (WORD <$> (Backtrace.Make_Backtrace 0 calls).2)) frame1)
    end in
  FRM_VALUE frame2 ERR_CODE = INTEGER code
  ∧ FRM_VALUE frame2 ERR_MESSAGE = message
  ∧ FRM_VALUE frame2 ERR_ID = id
  ∧ FRM_VALUE frame2 ERR_TYPE = type
  ∧ FRM_KEYLIST frame2 = FRM_KEYLIST frame
  ∧ drop n (FRM_VALUES frame2) = drop n (FRM_VALUES frame).
Proof.
  intros Hn Hlen frame1 frame2.
  unfold ERR_CODE, ERR_MESSAGE, ERR_ID, ERR_TYPE, ERR_NEAREST, ERR_WHERE in *.
  assert (FRM_VALUE frame1 1 = INTEGER code ∧ FRM_VALUE frame1 4 = message
          ∧ FRM_VALUE frame1 3 = id ∧ FRM_VALUE frame1 2 = type
          ∧ FRM_KEYLIST frame1 = FRM_KEYLIST frame
          ∧ drop n (FRM_VALUES frame1) = drop n (FRM_VALUES frame)) as H1.
  { subst frame1. split_and!.
    - rewrite !FRM_VALUE_set_value_ne by done.
      by rewrite FRM_VALUE_set_value_eq by lia.
    - rewrite !FRM_VALUE_set_value_ne by done.
      by rewrite FRM_VALUE_set_value_eq by (rewrite !length_set_value; lia).
    - rewrite !FRM_VALUE_set_value_ne by done.
      by rewrite FRM_VALUE_set_value_eq by (rewrite !length_set_value; lia).
    - by rewrite FRM_VALUE_set_value_eq by (rewrite !length_set_value; lia).
    - done.
    - rewrite !FRM_VALUES_set_value. by rewrite !drop_insert_lt by lia. }
  destruct DSF as [[calls nearest]|]; [|exact H1].
  destruct H1 as (H1 & H2 & H3 & H4 & H5 & H6). subst frame2.
  split_and!.
  - by rewrite !FRM_VALUE_set_value_ne by done.
  - by rewrite !FRM_VALUE_set_value_ne by done.
  - by rewrite !FRM_VALUE_set_value_ne by done.
  - by rewrite !FRM_VALUE_set_value_ne by done.
  - done.
  - rewrite !FRM_VALUES_set_value. by rewrite !drop_insert_lt by lia.
Qed.

(** X6. An error made from a code of the catalog reproduces the entry of
    the catalog: its code, message, id and type are those of the code, its
    keys are those of the template followed by the get-words of the message,
    each with the argument that was passed for it (none for a NULL), and the
    exit status of the error is the code. *)
Theorem make_error_core_catalog (code : Z) (message id type : REBVAL)
    (args : list (option REBVAL))
    (DSF : option (list Backtrace.Reb_Call * REBVAL)) :
  let words := match message with BLOCK items => get_words items | _ => [] end in
  0 <= code < 2 ^ 31 →
  Find_Error_For_Code END END code = (Some message, id, type) →
  length (FRM_KEYLIST ROOT_ERROBJ) = length (FRM_VALUES ROOT_ERROBJ) →
  (6 < length (FRM_VALUES ROOT_ERROBJ))%nat →
  (length words <= length args)%nat →
  Z.of_nat (length words) < 2 ^ 32 →
  ∃ frame,
    Make_Error_Core true code args DSF = Made frame
    ∧ FRM_VALUE frame ERR_CODE = INTEGER code
    ∧ FRM_VALUE frame ERR_MESSAGE = message
    ∧ FRM_VALUE frame ERR_ID = id
    ∧ FRM_VALUE frame ERR_TYPE = type
    ∧ FRM_KEYLIST frame = FRM_KEYLIST ROOT_ERROBJ ++ words
    ∧ drop (length (FRM_VALUES ROOT_ERROBJ)) (FRM_VALUES frame)
      = map (default NONE) (take (length words) args)
    ∧ Exit_Status_From_Value (ERROR frame) = code.
Proof.
  intros words Hcode Hfind Hkeys Hroot Hargs Hmany.
  assert (∃ frame0,
            (let expected_args :=
               match message with
               | BLOCK items => count_get_words 0 items
               | _ => 0
               end in
             if expected_args =? 0 then Some ROOT_ERROBJ
             else
               match message with
               | BLOCK items =>
                   match fill_args items args with
                   | None => None
                   | Some filled =>
                       Some (Frame
                               (take (length (FRM_VALUES ROOT_ERROBJ))
                                  (FRM_KEYLIST ROOT_ERROBJ) ++ map fst filled)
                               (FRM_VALUES ROOT_ERROBJ ++ map snd filled))
                   end
               | _ => None
               end) = Some frame0
            ∧ FRM_KEYLIST frame0 = FRM_KEYLIST ROOT_ERROBJ ++ words
            ∧ FRM_VALUES frame0
              = FRM_VALUES ROOT_ERROBJ ++ (map (default NONE) (take (length words) args)))
    as (frame0 & Hcopy & Hk0 & Hv0).
  { destruct (decide (words = [])) as [Hnil|Hsome].
    - exists ROOT_ERROBJ. rewrite Hnil. simpl. rewrite !app_nil_r.
      split; [|done].
      destruct message; try done. subst words.
      rewrite count_get_words_length by (rewrite ?Hnil; simpl; lia).
      by rewrite Hnil.
    - destruct message as [| | | | |items| | | |]; try done. subst words.
      simpl. rewrite count_get_words_length by lia.
      destruct (Z.eqb_spec (0 + Z.of_nat (length (get_words items))) 0) as [Hz|_].
      { destruct (get_words items); [done | simpl in Hz; lia]. }
      destruct (fill_args_zip items args Hargs) as (filled & -> & H1 & H2).
      eexists. split; [done|]. simpl.
      by rewrite H1, H2, <- Hkeys, firstn_all. }
  unfold Make_Error_Core. simpl. rewrite Hfind. simpl in Hcopy. rewrite Hcopy.
  pose proof (error_fields frame0 code message id type DSF
                (length (FRM_VALUES ROOT_ERROBJ))) as Hfields.
  simpl in Hfields.
  destruct Hfields as (H1 & H2 & H3 & H4 & H5 & H6); [done | |].
  { rewrite Hv0, length_app. lia. }
  destruct DSF as [[calls nearest]|]; eexists; (split; [reflexivity|]);
    (split_and!; [done | done | done | done | by rewrite H5 | | ]).
  - by rewrite H6, Hv0, drop_app_length.
  - unfold Exit_Status_From_Value, VAL_ERR_NUM. simpl. rewrite H1. simpl.
    apply REBINT_of_small. lia.
  - by rewrite H6, Hv0, drop_app_length.
  - unfold Exit_Status_From_Value, VAL_ERR_NUM. simpl. rewrite H1. simpl.
    apply REBINT_of_small. lia.
Qed.



(** X8. An object whose code field holds an integer that [VAL_INT32] reads
    (as its low 32 bits) as [RE_USER] or more is made into an error as it is
    merged with the template: its type, id and message are not looked at, and
    neither is the catalog. *)
Theorem user_error_unchecked (f : REBSER) (c : Z) :
  FRM_VALUE (Merge_Frames ROOT_ERROBJ f) ERR_CODE = INTEGER c →
  RE_USER <= REBINT_of c →
  Make_Error_Object_Throws (OBJECT f)
  = Returns_FALSE (ERROR (Merge_Frames ROOT_ERROBJ f)).
Proof.
  intros Hc Huser. simpl. unfold finish, reconcile. rewrite Hc. simpl.
  by destruct (Z.ltb_spec (REBINT_of c) RE_USER); [lia|].
Qed.

End ErrorCoreFacts.

Lemma make_error_core_catalog_witness :
  ∃ frame,
    @ErrorCore.Make_Error_Core Errors.Example.boot true 300
      [Some (Errors.WORD Errors.Example.SYM_HALT); None]
      (Some (Backtrace.three_deep, Errors.NONE)) = ErrorCore.Made frame
    ∧ Errors.FRM_VALUE frame Errors.ERR_CODE = Errors.INTEGER 300
    ∧ Errors.FRM_VALUE frame Errors.ERR_MESSAGE
      = Errors.BLOCK [Errors.ANY_WORD REB_GET_WORD Errors.Example.SYM_ARG1;
                      Errors.STRING "has no value"]
    ∧ Errors.FRM_VALUE frame Errors.ERR_ID = Errors.WORD Errors.Example.SYM_NO_VALUE
    ∧ Errors.FRM_VALUE frame Errors.ERR_TYPE = Errors.WORD Errors.Example.SYM_SCRIPT
    ∧ Errors.FRM_KEYLIST frame
      = Errors.FRM_KEYLIST Errors.Example.template ++ [Errors.Example.SYM_ARG1]
    ∧ drop 7 (Errors.FRM_VALUES frame) = [Errors.WORD Errors.Example.SYM_HALT]
    ∧ @Errors.Exit_Status_From_Value Errors.Example.boot (Errors.ERROR frame) = 300.
Proof.
  apply (@make_error_core_catalog Errors.Example.boot 300
           (Errors.BLOCK [Errors.ANY_WORD REB_GET_WORD Errors.Example.SYM_ARG1;
                          Errors.STRING "has no value"])
           (Errors.WORD Errors.Example.SYM_NO_VALUE)
           (Errors.WORD Errors.Example.SYM_SCRIPT)
           [Some (Errors.WORD Errors.Example.SYM_HALT); None]
           (Some (Backtrace.three_deep, Errors.NONE))).
  - lia.
  - reflexivity.
  - reflexivity.
  - simpl. lia.
  - simpl. lia.
  - reflexivity.
Defined.


Lemma user_error_unchecked_witness :
  @Errors.Make_Error_Object_Throws Errors.Example.boot
    (Errors.OBJECT ErrorCore.Example.asks_1000)
  = Errors.Returns_FALSE
      (Errors.ERROR
         (@Errors.Merge_Frames Errors.Example.boot Errors.Example.template
            ErrorCore.Example.asks_1000)).
Proof.
  apply (@user_error_unchecked Errors.Example.boot ErrorCore.Example.asks_1000 1000).
  - reflexivity.
  - vm_compute. discriminate.
Defined.

Section ParamlistFacts.
Import Func.
Context `{B : Boot}.

(** What the scan leaves when the maker returns a list. *)
Lemma make_paramlist_scanned (spec : list REBVAL) (opt : REBSYM)
    (params : list REBVAL) :
  Make_Paramlist_Managed spec opt = inr params →
  ∃ s,
    scan_spec opt spec {| paramlist := TRASH :: (key_cell <$> spec_words spec);
                          typeset := 0; bubble := END |} = inr s
    ∧ scanned opt (spec_words spec) [] s
    ∧ NoDup ((λ w, SYMBOL_TO_CANON w.2) <$> spec_words spec)
    ∧ params = (if negb (bool_decide (opt = SYM_0))
                then <[typeset s := bubble s]> (paramlist s)
                else paramlist s).
Proof.
  intros Hmake.
  unfold Make_Paramlist_Managed, Collect_Keylist_Managed in Hmake.
  destruct (collect_keys [] spec) as [|keys] eqn:Hkeys; [done|].
  destruct (collect_keys_words _ _ _ Hkeys) as (-> & Hnd & _).
  destruct (scan_spec _ _ _) as [|s] eqn:Hscan; [done|].
  exists s. split; [done|]. split; [|split; [done|]].
  - assert (scanned opt [] (spec_words spec)
              {| paramlist := TRASH :: (key_cell <$> spec_words spec);
                 typeset := 0; bubble := END |}) as Hstart.
    { apply (scanned_plain _ _ _ _ TRASH []); try done. intros w Hw. inversion Hw. }
    by apply (scan_spec_scanned _ _ _ _ [] Hnd Hscan) in Hstart.
  - by destruct (negb _); injection Hmake as <-.
Qed.

Lemma scan_spec_declares opt items : ∀ s s',
  scan_spec opt items s = inr s' → forallb declares items = true.
Proof.
  induction items as [|item items IH]; intros s s' Hscan; simpl in *; [done|].
  destruct (scan_item opt item s) as [|s1] eqn:Hitem; [done|].
  rewrite (IH _ _ Hscan), andb_true_r.
  destruct item as [| | |k str|a i|k sym|sym bits e|k]; try done.
  by destruct k.
Qed.

Lemma visible_words_spec_words (spec : list REBVAL) :
  forallb declares spec = true →
  list_words
    ((λ w : word_kind * REBSYM, TYPESET w.2 0 (param_class w.1)) <$> spec_words spec)
  = visible_words spec.
Proof.
  induction spec as [|item spec IH]; intros Hok; simpl in *; [done|].
  apply andb_true_iff in Hok as [Hitem Hok].
  destruct item as [| | |k str|a i|k sym|sym bits e|k]; simpl; try by apply IH.
  destruct k; simpl in *; try done; try (f_equal; by apply IH); by apply IH.
Qed.

(** The listing looks at the symbol and the class bits of a cell only. *)
Lemma list_words_keys (P : list REBVAL) : ∀ ws : list (word_kind * REBSYM),
  param_key <$> P = declared_key <$> ws →
  list_words P
  = list_words ((λ w : word_kind * REBSYM, TYPESET w.2 0 (param_class w.1)) <$> ws).
Proof.
  induction P as [|p P IH]; intros [|w ws] Hkeys; simpl in *; try done.
  injection Hkeys as Hp HP.
  destruct p as [| | | | | |sym bits e|]; try done.
  simpl in Hp. injection Hp as -> ->. simpl.
  destruct (EXT_TYPESET_HIDDEN (param_class w.1)); [|f_equal]; by apply IH.
Qed.

(** X9. Without a symbol to bubble, the parameter list that comes out of a
    spec has one entry after slot 0 for every word of the spec, in the order
    of the spec, with the symbol of the word and the class of its kind; and
    every item of the spec is a string, a block or a word that declares a
    parameter. *)
Theorem paramlist_declared_order (spec params : list REBVAL) :
  (∀ w, w ∈ spec_words spec → SYMBOL_TO_CANON w.2 ≠ SYM_0) →
  Make_Paramlist_Managed spec SYM_0 = inr params →
  param_key <$> tl params = declared_key <$> spec_words spec
  ∧ length params = S (length (spec_words spec))
  ∧ forallb declares spec = true.
Proof.
  intros Hsym Hmake.
  destruct (make_paramlist_scanned _ _ _ Hmake) as (s & Hscan & Hs & _ & ->).
  rewrite bool_decide_true by done. simpl.
  split; [|split; [|by apply (scan_spec_declares _ _ _ _ Hscan)]];
    destruct Hs as [h P Hb Ht Hp HP Hpre | h P x before b after Hpre Hopt Hb Ht Hp HP].
  - rewrite Hp. simpl. by rewrite app_nil_r.
  - exfalso. apply (Hsym b); [|done]. rewrite Hpre.
    apply elem_of_app. right. apply list_elem_of_here.
  - rewrite Hp. simpl. rewrite app_nil_r.
    by rewrite <- (length_fmap param_key), HP, length_fmap.
  - exfalso. apply (Hsym b); [|done]. rewrite Hpre.
    apply elem_of_app. right. apply list_elem_of_here.
Qed.

(** X10. The words that are listed for a function made from a spec without
    a definitional return are the words of the spec from its index on, as
    they are written there, without the set-words. *)
Theorem words_of_made_function (type : func_kind) (spec body : REBVAL)
    (func : function) :
  (∀ w, w ∈ spec_words (VAL_ARRAY_AT spec) → SYMBOL_TO_CANON w.2 ≠ SYM_0) →
  Make_Function type spec body false = inr func →
  List_Func_Words func = visible_words (VAL_ARRAY_AT spec).
Proof.
  intros Hsym Hmake. unfold Make_Function in Hmake.
  destruct spec as [| | | |array index| | |]; try done.
  destruct body as [| | | |barray bindex| | |]; try done.
  simpl in Hmake.
  assert ((if bool_decide (VAL_LEN_AT (BLOCK array index) = 0%nat) then EMPTY_ARRAY
           else Copy_Array_At_Deep_Managed array index) = drop index array) as Hspec.
  { unfold VAL_LEN_AT, Copy_Array_At_Deep_Managed, EMPTY_ARRAY. simpl.
    destruct (bool_decide_reflect (length (drop index array) = 0%nat)) as [Hlen|]; [|done].
    by destruct (drop index array). }
  rewrite Hspec in Hmake.
  destruct (Make_Paramlist_Managed (drop index array) SYM_0) as [|params] eqn:Hparams;
    [done|].
  injection Hmake as <-.
  destruct (make_paramlist_scanned _ _ _ Hparams) as (s & Hscan & Hs & _ & ->).
  rewrite bool_decide_true by done. unfold List_Func_Words. simpl.
  destruct Hs as [h P Hb Ht Hp HP Hpre | h P x before b after Hpre Hopt Hb Ht Hp HP].
  - rewrite Hp. simpl. rewrite app_nil_r.
    rewrite (list_words_keys _ _ HP).
    apply visible_words_spec_words. by apply (scan_spec_declares _ _ _ _ Hscan).
  - exfalso. apply (Hsym b); [|done]. simpl. rewrite Hpre.
    apply elem_of_app. right. apply list_elem_of_here.
Qed.

(** X11. The typesets that are listed for a function made from a spec
    without a definitional return are one for every word of the spec from its
    index on, the set-words too, each under the symbol of its word and with
    no class bit. *)
Theorem typesets_of_made_function (type : func_kind) (spec body : REBVAL)
    (func : function) :
  (∀ w, w ∈ spec_words (VAL_ARRAY_AT spec) → SYMBOL_TO_CANON w.2 ≠ SYM_0) →
  Make_Function type spec body false = inr func →
  param_key <$> List_Func_Typesets func
  = (λ w : word_kind * REBSYM, Some (w.2, no_exts)) <$> spec_words (VAL_ARRAY_AT spec).
Proof.
  intros Hsym Hmake. unfold Make_Function in Hmake.
  destruct spec as [| | | |array index| | |]; try done.
  destruct body as [| | | |barray bindex| | |]; try done.
  simpl in Hmake.
  assert ((if bool_decide (VAL_LEN_AT (BLOCK array index) = 0%nat) then EMPTY_ARRAY
           else Copy_Array_At_Deep_Managed array index) = drop index array) as Hspec.
  { unfold VAL_LEN_AT, Copy_Array_At_Deep_Managed, EMPTY_ARRAY. simpl.
    destruct (bool_decide_reflect (length (drop index array) = 0%nat)) as [Hlen|]; [|done].
    by destruct (drop index array). }
  rewrite Hspec in Hmake.
  destruct (Make_Paramlist_Managed (drop index array) SYM_0) as [|params] eqn:Hparams;
    [done|].
  injection Hmake as <-.
  destruct (make_paramlist_scanned _ _ _ Hparams) as (s & Hscan & Hs & _ & ->).
  rewrite bool_decide_true by done. unfold List_Func_Typesets. simpl.
  destruct Hs as [h P Hb Ht Hp HP Hpre | h P x before b after Hpre Hopt Hb Ht Hp HP].
  - rewrite Hp. simpl. rewrite app_nil_r. clear Hp Hpre Hscan Hsym Hparams Ht.
    revert HP. generalize (spec_words (drop index array)).
    induction P as [|p P IH]; intros [|w ws] HP; simpl in *; try done.
    injection HP as Hp HP.
    destruct p as [| | | | | |sym bits e|]; try done.
    simpl in Hp. injection Hp as -> ->. simpl. f_equal. by apply IH.
  - exfalso. apply (Hsym b); [|done]. simpl. rewrite Hpre.
    apply elem_of_app. right. apply list_elem_of_here.
Qed.

(** Two lists with the same last-but-one split. *)
Lemma unique_key_last {A K} (f : A → K) (ws before after : list A) (r b : A) :
  NoDup (f <$> ws ++ [r]) →
  ws ++ [r] = before ++ b :: after →
  f b = f r →
  after = [] ∧ b = r ∧ before = ws.
Proof.
  intros Hnd Heq Hf.
  destruct after as [|a after _] using rev_ind.
  - change (before ++ [b]) with (before ++ [b]) in Heq.
    apply app_inj_tail in Heq as [-> ->]. done.
  - exfalso.
    replace (before ++ b :: after ++ [a]) with ((before ++ b :: after) ++ [a]) in Heq
      by (by rewrite <- app_assoc).
    apply app_inj_tail in Heq as [-> ->].
    rewrite !fmap_app in Hnd. simpl in Hnd.
    apply NoDup_app in Hnd as (_ & Hdis & _).
    apply (Hdis (f b)).
    + apply elem_of_app. right. apply list_elem_of_here.
    + rewrite Hf. apply list_elem_of_here.
Qed.

(** X12. A function that is made with a definitional return has the
    set-word [return:] as the last item of its spec, and the last entry of its
    parameter list is the hidden parameter of that symbol. *)
Theorem definitional_return_last (type : func_kind) (spec body : REBVAL)
    (has_return_arg : bool) (func : function) :
  SYM_RETURN ≠ SYM_0 →
  SYMBOL_TO_CANON SYM_RETURN = SYM_RETURN →
  Make_Function type spec body has_return_arg = inr func →
  EXT_FUNC_HAS_RETURN func = true →
  last (VAL_FUNC_SPEC func) = Some ROOT_RETURN_SET_WORD
  ∧ last (VAL_FUNC_PARAMLIST func) ≫= param_key
    = Some (SYM_RETURN, param_class REB_SET_WORD).
Proof.
  intros Hsym Hcanon Hmake Hret. unfold Make_Function in Hmake.
  destruct spec as [| | | |array index| | |]; try done.
  destruct body as [| | | |barray bindex| | |]; try done.
  cbn [IS_BLOCK negb orb] in Hmake.
  destruct (function_spec (BLOCK array index) has_return_arg)
    as [|[func_spec g]] eqn:Hspec; [done|].
  destruct (Make_Paramlist_Managed _ _) as [|params] eqn:Hparams; [done|].
  injection Hmake as <-. simpl in *.
  assert (∃ X, func_spec = X ++ [ROOT_RETURN_SET_WORD]) as [X ->].
  { unfold function_spec in Hspec. destruct has_return_arg; simpl in Hspec.
    - destruct (scan_generator _ _ _ _) as [|[array' g']]; [done|].
      destruct (has_return g') eqn:Hg'.
      + injection Hspec as <- <-.
        destruct (bool_decide _); [by exists [] | by eexists].
      + injection Hspec as <- <-. congruence.
    - injection Hspec as <- <-. done. }
  split; [by rewrite last_snoc|].
  rewrite Hret in Hparams.
  destruct (make_paramlist_scanned _ _ _ Hparams) as (s & _ & Hs & Hnd & ->).
  rewrite bool_decide_false by done. simpl.
  assert (spec_words (X ++ [ROOT_RETURN_SET_WORD])
          = spec_words X ++ [(REB_SET_WORD, SYM_RETURN)]) as Hwords.
  { unfold spec_words. by rewrite omap_app. }
  rewrite Hwords in Hs, Hnd.
  destruct Hs as [h P Hb Ht Hp HP Hpre | h P x before b after Hpre Hopt Hb Ht Hp HP].
  - exfalso. apply (Hpre (REB_SET_WORD, SYM_RETURN)); [|done].
    apply elem_of_app. right. apply list_elem_of_here.
  - destruct (unique_key_last _ _ _ _ _ _ Hnd Hpre) as (-> & -> & ->).
    { simpl. congruence. }
    rewrite Hp, Ht. simpl.
    pose proof (insert_middle P x (bubble s) []) as Hins. simpl in Hins.
    change (list_insert (length P) (bubble s) (P ++ [x]))
      with (<[length P := bubble s]> (P ++ [x])) in Hins.
    rewrite Hins.
    change (ANY_FUNCTION type :: P ++ [bubble s])
      with ([ANY_FUNCTION type] ++ P ++ [bubble s]).
    rewrite app_assoc, last_snoc. simpl. by rewrite Hb.
Qed.

End ParamlistFacts.

Lemma paramlist_declared_order_witness :
  Func.param_key <$> tl Func.Example.plain_params
  = Func.declared_key <$> Func.spec_words Func.Example.plain_spec
  ∧ length Func.Example.plain_params
    = S (length (Func.spec_words Func.Example.plain_spec))
  ∧ forallb Func.declares Func.Example.plain_spec = true.
Proof.
  apply (@paramlist_declared_order Func.Example.boot Func.Example.plain_spec
           Func.Example.plain_params).
  - intros w Hw. vm_compute in Hw.
    repeat (apply elem_of_cons in Hw as [-> | Hw]; [discriminate|]).
    inversion Hw.
  - reflexivity.
Defined.

Lemma words_of_made_function_witness :
  ∃ func,
    Func.Example.made_plain = inr func
    ∧ Func.List_Func_Words func
      = [Func.ANY_WORD REB_LIT_WORD Func.Example.SYM_B;
         Func.ANY_WORD REB_REFINEMENT Func.Example.SYM_REF;
         Func.ANY_WORD REB_GET_WORD Func.Example.SYM_C].
Proof.
  eexists. split; [reflexivity|].
  apply (@words_of_made_function Func.Example.boot Func.REB_FUNCTION
           (Func.BLOCK Func.Example.plain_spec 1) (Func.BLOCK [] 0)).
  - intros w Hw. vm_compute in Hw.
    repeat (apply elem_of_cons in Hw as [-> | Hw]; [discriminate|]).
    inversion Hw.
  - reflexivity.
Defined.

Lemma typesets_of_made_function_witness :
  ∃ func,
    Func.Example.made_plain = inr func
    ∧ Func.param_key <$> Func.List_Func_Typesets func
      = [Some (Func.Example.SYM_B, Func.no_exts);
         Some (Func.Example.SYM_LOCAL, Func.no_exts);
         Some (Func.Example.SYM_REF, Func.no_exts);
         Some (Func.Example.SYM_C, Func.no_exts)].
Proof.
  eexists. split; [reflexivity|].
  apply (@typesets_of_made_function Func.Example.boot Func.REB_FUNCTION
           (Func.BLOCK Func.Example.plain_spec 1) (Func.BLOCK [] 0)).
  - intros w Hw. vm_compute in Hw.
    repeat (apply elem_of_cons in Hw as [-> | Hw]; [discriminate|]).
    inversion Hw.
  - reflexivity.
Defined.

Lemma definitional_return_last_witness :
  ∃ func,
    Func.Example.made_with_return = inr func
    ∧ last (Func.VAL_FUNC_SPEC func)
      = Some (Func.ANY_WORD REB_SET_WORD Func.Example.SYM_RETURN)
    ∧ last (Func.VAL_FUNC_PARAMLIST func) ≫= Func.param_key
      = Some (Func.Example.SYM_RETURN, Func.param_class REB_SET_WORD).
Proof.
  eexists. split; [reflexivity|].
  apply (@definitional_return_last Func.Example.boot Func.REB_FUNCTION
           (Func.BLOCK [Func.ANY_WORD REB_WORD Func.Example.SYM_A;
                        Func.ANY_WORD REB_WORD Func.Example.SYM_B] 0)
           (Func.BLOCK [] 0) true).
  - discriminate.
  - reflexivity.
  - reflexivity.
  - reflexivity.
Defined.

(** ** Objects: identity, equality and the order of the operands *)

Section ObjectOrderFacts.
Import Object.
Context {cell : Type} (END_VALUE : cell) (Cmp_Value : cell → cell → bool → Z).

(** X13. Two cells that compare as the same object (mode 3) compare as
    equal in every mode from 0 on, whatever the comparison of the cells of
    their frames says. *)
Theorem same_object_is_equal (a b : REBVAL cell) (mode : Z) :
  CT_Object END_VALUE Cmp_Value a b 3 = 1 →
  0 <= mode →
  CT_Object END_VALUE Cmp_Value a b mode = 1.
Proof.
  unfold CT_Object. simpl. intros Hsame Hmode.
  destruct (Z.ltb_spec mode 0); [lia|].
  destruct (mode =? 3); [done|].
  destruct (Same_Object a b) eqn:Hs; [|done].
  unfold Same_Object in Hs. apply andb_true_iff in Hs as [Hty Hnode].
  unfold Equal_Object. by rewrite Hty, Hnode.
Qed.

(** X14. When the comparison of cells finds two cells equal in one order
    exactly when it does in the other, the equality of objects does not
    depend on the order of its operands. *)
Theorem equal_object_sym (val arg : REBVAL cell) :
  (∀ x y, Cmp_Value x y false = 0 ↔ Cmp_Value y x false = 0) →
  Equal_Object END_VALUE Cmp_Value val arg
  = Equal_Object END_VALUE Cmp_Value arg val.
Proof.
  intros Hsym. unfold Equal_Object, same_node.
  destruct (decide (VAL_TYPE arg = VAL_TYPE val)) as [Hty|Hty].
  2:{ rewrite (bool_decide_false (VAL_TYPE arg = VAL_TYPE val)) by done.
      by rewrite (bool_decide_false (VAL_TYPE val = VAL_TYPE arg)) by done. }
  rewrite (bool_decide_true (VAL_TYPE arg = VAL_TYPE val)) by done.
  rewrite (bool_decide_true (VAL_TYPE val = VAL_TYPE arg)) by done. simpl.
  destruct (decide (Object.node (VAL_OBJ_FRAME val) = Object.node (VAL_OBJ_FRAME arg)))
    as [Hn|Hn].
  { rewrite (bool_decide_true _ Hn). by rewrite bool_decide_true by done. }
  rewrite (bool_decide_false _ Hn). rewrite bool_decide_false by done.
  rewrite (Z.eqb_sym (tail (values (VAL_OBJ_FRAME arg)))).
  destruct (Z.eqb_spec (tail (values (VAL_OBJ_FRAME val)))
                       (tail (values (VAL_OBJ_FRAME arg)))) as [Ht|Ht]; simpl; [|done].
  rewrite (Z.eqb_sym (tail (FRM_WORD_SERIES (VAL_OBJ_FRAME arg)))).
  destruct (Z.eqb_spec (tail (FRM_WORD_SERIES (VAL_OBJ_FRAME val)))
                       (tail (FRM_WORD_SERIES (VAL_OBJ_FRAME arg)))) as [Hw|Hw];
    simpl; [|done].
  rewrite <- Ht. apply eq_true_iff_eq. rewrite !entries_equal_iff.
  split; intros H n H1 H2; destruct (H n H1 H2) as [Hk Hv]; split; by apply Hsym.
Qed.

End ObjectOrderFacts.

Lemma same_object_is_equal_witness :
  Object.CT_Object 0%nat Object.Example.Cmp
    Object.Example.an_object Object.Example.an_object 0 = 1.
Proof.
  apply (same_object_is_equal 0%nat Object.Example.Cmp
           Object.Example.an_object Object.Example.an_object 0).
  - reflexivity.
  - lia.
Defined.

Lemma equal_object_sym_witness :
  Object.Equal_Object 0%nat Object.Example.Cmp Object.Example.an_object
    (Object.Build_REBVAL Object.REB_OBJECT
       (Object.Build_REBSER 6%nat [1; 7; 8]%nat [1; 1; 2]%nat))
  = Object.Equal_Object 0%nat Object.Example.Cmp
      (Object.Build_REBVAL Object.REB_OBJECT
         (Object.Build_REBSER 6%nat [1; 7; 8]%nat [1; 1; 2]%nat))
      Object.Example.an_object.
Proof.
  apply (equal_object_sym 0%nat Object.Example.Cmp).
  intros x y. unfold Object.Example.Cmp. lia.
Defined.

(** ** The catalog: the code just past the last message of a category *)

Section CatalogFacts.
Import Errors.
Context `{B : Boot}.

(** X15. The code whose offset is exactly at the tail of its category is
    not reported as missing: the lookup returns the terminator of the
    category as the message, and writes the two outputs. *)
Theorem find_error_at_category_tail (id_out type_out : REBVAL) (code : Z)
    (category : REBSER) :
  0 <= code < 2 ^ 32 →
  FRM_VALUE categories (Z.to_nat (code / 100 + 1)) = OBJECT category →
  IS_INTEGER (FRM_VALUE category 1) = true →
  IS_STRING (FRM_VALUE category 2) = true →
  code mod 100 + 3 = SERIES_TAIL category →
  Find_Error_For_Code id_out type_out code
  = (Some END,
     WORD (FRM_KEY category (Z.to_nat (code mod 100 + 3))),
     WORD (FRM_KEY categories (Z.to_nat (code / 100 + 1)))).
Proof.
  intros Hcode Hcat Hint Hstr Htail.
  assert (0 <= code / 100 < 42949673) as Hn.
  { split; [apply Z.div_pos; lia | apply Z.div_lt_upper_bound; lia]. }
  assert (0 <= code mod 100 < 100) as Hm by (apply Z.mod_pos_bound; lia).
  unfold Find_Error_For_Code. rewrite !REBCNT_of_small by lia.
  destruct (code / 100 + 1 >? SERIES_TAIL categories) eqn:H1.
  { exfalso. unfold FRM_VALUE in Hcat. rewrite nth_END_beyond in Hcat; [done|].
    unfold SERIES_TAIL in H1. lia. }
  rewrite Hcat, Hint, Hstr. simpl.
  destruct (code mod 100 + 3 >? SERIES_TAIL category) eqn:H2; [lia|].
  unfold FRM_VALUE at 1. rewrite nth_END_beyond; [done|].
  unfold SERIES_TAIL in Htail. lia.
Qed.

End CatalogFacts.

Lemma find_error_at_category_tail_witness :
  @Errors.Find_Error_For_Code Errors.Example.boot Errors.NONE Errors.UNSET 302
  = (Some Errors.END, Errors.WORD 0%nat, Errors.WORD Errors.Example.SYM_SCRIPT).
Proof.
  apply (@find_error_at_category_tail Errors.Example.boot Errors.NONE Errors.UNSET 302
           (Errors.Frame
              [Errors.Example.SYM_SELF; Errors.Example.SYM_CODE; Errors.Example.SYM_TYPE;
               Errors.Example.SYM_NO_VALUE; Errors.Example.SYM_NEED_VALUE]
              [Errors.OTHER Errors.REB_FRAME; Errors.INTEGER 300;
               Errors.STRING "script error";
               Errors.BLOCK [Errors.ANY_WORD REB_GET_WORD Errors.Example.SYM_ARG1;
                             Errors.STRING "has no value"];
               Errors.BLOCK [Errors.ANY_WORD REB_GET_WORD Errors.Example.SYM_ARG1;
                             Errors.STRING "needs a value"]])).
  - lia.
  - reflexivity.
  - reflexivity.
  - reflexivity.
  - reflexivity.
Defined.

(** ** The security policies: which entry of a detailed block decides *)

Section SecurityFacts.
Import Security.
Variable policies : REBVAL.
Variable Find_Word_Value : nat → REBSYM → option REBVAL.
Variable Match_Sub_Path : string → string → bool.
Variables RE_SECURITY_ERROR RE_SECURITY : Z.

Lemma scan_policies_entries (name_series : string) (entries : list (REBVAL * list Z)) :
  0 < VAL_TAIL name_series →
  forallb is_key entries = true →
  ∀ len flags,
    len = 0 ∨ len = VAL_TAIL name_series →
    scan_policies Match_Sub_Path (Some (ANY_BINSTR name_series)) (detailed entries)
      len flags
    = Scanned
        match last (List.filter (matches Match_Sub_Path name_series) entries) with
        | Some e => Some e.2
        | None =>
            if len =? 0 then
              match last (List.filter is_default entries) with
              | Some e => Some e.2
              | None => flags
              end
            else flags
        end.
Proof.
  intros Hname. induction entries as [|[key tuple] entries IH]; intros Hkeys len flags Hlen.
  - simpl. by destruct (len =? 0).
  - simpl in Hkeys. apply andb_true_iff in Hkeys as [Hkey Hkeys].
    specialize (IH Hkeys).
    destruct key as [|sym|series| | |]; try done.
    + (* the default word *)
      change (scan_policies Match_Sub_Path (Some (ANY_BINSTR name_series))
                (detailed ((WORD sym, tuple) :: entries)) len flags)
        with (scan_policies Match_Sub_Path (Some (ANY_BINSTR name_series))
                (detailed entries) len (if len =? 0 then Some tuple else flags)).
      rewrite IH by done.
      change (List.filter (matches Match_Sub_Path name_series) ((WORD sym, tuple) :: entries))
        with (List.filter (matches Match_Sub_Path name_series) entries).
      change (List.filter is_default ((WORD sym, tuple) :: entries))
        with ((WORD sym, tuple) :: List.filter is_default entries).
      rewrite last_cons.
      destruct (last (List.filter (matches Match_Sub_Path name_series) entries)); [done|].
      destruct (len =? 0); [|done].
      by destruct (last (List.filter is_default entries)).
    + (* a string *)
      destruct (Match_Sub_Path series name_series) eqn:Hmatch.
      * assert (scan_policies Match_Sub_Path (Some (ANY_BINSTR name_series))
                  (detailed ((ANY_BINSTR series, tuple) :: entries)) len flags
                = scan_policies Match_Sub_Path (Some (ANY_BINSTR name_series))
                    (detailed entries) (VAL_TAIL name_series) (Some tuple)) as ->.
        { simpl. rewrite Hmatch.
          destruct (Z.geb_spec (VAL_TAIL name_series) len); [done | lia]. }
        rewrite IH by (by right).
        assert (List.filter (matches Match_Sub_Path name_series)
                  ((ANY_BINSTR series, tuple) :: entries)
                = (ANY_BINSTR series, tuple)
                    :: List.filter (matches Match_Sub_Path name_series) entries) as ->.
        { simpl. unfold matches at 1. simpl. by rewrite Hmatch. }
        rewrite last_cons.
        destruct (last (List.filter (matches Match_Sub_Path name_series) entries)); [done|].
        by destruct (Z.eqb_spec (VAL_TAIL name_series) 0); [lia|].
      * assert (scan_policies Match_Sub_Path (Some (ANY_BINSTR name_series))
                  (detailed ((ANY_BINSTR series, tuple) :: entries)) len flags
                = scan_policies Match_Sub_Path (Some (ANY_BINSTR name_series))
                    (detailed entries) len flags) as ->.
        { simpl. by rewrite Hmatch. }
        rewrite IH by done.
        assert (List.filter (matches Match_Sub_Path name_series)
                  ((ANY_BINSTR series, tuple) :: entries)
                = List.filter (matches Match_Sub_Path name_series) entries) as ->.
        { simpl. unfold matches at 1. simpl. by rewrite Hmatch. }
        done.
Qed.

(** X16. In a detailed block of entries for a class, the last entry whose
    string matches the name decides, however long the strings are; an entry
    under a word decides only when no string matches, and then it is the last
    of them; with neither, the failure is the security error on the name. *)
Theorem security_last_match (frame : nat) (sym : REBSYM) (name_series : string)
    (entries : list (REBVAL * list Z)) :
  policies = OBJECT frame →
  Find_Word_Value frame sym = Some (BLOCK (detailed entries)) →
  forallb is_key entries = true →
  0 < VAL_TAIL name_series →
  Security_Policy policies Find_Word_Value Match_Sub_Path RE_SECURITY_ERROR RE_SECURITY
    sym (Some (ANY_BINSTR name_series))
  = match last (List.filter (matches Match_Sub_Path name_series) entries) with
    | Some e => Flags e.2
    | None =>
        match last (List.filter is_default entries) with
        | Some e => Flags e.2
        | None => fail_Error RE_SECURITY (ANY_BINSTR name_series)
        end
    end.
Proof.
  intros Hpol Hfind Hkeys Hname. unfold Security_Policy.
  rewrite Hpol, Hfind, (scan_policies_entries name_series entries Hname Hkeys) by (by left).
  destruct (last (List.filter (matches Match_Sub_Path name_series) entries)); [done|].
  simpl. by destruct (last (List.filter is_default entries)).
Qed.

Lemma scan_policies_odd (name : option REBVAL) (items : list REBVAL) :
  (Nat.odd (length items) = true →
   ∀ len flags found, scan_policies Match_Sub_Path name items len flags ≠ Scanned found)
  ∧ (∀ policy, Nat.odd (length (policy :: items)) = true →
     ∀ len flags found,
       scan_policies Match_Sub_Path name (policy :: items) len flags ≠ Scanned found).
Proof.
  induction items as [|item items [IH1 IH2]].
  - split; [done|]. intros policy _ len flags found. done.
  - split; [by apply IH2|].
    intros policy Hodd len flags found.
    assert (Nat.odd (length items) = true) as Hodd'.
    { exact Hodd. }
    specialize (IH1 Hodd').
    cbn [scan_policies].
    destruct item; try done.
    destruct policy as [|sym|series| | |]; try done.
    destruct name as [[| |name_series| | |]|]; try done.
    destruct (Match_Sub_Path _ _); [destruct (_ >=? _)|]; apply IH1.
Qed.

(** X17. A detailed block with an odd number of cells never yields flags:
    the last cell is read together with the terminator, which is no
    tuple. *)
Theorem security_odd_block (frame : nat) (sym : REBSYM) (name : option REBVAL)
    (items : list REBVAL) (tuple : list Z) :
  policies = OBJECT frame →
  Find_Word_Value frame sym = Some (BLOCK items) →
  Nat.odd (length items) = true →
  Security_Policy policies Find_Word_Value Match_Sub_Path RE_SECURITY_ERROR RE_SECURITY
    sym name ≠ Flags tuple.
Proof.
  intros Hpol Hfind Hodd. unfold Security_Policy. rewrite Hpol, Hfind.
  destruct (scan_policies_odd name items) as [Hscan _].
  specialize (Hscan Hodd 0 None).
  destruct (scan_policies _ _ _ _ _) as [[found|]| |]; try done.
  by destruct (Hscan (Some found)).
Qed.

End SecurityFacts.

Lemma security_last_match_witness :
  Security.Security_Policy (Security.OBJECT 0) Security.Example.Find_Word_Value
    Security.Example.Match_Sub_Path 1 2 Security.Example.SYM_FILE
    (Some (Security.ANY_BINSTR "/home/me"))
  = Security.Flags [2; 2; 2].
Proof.
  apply (security_last_match (Security.OBJECT 0) Security.Example.Find_Word_Value
           Security.Example.Match_Sub_Path 1 2 0%nat Security.Example.SYM_FILE
           "/home/me" Security.Example.file_entries).
  - reflexivity.
  - reflexivity.
  - reflexivity.
  - reflexivity.
Defined.

Lemma security_odd_block_witness :
  Security.Security_Policy (Security.OBJECT 0)
    (fun _ _ => Some (Security.BLOCK [Security.WORD Security.Example.SYM_DEFAULT;
                                      Security.TUPLE [0; 0; 0];
                                      Security.ANY_BINSTR "/tmp/"]))
    Security.Example.Match_Sub_Path 1 2 Security.Example.SYM_FILE
    (Some (Security.ANY_BINSTR "/home/me"))
  ≠ Security.Flags [0; 0; 0].
Proof.
  apply (security_odd_block (Security.OBJECT 0)
           (fun _ _ => Some (Security.BLOCK [Security.WORD Security.Example.SYM_DEFAULT;
                                             Security.TUPLE [0; 0; 0];
                                             Security.ANY_BINSTR "/tmp/"]))
           Security.Example.Match_Sub_Path 1 2 0%nat Security.Example.SYM_FILE
           (Some (Security.ANY_BINSTR "/home/me"))
           [Security.WORD Security.Example.SYM_DEFAULT; Security.TUPLE [0; 0; 0];
            Security.ANY_BINSTR "/tmp/"]
           [0; 0; 0]).
  - reflexivity.
  - reflexivity.
  - reflexivity.
Defined.

(** ** The generators: when a function gets a definitional return *)

Section GeneratorFacts.
Import Func.
Context `{B : Boot}.

Lemma scan_generator_flags (spec_index : nat) (rest : list REBVAL) :
  ∀ done g array' g',
    scan_generator spec_index done rest g = inr (array', g') →
    has_return g' = has_return g && forallb (λ item, negb (cancels_return item)) rest
    ∧ func_infix g' = func_infix g || existsb asks_infix rest.
Proof.
  induction rest as [|item rest IH]; intros done g array' g' Hscan.
  - simpl in Hscan. injection Hscan as <- <-. simpl.
    by rewrite andb_true_r, orb_false_r.
  - cbn [forallb existsb].
    destruct item as [| | |k str|a i|k sym|sym bits e|k];
      try (apply IH in Hscan as [-> ->]; simpl; by rewrite ?orb_false_l).
    + (* a string *)
      destruct k; try (apply IH in Hscan as [-> ->]; simpl; by rewrite ?orb_false_l).
      cbn [scan_generator] in Hscan. unfold cancels_return, asks_infix.
      destruct (Compare_String_Vals (ANY_BINSTR REB_TAG str) ROOT_TRANSPARENT_TAG true =? 0).
      { apply IH in Hscan as [-> ->]. simpl. by rewrite andb_false_r. }
      destruct (Compare_String_Vals (ANY_BINSTR REB_TAG str) ROOT_INFIX_TAG true =? 0).
      { apply IH in Hscan as [-> ->]. simpl. by rewrite orb_true_r. }
      destruct (Compare_String_Vals (ANY_BINSTR REB_TAG str) ROOT_LOCAL_TAG true =? 0);
        [|done].
      apply IH in Hscan as [-> ->]. simpl. done.
    + (* a word *)
      destruct k; try (apply IH in Hscan as [-> ->]; simpl; by rewrite ?orb_false_l);
        cbn [scan_generator] in Hscan; unfold cancels_return;
        destruct (convert_local g); try done; cbn [VAL_WORD_SYM] in Hscan;
        destruct (SAME_SYM sym SYM_RETURN);
        apply IH in Hscan as [-> ->]; simpl; by rewrite ?andb_false_r, ?andb_true_r.
Qed.

(** X18. A function that the maker returns has a definitional return exactly
    when one was asked for and no item of the array of the spec, from its
    head, cancels it (the <transparent> tag, or a word of the symbol of
    [return] that is no set-word); it is infix exactly when a return was
    asked for and the array holds the <infix> tag. *)
Theorem made_function_flags (type : func_kind) (spec body : REBVAL)
    (has_return_arg : bool) (func : function) :
  Make_Function type spec body has_return_arg = inr func →
  EXT_FUNC_HAS_RETURN func
  = has_return_arg
    && forallb (λ item, negb (cancels_return item)) (VAL_ARRAY_HEAD spec)
  ∧ EXT_FUNC_INFIX func = has_return_arg && existsb asks_infix (VAL_ARRAY_HEAD spec).
Proof.
  intros Hmake. unfold Make_Function in Hmake.
  destruct spec as [| | | |array index| | |]; try done.
  destruct body as [| | | |barray bindex| | |]; try done.
  cbn [IS_BLOCK negb orb] in Hmake.
  destruct (function_spec (BLOCK array index) has_return_arg)
    as [|[func_spec g]] eqn:Hspec; [done|].
  destruct (Make_Paramlist_Managed _ _) as [|params]; [done|].
  injection Hmake as <-. cbn [EXT_FUNC_HAS_RETURN EXT_FUNC_INFIX VAL_ARRAY_HEAD].
  unfold function_spec in Hspec. destruct has_return_arg; cbn [negb] in Hspec.
  - destruct (scan_generator _ _ _ _) as [|[array' g']] eqn:Hscan; [done|].
    apply scan_generator_flags in Hscan as [Hret Hinfix]. simpl in Hret, Hinfix.
    destruct (has_return g') eqn:Hg; injection Hspec as <- <-; rewrite Hg; simpl;
      (split; [exact Hret | exact Hinfix]).
  - by injection Hspec as <- <-.
Qed.

End GeneratorFacts.

Lemma made_function_flags_witness :
  ∃ func,
    Func.Example.made_infix = inr func
    ∧ Func.EXT_FUNC_HAS_RETURN func = false
    ∧ Func.EXT_FUNC_INFIX func = true.
Proof.
  eexists. split; [reflexivity|].
  apply (@made_function_flags Func.Example.boot Func.REB_FUNCTION
           (Func.BLOCK [Func.ANY_BINSTR Func.REB_TAG "infix";
                        Func.ANY_WORD REB_WORD Func.Example.SYM_A;
                        Func.ANY_WORD REB_REFINEMENT Func.Example.SYM_RETURN] 1)
           (Func.BLOCK [] 0) true).
  reflexivity.
Defined.
